(** * Theia decorations: the decorations service and the plugin request queue

    A shallow embedding of
    - [packages/core/src/browser/decorations/decorations-service.ts]
      ([DecorationProviderWrapper], [DecorationsServiceImpl]) and
    - [packages/plugin-ext/src/main/browser/decorations/decorations-main.ts]
      ([DecorationRequestsQueue]).

    JavaScript objects with identity (requests, wrappers, promises) are
    addresses (natural numbers); emitters are the logs of what was fired on
    them; promise callbacks and timers are steps taken by the environment. *)

From Stdlib Require Import ZArith Lia.
From stdpp Require Import base gmap strings list fin_maps sorting.

(** ** Resources *)

(** Modelled from the spec: [URI] (common/uri, vscode-uri) is not part of the
    sources.  A resource path is "an opaque hierarchical identifier" with
    equality and an is-descendant-of relation; it is taken as the list of its
    segments, so that two equal serializations are the same key. *)
Abbreviation URI := (list string).

(** Modelled from the spec: the "is-descendant-of" relation of the missing
    [URI]; [isSuperstr prefix key] says that [key] is a strict descendant of
    [prefix]. *)
Fixpoint isSuperstr (prefix key : URI) : bool :=
  match prefix, key with
  | [], [] => false
  | [], _ :: _ => true
  | _ :: _, [] => false
  | a :: prefix', b :: key' => bool_decide (a = b) && isSuperstr prefix' key'
  end.

(** ** The prefix tree *)

Module TernarySearchTree.
Section tree.
Context {V : Type}.

(** Modelled from the spec: [TernarySearchTree] (common/ternary-search-tree)
    is not part of the sources.  The spec's PathPrefixCache is "a
    hierarchical key-value store keyed by path-like strings" with
    [get(key) -> value|absent], [set(key, value)], [delete(key)], [clear()]
    and [findDescendants(prefix)] "enumerating entries whose key is a strict
    descendant of prefix".  [set] hands back the value it replaces, as
    [_keepItem] reads it; [findSuperstr] is [undefined] when nothing lies
    below the key, as [knowsAbout] and [getOrRetrieve] test it. *)
Definition get (key : URI) (t : gmap URI V) : option V := t !! key.

(** Modelled from the spec: [set(key, value)] of the missing tree; the value
    it replaces is handed back. *)
Definition set (key : URI) (element : V) (t : gmap URI V) : option V * gmap URI V :=
  (t !! key, <[key := element]> t).

(** Modelled from the spec: [delete(key)] of the missing tree. *)
Definition delete (key : URI) (t : gmap URI V) : gmap URI V := base.delete key t.

(** Modelled from the spec: [clear()] of the missing tree. *)
Definition clear (t : gmap URI V) : gmap URI V := ∅.

(** Modelled from the spec: [findDescendants(prefix)] of the missing tree,
    "finite, order unspecified"; [None] when no entry lies strictly below
    [key]. *)
Definition findSuperstr (key : URI) (t : gmap URI V) : option (list V) :=
  match filter (λ kv : URI * V, isSuperstr key kv.1 = true) (map_to_list t) with
  | [] => None
  | kvs => Some (kvs.*2)
  end.
End tree.
End TernarySearchTree.

(** ** decorations-protocol.ts *)

Record IDecorationData := mkDecoration {
  weight : option Z;
  color : option string;
  letter : option string;
  tooltip : option string;
  bubble : option bool
}.

(** What [provideDecorations] hands back:
    [IDecorationData | Promise<IDecorationData | undefined> | undefined]. *)
Inductive provided :=
| PData (d : IDecorationData)
| PUndefined
| PThenable.

(** A provider is an external collaborator.  Its answer may depend on the
    calls it has already received (oldest first) and on the resource. *)
Record IDecorationsProvider := mkProvider {
  label : string;
  provideDecorations : list URI → URI → provided
}.

(** A rejection reason, as far as the [catch] handler inspects it. *)
Record JsError := mkError {
  instanceofError : bool;
  name : string;
  message : string
}.

Definition isCanceled (err : JsError) : bool :=
  instanceofError err && String.eqb (name err) "Canceled"
                      && String.eqb (message err) "Canceled".

(** ** DecorationProviderWrapper *)

(** The values kept in [data]:
    [DecorationDataRequest | IDecorationData | undefined].  A request object
    is known by its identity [r]; its [source] is the [r]-th cancellation
    token source the wrapper created. *)
Inductive item :=
| Request (r : nat)
| Data (d : IDecorationData)
| Undefined.

Definition truthy (i : item) : bool :=
  match i with Undefined => false | _ => true end.

(** [item === request] for the request object [r]. *)
Definition is_request (r : nat) (i : item) : bool :=
  match i with Request r' => Nat.eqb r' r | _ => false end.

(** [data ? data : undefined] read as a cache value. *)
Definition of_deco (deco : option IDecorationData) : item :=
  match deco with Some d => Data d | None => Undefined end.

(** What a wrapper fires on the two emitters it was constructed with. *)
Inductive emitted :=
| UriFired (uri : URI)        (* this._uriEmitter.fire(uri) *)
| FlushFired.                 (* this._flushEmitter.fire({ affectsResource: () => true }) *)

Record DecorationProviderWrapper := mkWrapper {
  provider : IDecorationsProvider;
  data : gmap URI item;
  (** every [provideDecorations] call made so far, oldest first; the [r]-th
      call received the token of source [r] *)
  calls : list URI;
  (** the sources on which [cancel()] was called *)
  cancelled : list nat;
  (** [_dispoable] has not been disposed: [onDidChange] still reaches us *)
  subscribed : bool
}.

Module Wrapper.

Definition create (p : IDecorationsProvider) : DecorationProviderWrapper :=
  mkWrapper p ∅ [] [] true.

Definition set_data (t : gmap URI item) (w : DecorationProviderWrapper) :=
  mkWrapper (provider w) t (calls w) (cancelled w) (subscribed w).

Definition cancel (r : nat) (w : DecorationProviderWrapper) :=
  mkWrapper (provider w) (data w) (calls w) (cancelled w ++ [r]) (subscribed w).

Definition called (uri : URI) (w : DecorationProviderWrapper) :=
  mkWrapper (provider w) (data w) (calls w ++ [uri]) (cancelled w) (subscribed w).

(** [this.data.get(uri)]: an absent key reads as [undefined]. *)
Definition get (uri : URI) (w : DecorationProviderWrapper) : item :=
  default Undefined (TernarySearchTree.get uri (data w)).

Definition dispose (w : DecorationProviderWrapper) : DecorationProviderWrapper :=
  mkWrapper (provider w) (TernarySearchTree.clear (data w)) (calls w) (cancelled w) false.

Definition knowsAbout (uri : URI) (w : DecorationProviderWrapper) : bool :=
  truthy (get uri w) || bool_decide (is_Some (TernarySearchTree.findSuperstr uri (data w))).

Definition _keepItem (uri : URI) (d : option IDecorationData) (w : DecorationProviderWrapper)
  : option IDecorationData * DecorationProviderWrapper * list emitted :=
  let deco := d in
  let '(old, t) := TernarySearchTree.set uri (of_deco deco) (data w) in
  (deco, set_data t w,
   if bool_decide (is_Some deco) || truthy (default Undefined old)
   then [UriFired uri] else []).

(** The head of [_fetchData]: "check for pending request and cancel it". *)
Definition cleared (uri : URI) (w : DecorationProviderWrapper) : DecorationProviderWrapper :=
  match get uri w with
  | Request r => set_data (TernarySearchTree.delete uri (data w)) (cancel r w)
  | _ => w
  end.

Definition _fetchData (uri : URI) (w : DecorationProviderWrapper)
  : option IDecorationData * DecorationProviderWrapper * list emitted :=
  let w1 := cleared uri w in
  let source := length (calls w1) in
  let dataOrThenable := provideDecorations (provider w1) (calls w1) uri in
  let w2 := called uri w1 in
  match dataOrThenable with
  | PData d => _keepItem uri (Some d) w2
  | PUndefined => _keepItem uri None w2
  | PThenable =>
      (None, set_data (TernarySearchTree.set uri (Request source) (data w2)).2 w2, [])
  end.

(** The [then] callback of request [r]: its closure holds the [uri] of the
    [r]-th call. *)
Definition fulfilled (r : nat) (d : option IDecorationData) (w : DecorationProviderWrapper)
  : DecorationProviderWrapper * list emitted :=
  match calls w !! r with
  | Some uri =>
      if is_request r (get uri w)
      then let '(_, w', ev) := _keepItem uri d w in (w', ev)
      else (w, [])
  | None => (w, [])
  end.

(** The [catch] callback of request [r]. *)
Definition rejected (r : nat) (err : JsError) (w : DecorationProviderWrapper)
  : DecorationProviderWrapper :=
  match calls w !! r with
  | Some uri =>
      if negb (isCanceled err) && is_request r (get uri w)
      then set_data (TernarySearchTree.delete uri (data w)) w
      else w
  | None => w
  end.

(** The listener on [provider.onDidChange]; [None] is the flush event. *)
Definition onDidChange (uris : option (list URI)) (w : DecorationProviderWrapper)
  : DecorationProviderWrapper * list emitted :=
  match uris with
  | None => (set_data (TernarySearchTree.clear (data w)) w, [FlushFired])
  | Some uris =>
      foldl (λ acc uri, let '(_, w', ev) := _fetchData uri acc.1 in (w', acc.2 ++ ev))
            (w, []) uris
  end.

(** The values a [findSuperstr] iterator yields that are resolved
    decorations. *)
Definition resolved_of (values : list item) : list IDecorationData :=
  omap (λ value, match value with Data d => Some d | _ => None end) values.

(** [getOrRetrieve]; the result lists the [callback(data, isChild)] calls in
    order. *)
Definition getOrRetrieve (uri : URI) (includeChildren : bool) (w : DecorationProviderWrapper)
  : list (IDecorationData * bool) * DecorationProviderWrapper * list emitted :=
  let '(item, w1, ev) :=
    match get uri w with
    | Undefined => let '(deco, w1, ev) := _fetchData uri w in (of_deco deco, w1, ev)
    | item => (item, w, [])
    end in
  let own := match item with Data d => [(d, false)] | _ => [] end in
  let children :=
    if includeChildren
    then match TernarySearchTree.findSuperstr uri (data w1) with
         | Some values => (λ d, (d, true)) <$> resolved_of values
         | None => []
         end
    else [] in
  (own ++ children, w1, ev).

End Wrapper.

(** ** DecorationsServiceImpl *)

(** The two shapes of event the service fires on its public emitter.  The
    second one holds a reference to a wrapper: its predicate reads that
    wrapper's cache when it is called. *)
Inductive IResourceDecorationChangeEvent :=
| AffectsAll                      (* { affectsResource() { return true; } } *)
| AffectsKnown (wrapper : nat).   (* { affectsResource: uri => wrapper.knowsAbout(uri) } *)

Record DecorationsServiceImpl := mkService {
  (** every wrapper object created so far; an address is an index here *)
  heap : list DecorationProviderWrapper;
  (** the array [_data] of references to the live wrappers *)
  _data : list nat;
  (** what was fired on the private emitter [_onDidChangeDecorationsDelayed] *)
  _onDidChangeDecorationsDelayed : list URI;
  (** what was fired on [onDidChangeDecorationsEmitter] *)
  onDidChangeDecorationsEmitter : list IResourceDecorationChangeEvent
}.

Module Service.

Definition create : DecorationsServiceImpl := mkService [] [] [] [].

(** [readonly onDidChangeDecorations = this.onDidChangeDecorationsEmitter.event]:
    a subscriber receives what is fired on that emitter, in order. *)
Definition onDidChangeDecorations (s : DecorationsServiceImpl)
  : list IResourceDecorationChangeEvent :=
  onDidChangeDecorationsEmitter s.

Definition affectsResource (h : list DecorationProviderWrapper)
    (e : IResourceDecorationChangeEvent) (uri : URI) : bool :=
  match e with
  | AffectsAll => true
  | AffectsKnown a =>
      match h !! a with
      | Some w => Wrapper.knowsAbout uri w
      | None => false
      end
  end.

Definition set_heap (h : list DecorationProviderWrapper) (s : DecorationsServiceImpl) :=
  mkService h (_data s) (_onDidChangeDecorationsDelayed s) (onDidChangeDecorationsEmitter s).

Definition set__data (l : list nat) (s : DecorationsServiceImpl) :=
  mkService (heap s) l (_onDidChangeDecorationsDelayed s) (onDidChangeDecorationsEmitter s).

Definition fire_change (e : IResourceDecorationChangeEvent) (s : DecorationsServiceImpl) :=
  mkService (heap s) (_data s) (_onDidChangeDecorationsDelayed s)
            (onDidChangeDecorationsEmitter s ++ [e]).

Definition fire_delayed (uri : URI) (s : DecorationsServiceImpl) :=
  mkService (heap s) (_data s) (_onDidChangeDecorationsDelayed s ++ [uri])
            (onDidChangeDecorationsEmitter s).

(** A wrapper is constructed with [_uriEmitter = _onDidChangeDecorationsDelayed]
    and [_flushEmitter = onDidChangeDecorationsEmitter]. *)
Definition fire (e : emitted) (s : DecorationsServiceImpl) : DecorationsServiceImpl :=
  match e with
  | UriFired uri => fire_delayed uri s
  | FlushFired => fire_change AffectsAll s
  end.

Definition fire_all (ev : list emitted) (s : DecorationsServiceImpl) : DecorationsServiceImpl :=
  foldl (λ s e, fire e s) s ev.

(** Run a method of the wrapper at address [a]. *)
Definition on_wrapper (a : nat)
    (f : DecorationProviderWrapper → DecorationProviderWrapper * list emitted)
    (s : DecorationsServiceImpl) : DecorationsServiceImpl :=
  match heap s !! a with
  | Some w => let '(w', ev) := f w in fire_all ev (set_heap (<[a := w']> (heap s)) s)
  | None => s
  end.

(** [registerDecorationsProvider]: the address of the new wrapper stands for
    the [Disposable] handed back. *)
Definition registerDecorationsProvider (p : IDecorationsProvider) (s : DecorationsServiceImpl)
  : nat * DecorationsServiceImpl :=
  let wrapper := length (heap s) in
  let s1 := set_heap (heap s ++ [Wrapper.create p]) s in
  let s2 := set__data (_data s1 ++ [wrapper]) s1 in
  (wrapper, fire_change AffectsAll s2).

(** [Array.prototype.indexOf] on an array of references. *)
Fixpoint indexOf (l : list nat) (a : nat) : Z :=
  match l with
  | [] => -1
  | b :: l' => if Nat.eqb b a then 0 else
                 let i := indexOf l' a in if (i <? 0)%Z then -1 else (i + 1)%Z
  end.

(** [Array.prototype.splice(start, 1)]: a negative [start] counts from the
    end of the array. *)
Definition splice1 (start : Z) (l : list nat) : list nat :=
  let len := Z.of_nat (length l) in
  let from := if (start <? 0)%Z then Z.max (len + start) 0 else Z.min start len in
  take (Z.to_nat from) l ++ drop (S (Z.to_nat from)) l.

(** The body of the [Disposable] of wrapper [a], up to and including the
    [fire]: listeners run inside [fire], before [wrapper.dispose()]. *)
Definition dispose_fire (a : nat) (s : DecorationsServiceImpl) : DecorationsServiceImpl :=
  let s1 := set__data (splice1 (indexOf (_data s) a) (_data s)) s in
  fire_change (AffectsKnown a) s1.

(** Modelled from the spec: [Disposable.create] (common/disposable) is not
    part of the sources; "the returned disposal handle, when invoked" runs
    the function it was created with, at every invocation. *)
Definition dispose_registration (a : nat) (s : DecorationsServiceImpl) : DecorationsServiceImpl :=
  on_wrapper a (λ w, (Wrapper.dispose w, [])) (dispose_fire a s).

(** The callback handed to [getOrRetrieve]: [!isChild || deco.bubble]. *)
Definition pushed (cb : IDecorationData * bool) : bool :=
  negb cb.2 || bool_decide (bubble cb.1 = Some true).

Fixpoint getDecoration_loop (wrappers : list nat) (uri : URI) (includeChildren : bool)
    (acc : list IDecorationData) (s : DecorationsServiceImpl)
  : list IDecorationData * DecorationsServiceImpl :=
  match wrappers with
  | [] => (acc, s)
  | a :: rest =>
      match heap s !! a with
      | Some w =>
          let '(cbs, w', ev) := Wrapper.getOrRetrieve uri includeChildren w in
          getDecoration_loop rest uri includeChildren
            (acc ++ (filter (λ cb, pushed cb = true) cbs).*1)
            (fire_all ev (set_heap (<[a := w']> (heap s)) s))
      | None => getDecoration_loop rest uri includeChildren acc s
      end
  end.

Definition getDecoration (uri : URI) (includeChildren : bool) (s : DecorationsServiceImpl)
  : list IDecorationData * DecorationsServiceImpl :=
  getDecoration_loop (_data s) uri includeChildren [] s.

(** What can happen to a service: calls of its consumers, events of the
    providers, and the settling of the promises the providers returned. *)
Inductive action :=
| Register (p : IDecorationsProvider)
| DisposeRegistration (a : nat)
| GetDecoration (uri : URI) (includeChildren : bool)
| ProviderChanged (a : nat) (uris : option (list URI))
| PromiseFulfilled (a r : nat) (d : option IDecorationData)
| PromiseRejected (a r : nat) (err : JsError).

Definition step (s : DecorationsServiceImpl) (x : action) : DecorationsServiceImpl :=
  match x with
  | Register p => (registerDecorationsProvider p s).2
  | DisposeRegistration a =>
      if bool_decide (a < length (heap s)) then dispose_registration a s else s
  | GetDecoration uri includeChildren => (getDecoration uri includeChildren s).2
  | ProviderChanged a uris =>
      on_wrapper a (λ w, if subscribed w then Wrapper.onDidChange uris w else (w, [])) s
  | PromiseFulfilled a r d => on_wrapper a (Wrapper.fulfilled r d) s
  | PromiseRejected a r err => on_wrapper a (λ w, (Wrapper.rejected r err w, [])) s
  end.

Definition run (xs : list action) (s : DecorationsServiceImpl) : DecorationsServiceImpl :=
  foldl step s xs.

Definition reachable (s : DecorationsServiceImpl) : Prop :=
  ∃ xs, s = run xs create.

(** The array [_data] holds a live wrapper once, and only wrappers that
    exist. *)
Definition well_formed (s : DecorationsServiceImpl) : Prop :=
  NoDup (_data s) ∧ ∀ a, a ∈ _data s → a < length (heap s).

(** What the callback of [getDecoration] pushes for one wrapper. *)
Definition contribution (uri : URI) (includeChildren : bool) (w : DecorationProviderWrapper)
  : list IDecorationData :=
  (filter (λ cb, pushed cb = true) (Wrapper.getOrRetrieve uri includeChildren w).1.1).*1.

(** The decoration the provider of a wrapper hands back at once when it is
    asked about a resource now, if it does. *)
Definition answered_now (uri : URI) (w : DecorationProviderWrapper) : option IDecorationData :=
  match provideDecorations (provider w) (calls w) uri with
  | PData d => Some d
  | _ => None
  end.

(** What [getOrRetrieve] passes to its callback with [isChild = false]: the
    decoration in the slot of the resource, or, when the slot has nothing,
    the one the fetch hands back at once. *)
Definition own (uri : URI) (w : DecorationProviderWrapper) : list IDecorationData :=
  match Wrapper.get uri w with
  | Data d => [d]
  | Request _ => []
  | Undefined => option_list (answered_now uri w)
  end.

(** The action is a query of [uri]. *)
Definition queries (uri : URI) (x : action) : bool :=
  match x with
  | GetDecoration k _ => bool_decide (k = uri)
  | _ => false
  end.

(** The action is a selective change event of a provider that lists
    [uri]. *)
Definition lists (uri : URI) (x : action) : bool :=
  match x with
  | ProviderChanged _ (Some uris) => bool_decide (uri ∈ uris)
  | _ => false
  end.

End Service.

(** ** DecorationRequestsQueue (decorations-main.ts) *)

(** [DecorationRequest] of plugin-api-rpc, as [enqueue] builds it:
    [{ id, uri }]. *)
Record DecorationRequest := mkRequest {
  id : nat;
  uri : URI
}.

(** [DecorationData] of plugin-api-rpc, as [provideDecorations] takes it
    apart: [[bubble, tooltip, letter, themeColor]]. *)
Definition DecorationData : Type :=
  option bool * option string * option string * option string.

(** A JavaScript [Map] with number keys: the entries in insertion order. *)
Module JsMap.
Section jsmap.
Context {V : Type}.

Definition has (k : nat) (m : list (nat * V)) : bool :=
  existsb (λ kv, Nat.eqb kv.1 k) m.

Definition set (k : nat) (v : V) (m : list (nat * V)) : list (nat * V) :=
  if has k m
  then (λ kv : nat * V, if Nat.eqb kv.1 k then (k, v) else kv) <$> m
  else m ++ [(k, v)].

Definition delete (k : nat) (m : list (nat * V)) : list (nat * V) :=
  filter (λ kv : nat * V, kv.1 ≠ k) m.

Definition values (m : list (nat * V)) : list V := m.*2.

Fixpoint get (k : nat) (m : list (nat * V)) : option V :=
  match m with
  | [] => None
  | kv :: m' => if Nat.eqb kv.1 k then Some kv.2 else get k m'
  end.
End jsmap.
End JsMap.

(** One [$provideDecorations] call and the [then] callback waiting for it. *)
Record Batch := mkBatch {
  (** the second argument of the call: [[...requests.values()]] *)
  sent : list DecorationRequest;
  (** the map [resolver] the callback closes over *)
  waiting : list (nat * nat);
  (** the call has completed and the callback has run *)
  completed : bool
}.

Record DecorationRequestsQueue := mkQueue {
  _idPool : nat;
  _requests : list (nat * DecorationRequest);
  (** request id ↦ the [resolve] function of the promise [enqueue] returned;
      a promise is known by the number of the [enqueue] call that made it *)
  _resolver : list (nat * nat);
  (** the handle [setTimeout] returned (a positive number in a browser), or
      [undefined] *)
  _timer : option nat;
  (** how many times [setTimeout] was called *)
  timeouts : nat;
  (** the [$provideDecorations] calls made on [_proxy], oldest first *)
  batches : list Batch;
  (** the [resolve(value)] calls made so far: promise and value *)
  resolved : list (nat * option DecorationData)
}.

Module Queue.

Definition create : DecorationRequestsQueue := mkQueue 0 [] [] None 0 [] [].

Definition _processQueue (q : DecorationRequestsQueue) : DecorationRequestsQueue :=
  match _timer q with
  | Some _ => q                       (* already queued *)
  | None =>
      mkQueue (_idPool q) (_requests q) (_resolver q)
              (Some (S (timeouts q))) (S (timeouts q)) (batches q) (resolved q)
  end.

(** [enqueue(uri, token)]; the result is the promise handed back. *)
Definition enqueue (u : URI) (q : DecorationRequestsQueue) : nat * DecorationRequestsQueue :=
  let id := S (_idPool q) in
  let result := id in
  (result,
   _processQueue
     (mkQueue id
              (JsMap.set id (mkRequest id u) (_requests q))
              (JsMap.set id result (_resolver q))
              (_timer q) (timeouts q) (batches q) (resolved q))).

(** The listener [enqueue] puts on the token of request [id]. *)
Definition onCancellationRequested (id : nat) (q : DecorationRequestsQueue)
  : DecorationRequestsQueue :=
  mkQueue (_idPool q) (JsMap.delete id (_requests q)) (JsMap.delete id (_resolver q))
          (_timer q) (timeouts q) (batches q) (resolved q).

(** The function handed to [setTimeout]; it runs only when a timer is
    pending. *)
Definition timeout (q : DecorationRequestsQueue) : DecorationRequestsQueue :=
  match _timer q with
  | None => q
  | Some _ =>
      let requests := _requests q in
      let resolver := _resolver q in
      mkQueue (_idPool q) [] [] None (timeouts q)
              (batches q ++ [mkBatch (JsMap.values requests) resolver false])
              (resolved q)
  end.

(** The [then] callback of the [i]-th batched call, completing with [data]. *)
Definition fanOut (i : nat) (data : nat → option DecorationData) (q : DecorationRequestsQueue)
  : DecorationRequestsQueue :=
  match batches q !! i with
  | Some b =>
      if completed b then q
      else mkQueue (_idPool q) (_requests q) (_resolver q) (_timer q) (timeouts q)
                   (<[i := mkBatch (sent b) (waiting b) true]> (batches q))
                   (resolved q ++ ((λ kv : nat * nat, (kv.2, data kv.1)) <$> waiting b))
  | None => q
  end.

Inductive action :=
| Enqueue (u : URI)
| Cancel (id : nat)              (* the token of request [id] fires *)
| Timeout                        (* the timer fires: the flush *)
| Completed (i : nat) (data : nat → option DecorationData).

Definition step (q : DecorationRequestsQueue) (x : action) : DecorationRequestsQueue :=
  match x with
  | Enqueue u => (enqueue u q).2
  | Cancel id => onCancellationRequested id q
  | Timeout => timeout q
  | Completed i data => fanOut i data q
  end.

Definition run (xs : list action) (q : DecorationRequestsQueue) : DecorationRequestsQueue :=
  foldl step q xs.

Definition reachable (q : DecorationRequestsQueue) : Prop :=
  ∃ xs, q = run xs create.

(** What holds of every queue: the maps are empty while no timer is
    pending; a request is filed under its id, a [resolve] function under the
    id of the request of its promise, and ids come from the pool; what a
    batch in flight waits for and what was resolved is in the current maps no
    more. *)
Definition consistent (q : DecorationRequestsQueue) : Prop :=
  (_timer q = None → _requests q = [] ∧ _resolver q = [])
  ∧ (∀ k req, (k, req) ∈ _requests q → id req = k ∧ k ≤ _idPool q)
  ∧ (∀ k p, (k, p) ∈ _resolver q → p = k ∧ k ≤ _idPool q)
  ∧ (∀ b k p, b ∈ batches q → (k, p) ∈ waiting b →
       p = k ∧ k ≤ _idPool q ∧ JsMap.has k (_resolver q) = false)
  ∧ (∀ p v, (p, v) ∈ resolved q → p ≤ _idPool q ∧ JsMap.has p (_resolver q) = false).

(** The promise of request [id] can be resolved no more: the id was handed
    out, no [resolve] function is filed under it, no batch in flight waits
    for it, and it was not resolved. *)
Definition dropped (id : nat) (q : DecorationRequestsQueue) : Prop :=
  id ≤ _idPool q
  ∧ JsMap.has id (_resolver q) = false
  ∧ (∀ b, b ∈ batches q → completed b = false → id ∉ (waiting b).*1)
  ∧ id ∉ (resolved q).*1.

(** The ids of all the requests sent to the provider so far, batch after
    batch. *)
Definition sent_ids (q : DecorationRequestsQueue) : list nat :=
  batches q ≫= λ b, id <$> sent b.

(** The ids the batches in flight still wait for. *)
Definition awaited (q : DecorationRequestsQueue) : list nat :=
  batches q ≫= λ b, if completed b then [] else (waiting b).*1.

(** The two maps go together: a [resolve] function is filed for exactly the
    requests that are filed, in the same order, and a batch waits for exactly
    the requests it sent. *)
Definition aligned (q : DecorationRequestsQueue) : Prop :=
  _resolver q = (λ kv : nat * DecorationRequest, (kv.1, kv.1)) <$> _requests q
  ∧ ∀ b, b ∈ batches q → waiting b = (λ req, (id req, id req)) <$> sent b.

(** Ids start at one and never pass the pool. *)
Definition bounded (q : DecorationRequestsQueue) : Prop :=
  ∀ k, k ∈ sent_ids q ++ (_requests q).*1 → 1 ≤ k ≤ _idPool q.

End Queue.

(** ** One provider session on its own *)

(** Everything that can happen to one wrapper: a query routed to it by
    [getDecoration], an event of its provider, the settling of a promise its
    provider returned, and its disposal. *)
Module Session.

Inductive event :=
| Query (uri : URI) (includeChildren : bool)
| Changed (uris : option (list URI))
| Fulfilled (r : nat) (d : option IDecorationData)
| Rejected (r : nat) (err : JsError)
| Disposed.

Definition step (w : DecorationProviderWrapper) (e : event) : DecorationProviderWrapper :=
  match e with
  | Query uri includeChildren => (Wrapper.getOrRetrieve uri includeChildren w).1.2
  | Changed uris => if subscribed w then (Wrapper.onDidChange uris w).1 else w
  | Fulfilled r d => (Wrapper.fulfilled r d w).1
  | Rejected r err => Wrapper.rejected r err w
  | Disposed => Wrapper.dispose w
  end.

Definition run (es : list event) (w : DecorationProviderWrapper) : DecorationProviderWrapper :=
  foldl step w es.

Definition reachable (w : DecorationProviderWrapper) : Prop :=
  ∃ p es, w = run es (Wrapper.create p).

(** Request [r] is still awaited: it was made for some resource and is the
    slot of that resource. *)
Definition pending (r : nat) (w : DecorationProviderWrapper) : Prop :=
  ∃ uri, calls w !! r = Some uri ∧ Wrapper.get uri w = Request r.

(** Request [r] was made and is no slot of the cache any more. *)
Definition stale (r : nat) (w : DecorationProviderWrapper) : Prop :=
  r < length (calls w) ∧ ∀ uri, Wrapper.get uri w ≠ Request r.

(** What holds of every session: a pending slot holds a request made for
    its resource whose token was not cancelled, and only tokens that were
    handed out are cancelled. *)
Definition consistent (w : DecorationProviderWrapper) : Prop :=
  (∀ uri r, Wrapper.get uri w = Request r → calls w !! r = Some uri ∧ r ∉ cancelled w)
  ∧ (∀ r, r ∈ cancelled w → r < length (calls w)).

End Session.

(** ** One scheduling turn of the queue *)

Module Turn.

(** The ids whose token fires in a sequence of actions. *)
Definition cancels (xs : list Queue.action) : list nat :=
  omap (λ x, match x with Queue.Cancel id => Some id | _ => None end) xs.

(** A turn: calls of [enqueue] and firing tokens, and nothing else. *)
Definition within (xs : list Queue.action) : Prop :=
  Forall (λ x, match x with Queue.Enqueue _ | Queue.Cancel _ => True | _ => False end) xs.

Definition enqueues (xs : list Queue.action) : list URI :=
  omap (λ x, match x with Queue.Enqueue u => Some u | _ => None end) xs.

(** The requests of a turn that are still live at its end, in the order they
    were enqueued: the first gets the id after [pool], and a request is
    dropped when its token fires later in the turn. *)
Fixpoint live (pool : nat) (xs : list Queue.action) : list DecorationRequest :=
  match xs with
  | [] => []
  | Queue.Enqueue u :: xs' =>
      (if bool_decide (S pool ∈ cancels xs') then [] else [mkRequest (S pool) u])
        ++ live (S pool) xs'
  | _ :: xs' => live pool xs'
  end.

End Turn.

(** ** Scenarios *)

Module Scenario.

Definition a : URI := ["a"%string].
Definition a_b : URI := ["a"%string; "b"%string].
Definition c : URI := ["c"%string].

Definition X : IDecorationData :=
  mkDecoration (Some 10%Z) None (Some "X"%string) None (Some false).
Definition Y : IDecorationData :=
  mkDecoration (Some 10%Z) None (Some "Y"%string) None (Some true).

(** Answers every call with a promise. *)
Definition slow : IDecorationsProvider :=
  mkProvider "slow" (λ _ _, PThenable).

(** Answers at once: [X] for [a], [Y] for [a/b], nothing otherwise. *)
Definition eager : IDecorationsProvider :=
  mkProvider "eager" (λ _ uri,
    if bool_decide (uri = a) then PData X
    else if bool_decide (uri = a_b) then PData Y
    else PUndefined).

(** Answers at once, and never has a decoration. *)
Definition blank : IDecorationsProvider :=
  mkProvider "blank" (λ _ _, PUndefined).

Definition failure : JsError := mkError true "Error" "boom".
Definition cancellation : JsError := mkError true "Canceled" "Canceled".

Definition M : DecorationData := (Some true, None, Some "M"%string, None).

End Scenario.

(** ** DecorationsMainImpl (decorations-main.ts) *)

(** The provider [$registerDecorationProvider] hands to the service: its
    [provideDecorations] is an [async] function, so every call answers with a
    promise. *)
Definition pluginProvider (label : string) : IDecorationsProvider :=
  mkProvider label (λ _ _, PThenable).

(** What that [async] function returns once [queue.enqueue] has resolved
    with [data]; the theme color is known by its [id]. *)
Definition toDecoration (data : option DecorationData) : option IDecorationData :=
  match data with
  | None => None
  | Some (bubble, tooltip, letter, themeColor) =>
      Some (mkDecoration (Some 10%Z) themeColor letter tooltip
                         (Some (default false bubble)))
  end.

Record DecorationsMainImpl := mkMain {
  decorationsService : DecorationsServiceImpl;
  (** handle ↦ [[emitter, registration]]: the emitter is known by the wrapper
      that listens to it, the registration by the wrapper it disposes *)
  providers : list (nat * (nat * nat))
}.

Module Main.

Definition create : DecorationsMainImpl := mkMain Service.create [].

Definition _registerDecorationProvider (handle : nat) (label : string)
    (m : DecorationsMainImpl) : DecorationsMainImpl :=
  let '(registration, s) :=
    Service.registerDecorationsProvider (pluginProvider label) (decorationsService m) in
  let emitter := registration in
  mkMain s (JsMap.set handle (emitter, registration) (providers m)).

(** [$onDidChange]: [resources && resources.map(...)] is fired on the
    emitter of the handle, if the handle is known. *)
Definition _onDidChange (handle : nat) (resources : option (list URI))
    (m : DecorationsMainImpl) : DecorationsMainImpl :=
  match JsMap.get handle (providers m) with
  | Some (emitter, _) =>
      mkMain (Service.step (decorationsService m) (Service.ProviderChanged emitter resources))
             (providers m)
  | None => m
  end.

(** [provider.forEach(p => p.dispose())]: the emitter, which holds no state
    of its own here, then the registration. *)
Definition dispose_entry (s : DecorationsServiceImpl) (entry : nat * (nat * nat))
  : DecorationsServiceImpl :=
  Service.dispose_registration entry.2.2 s.

Definition _unregisterDecorationProvider (handle : nat) (m : DecorationsMainImpl)
  : DecorationsMainImpl :=
  match JsMap.get handle (providers m) with
  | Some provider =>
      mkMain (dispose_entry (decorationsService m) (handle, provider))
             (JsMap.delete handle (providers m))
  | None => m
  end.

Definition dispose (m : DecorationsMainImpl) : DecorationsMainImpl :=
  mkMain (foldl dispose_entry (decorationsService m) (providers m)) [].

(** What can happen: the calls of the plugin host, a query of a consumer of
    the service, and the promise of the [r]-th call of the provider of
    wrapper [a] fulfilling once its queue has resolved with [data]. *)
Inductive action :=
| RegisterDecorationProvider (handle : nat) (label : string)
| OnDidChange (handle : nat) (resources : option (list URI))
| UnregisterDecorationProvider (handle : nat)
| Dispose
| GetDecoration (uri : URI) (includeChildren : bool)
| Resolved (a r : nat) (data : option DecorationData).

Definition step (m : DecorationsMainImpl) (x : action) : DecorationsMainImpl :=
  match x with
  | RegisterDecorationProvider handle label => _registerDecorationProvider handle label m
  | OnDidChange handle resources => _onDidChange handle resources m
  | UnregisterDecorationProvider handle => _unregisterDecorationProvider handle m
  | Dispose => dispose m
  | GetDecoration uri includeChildren =>
      mkMain (Service.getDecoration uri includeChildren (decorationsService m)).2
             (providers m)
  | Resolved a r data =>
      mkMain (Service.step (decorationsService m)
                           (Service.PromiseFulfilled a r (toDecoration data)))
             (providers m)
  end.

Definition run (xs : list action) (m : DecorationsMainImpl) : DecorationsMainImpl :=
  foldl step m xs.

Definition reachable (m : DecorationsMainImpl) : Prop :=
  ∃ xs, m = run xs create.

(** The wrappers the map of providers refers to. *)
Definition registrations (m : DecorationsMainImpl) : list nat :=
  (providers m).*2.*2.

(** What holds of every bridge: the service is well formed; under a handle
    the emitter and the registration of one live wrapper are filed, and no
    wrapper is filed twice; every provider answers with a promise. *)
Definition consistent (m : DecorationsMainImpl) : Prop :=
  Service.well_formed (decorationsService m)
  ∧ NoDup (providers m).*1
  ∧ (∀ handle1 handle2 emitter1 emitter2 registration,
       (handle1, (emitter1, registration)) ∈ providers m →
       (handle2, (emitter2, registration)) ∈ providers m → handle1 = handle2)
  ∧ (∀ handle emitter registration,
       (handle, (emitter, registration)) ∈ providers m →
       emitter = registration ∧ registration ∈ _data (decorationsService m))
  ∧ (∀ a w history uri, heap (decorationsService m) !! a = Some w →
       provideDecorations (provider w) history uri = PThenable).

(** Every decoration in a cache came through [toDecoration]. *)
Definition converted (m : DecorationsMainImpl) : Prop :=
  ∀ a w uri d, heap (decorationsService m) !! a = Some w →
               data w !! uri = Some (Data d) →
               weight d = Some 10%Z ∧ is_Some (bubble d).

End Main.

(** * Properties *)

(** ** The prefix relation and the tree *)

Lemma isSuperstr_spec (prefix key : URI) :
  isSuperstr prefix key = true ↔ ∃ rest, rest ≠ [] ∧ key = prefix ++ rest.
Proof.
  revert key. induction prefix as [|s prefix IH]; intros [|b key]; simpl.
  - split; [done | intros (rest & Hne & Heq); simpl in Heq; congruence].
  - split; [intros _; exists (b :: key); done | done].
  - split; [done | intros (rest & _ & Heq); done].
  - rewrite andb_true_iff, bool_decide_eq_true, IH. split.
    + intros [-> (rest & Hne & ->)]. by exists rest.
    + intros (rest & Hne & Heq). injection Heq as -> ->. eauto.
Qed.

Lemma isSuperstr_irrefl (key : URI) : isSuperstr key key = false.
Proof.
  induction key as [|s key IH]; simpl; [done |].
  by rewrite IH, andb_false_r.
Qed.

Lemma isSuperstr_ne (prefix key : URI) : isSuperstr prefix key = true → key ≠ prefix.
Proof. intros H ->. by rewrite isSuperstr_irrefl in H. Qed.

Section tree_facts.
Context {V : Type}.
Implicit Types (t : gmap URI V) (key : URI).

Lemma findSuperstr_elem key t values v :
  TernarySearchTree.findSuperstr key t = Some values →
  v ∈ values ↔ ∃ k, isSuperstr key k = true ∧ t !! k = Some v.
Proof.
  unfold TernarySearchTree.findSuperstr.
  set (kvs := filter _ _). intros Hfind.
  assert (values = kvs.*2) as -> by (destruct kvs; congruence).
  rewrite list_elem_of_fmap. split.
  - intros ([k v'] & -> & Hin). apply list_elem_of_filter in Hin as [Hsup Hin].
    apply elem_of_map_to_list in Hin. eauto.
  - intros (k & Hsup & Hk). exists (k, v). split; [done |].
    apply list_elem_of_filter. split; [done | by apply elem_of_map_to_list].
Qed.

Lemma findSuperstr_is_Some key t :
  is_Some (TernarySearchTree.findSuperstr key t) ↔
  ∃ k v, isSuperstr key k = true ∧ t !! k = Some v.
Proof.
  unfold TernarySearchTree.findSuperstr.
  set (kvs := filter _ _). split.
  - intros Hsome. destruct kvs as [|[k v] kvs'] eqn:Hkvs; [by destruct Hsome |].
    assert ((k, v) ∈ kvs) as Hin by (rewrite Hkvs; left).
    apply list_elem_of_filter in Hin as [Hsup Hin].
    apply elem_of_map_to_list in Hin. eauto.
  - intros (k & v & Hsup & Hk).
    assert ((k, v) ∈ kvs) as Hin.
    { apply list_elem_of_filter. split; [done | by apply elem_of_map_to_list]. }
    destruct kvs; [by apply elem_of_nil in Hin | done].
Qed.

Lemma findSuperstr_None key t :
  TernarySearchTree.findSuperstr key t = None ↔
  ∀ k, isSuperstr key k = true → t !! k = None.
Proof.
  rewrite eq_None_not_Some, findSuperstr_is_Some. split.
  - intros Hno k Hsup. destruct (t !! k) as [v|] eqn:Hk; [|done].
    exfalso. apply Hno. eauto.
  - intros Hall (k & v & Hsup & Hk). rewrite Hall in Hk; done.
Qed.

(** Writing at [key] does not change what lies strictly below [key]. *)
Lemma lookup_below_insert key element t k :
  isSuperstr key k = true → <[key := element]> t !! k = t !! k.
Proof. intros Hsup. apply lookup_insert_ne. intros ->. by rewrite isSuperstr_irrefl in Hsup. Qed.

Lemma lookup_below_delete key t k :
  isSuperstr key k = true → base.delete key t !! k = t !! k.
Proof. intros Hsup. apply lookup_delete_ne. intros ->. by rewrite isSuperstr_irrefl in Hsup. Qed.
End tree_facts.

(** ** The wrapper's methods, field by field *)

Section wrapper_facts.
Implicit Types (w : DecorationProviderWrapper) (uri : URI) (d : option IDecorationData).

Lemma get_lookup uri w i :
  data w !! uri = Some i → Wrapper.get uri w = i.
Proof. unfold Wrapper.get, TernarySearchTree.get. by intros ->. Qed.

Lemma get_absent uri w :
  data w !! uri = None → Wrapper.get uri w = Undefined.
Proof. unfold Wrapper.get, TernarySearchTree.get. by intros ->. Qed.

Lemma get_truthy uri w i :
  Wrapper.get uri w = i → truthy i = true → data w !! uri = Some i.
Proof.
  unfold Wrapper.get, TernarySearchTree.get.
  destruct (data w !! uri) as [j|]; simpl; intros <-; [done | discriminate].
Qed.

Lemma get_set_data uri t w :
  Wrapper.get uri (Wrapper.set_data t w) = default Undefined (t !! uri).
Proof. done. Qed.

Lemma of_deco_not_request d r : of_deco d ≠ Request r.
Proof. by destruct d. Qed.

Lemma is_request_true r i : is_request r i = true ↔ i = Request r.
Proof.
  destruct i as [r'| |]; simpl; [|done..].
  rewrite Nat.eqb_eq. split; congruence.
Qed.

Lemma keepItem_result uri d w : (Wrapper._keepItem uri d w).1.1 = d.
Proof. done. Qed.

Lemma keepItem_wrapper uri d w :
  (Wrapper._keepItem uri d w).1.2 = Wrapper.set_data (<[uri := of_deco d]> (data w)) w.
Proof. done. Qed.

Lemma keepItem_fired uri d w :
  (Wrapper._keepItem uri d w).2 =
  if bool_decide (is_Some d) || truthy (Wrapper.get uri w) then [UriFired uri] else [].
Proof. done. Qed.

Lemma fetchData_unfold uri w :
  Wrapper._fetchData uri w =
  let w2 := Wrapper.called uri (Wrapper.cleared uri w) in
  match provideDecorations (provider w) (calls w) uri with
  | PData d' => Wrapper._keepItem uri (Some d') w2
  | PUndefined => Wrapper._keepItem uri None w2
  | PThenable =>
      (None, Wrapper.set_data (<[uri := Request (length (calls w))]> (data w2)) w2, [])
  end.
Proof.
  unfold Wrapper._fetchData, Wrapper.cleared.
  by destruct (Wrapper.get uri w).
Qed.

Lemma cleared_calls uri w : calls (Wrapper.cleared uri w) = calls w.
Proof. unfold Wrapper.cleared. by destruct (Wrapper.get uri w). Qed.

Lemma cleared_provider uri w : provider (Wrapper.cleared uri w) = provider w.
Proof. unfold Wrapper.cleared. by destruct (Wrapper.get uri w). Qed.

Lemma cleared_subscribed uri w : subscribed (Wrapper.cleared uri w) = subscribed w.
Proof. unfold Wrapper.cleared. by destruct (Wrapper.get uri w). Qed.

Lemma cleared_lookup_ne uri w k :
  k ≠ uri → data (Wrapper.cleared uri w) !! k = data w !! k.
Proof.
  intros Hne. unfold Wrapper.cleared. destruct (Wrapper.get uri w); [|done..].
  simpl. unfold TernarySearchTree.delete. by rewrite lookup_delete_ne.
Qed.

Lemma cleared_get uri w :
  Wrapper.get uri (Wrapper.cleared uri w)
  = match Wrapper.get uri w with Request _ => Undefined | i => i end.
Proof.
  unfold Wrapper.cleared. destruct (Wrapper.get uri w) eqn:Hget; [|done..].
  rewrite get_set_data. unfold TernarySearchTree.delete.
  by rewrite lookup_delete_eq.
Qed.

(** [_fetchData] writes the slot of its resource and no other. *)
Lemma fetchData_lookup_ne uri w k :
  k ≠ uri → data (Wrapper._fetchData uri w).1.2 !! k = data w !! k.
Proof.
  intros Hne. rewrite fetchData_unfold. cbv zeta.
  destruct (provideDecorations _ _ _); simpl;
    rewrite lookup_insert_ne by done; by apply cleared_lookup_ne.
Qed.

Lemma fetchData_calls uri w :
  calls (Wrapper._fetchData uri w).1.2 = calls w ++ [uri].
Proof.
  rewrite fetchData_unfold. cbv zeta.
  destruct (provideDecorations _ _ _); simpl; by rewrite cleared_calls.
Qed.

Lemma fetchData_provider uri w :
  provider (Wrapper._fetchData uri w).1.2 = provider w.
Proof.
  rewrite fetchData_unfold. cbv zeta.
  destruct (provideDecorations _ _ _); simpl; by rewrite cleared_provider.
Qed.

Lemma fetchData_subscribed uri w :
  subscribed (Wrapper._fetchData uri w).1.2 = subscribed w.
Proof.
  rewrite fetchData_unfold. cbv zeta.
  destruct (provideDecorations _ _ _); simpl; by rewrite cleared_subscribed.
Qed.

(** The slot [_fetchData] leaves for its resource. *)
Lemma fetchData_lookup uri w :
  data (Wrapper._fetchData uri w).1.2 !! uri =
  Some match provideDecorations (provider w) (calls w) uri with
       | PData d' => Data d'
       | PUndefined => Undefined
       | PThenable => Request (length (calls w))
       end.
Proof.
  rewrite fetchData_unfold. cbv zeta.
  destruct (provideDecorations _ _ _); simpl; by rewrite lookup_insert_eq.
Qed.

Lemma fetchData_result uri w :
  (Wrapper._fetchData uri w).1.1 =
  match provideDecorations (provider w) (calls w) uri with
  | PData d' => Some d'
  | _ => None
  end.
Proof.
  rewrite fetchData_unfold. cbv zeta. by destruct (provideDecorations _ _ _).
Qed.
End wrapper_facts.

(** ** Store and notify *)

(** C7, as stated, fails: the session of a provider that answers with a
    promise holds a pending request for [a]; when that promise fulfils with
    nothing, [_keepItem] stores the empty value over the pending request,
    neither of which is a present decoration, and still fires a notification
    for [a]. *)
Lemma keepItem_fires_over_pending :
  let w := (Wrapper.getOrRetrieve Scenario.a false (Wrapper.create Scenario.slow)).1.2 in
  Wrapper.get Scenario.a w = Request 0
  ∧ (Wrapper._keepItem Scenario.a None w).2 = [UriFired Scenario.a]
  ∧ Wrapper.fulfilled 0 None w
    = (Wrapper.set_data {[ Scenario.a := Undefined ]} w, [UriFired Scenario.a]).
Proof. vm_compute. done. Qed.

(** C7, amended: [_keepItem] replaces the slot of the resource with the
    decoration or the empty value and hands the decoration back; it fires one
    notification for the resource exactly when the new value is a present
    decoration or the slot held something before, a present decoration or a
    pending request; it fires nothing exactly when it stores the empty value
    over a slot that was empty or absent. *)
Theorem keepItem_store_and_notify
    (uri : URI) (d : option IDecorationData) (w : DecorationProviderWrapper) :
  (Wrapper._keepItem uri d w).1.1 = d
  ∧ data (Wrapper._keepItem uri d w).1.2 = <[uri := of_deco d]> (data w)
  ∧ Wrapper.get uri (Wrapper._keepItem uri d w).1.2 = of_deco d
  ∧ ((Wrapper._keepItem uri d w).2 = [UriFired uri] ↔
       is_Some d ∨ (∃ old, Wrapper.get uri w = Data old) ∨ (∃ r, Wrapper.get uri w = Request r))
  ∧ ((Wrapper._keepItem uri d w).2 = [] ↔ d = None ∧ Wrapper.get uri w = Undefined).
Proof.
  rewrite keepItem_fired, keepItem_wrapper, keepItem_result, get_set_data.
  simpl. rewrite lookup_insert_eq. simpl.
  repeat split; try done.
  - destruct d as [x|]; simpl; [eauto |].
    destruct (Wrapper.get uri w); simpl; [eauto | eauto | done].
  - intros [[x ->] | [[old ->] | [r ->]]]; simpl; [done | |]; by rewrite orb_true_r.
  - destruct d as [x|]; simpl; [done |].
    by destruct (Wrapper.get uri w).
  - destruct d as [x|]; simpl; [done |].
    by destruct (Wrapper.get uri w).
  - by intros [-> ->].
Qed.

(** ** Sessions: what every reachable wrapper satisfies *)

Section session_facts.
Implicit Types (w : DecorationProviderWrapper) (uri k : URI) (r : nat).

Lemma get_fetchData_ne uri w k :
  k ≠ uri → Wrapper.get k (Wrapper._fetchData uri w).1.2 = Wrapper.get k w.
Proof.
  intros Hne. unfold Wrapper.get, TernarySearchTree.get.
  by rewrite fetchData_lookup_ne.
Qed.

Lemma get_fetchData_eq uri w :
  Wrapper.get uri (Wrapper._fetchData uri w).1.2 =
  match provideDecorations (provider w) (calls w) uri with
  | PData d' => Data d'
  | PUndefined => Undefined
  | PThenable => Request (length (calls w))
  end.
Proof. apply get_lookup, fetchData_lookup. Qed.

Lemma get_keepItem_ne uri d w k :
  k ≠ uri → Wrapper.get k (Wrapper._keepItem uri d w).1.2 = Wrapper.get k w.
Proof.
  intros Hne. rewrite keepItem_wrapper, get_set_data.
  by rewrite lookup_insert_ne.
Qed.

Lemma get_keepItem_eq uri d w :
  Wrapper.get uri (Wrapper._keepItem uri d w).1.2 = of_deco d.
Proof. rewrite keepItem_wrapper, get_set_data. by rewrite lookup_insert_eq. Qed.

Lemma get_delete uri w k :
  Wrapper.get k (Wrapper.set_data (TernarySearchTree.delete uri (data w)) w)
  = if decide (k = uri) then Undefined else Wrapper.get k w.
Proof.
  rewrite get_set_data. unfold TernarySearchTree.delete.
  destruct (decide (k = uri)) as [->|Hne].
  - by rewrite lookup_delete_eq.
  - by rewrite lookup_delete_ne.
Qed.

Lemma get_clear uri w k :
  Wrapper.get k (Wrapper.set_data (TernarySearchTree.clear (data w)) w) = Undefined.
Proof. done. Qed.

(** *** Consistency is kept by every method *)

Lemma consistent_create p : Session.consistent (Wrapper.create p).
Proof.
  split.
  - intros uri r Hget. discriminate.
  - intros r Hin. by apply elem_of_nil in Hin.
Qed.

Lemma consistent_keepItem uri d w :
  Session.consistent w → Session.consistent (Wrapper._keepItem uri d w).1.2.
Proof.
  intros [Hslot Hcancel]. split; [|done].
  intros k r. destruct (decide (k = uri)) as [->|Hne].
  - rewrite get_keepItem_eq. intros Hd. by apply of_deco_not_request in Hd.
  - rewrite get_keepItem_ne by done. apply Hslot.
Qed.

Lemma consistent_delete uri w :
  Session.consistent w →
  Session.consistent (Wrapper.set_data (TernarySearchTree.delete uri (data w)) w).
Proof.
  intros [Hslot Hcancel]. split; [|done].
  intros k r. rewrite get_delete. case_decide; [done | apply Hslot].
Qed.

Lemma consistent_clear w :
  Session.consistent w →
  Session.consistent (Wrapper.set_data (TernarySearchTree.clear (data w)) w).
Proof. intros [Hslot Hcancel]. split; [|done]. intros k r Hk. discriminate. Qed.

Lemma consistent_cleared uri w :
  Session.consistent w → Session.consistent (Wrapper.cleared uri w).
Proof.
  intros [Hslot Hcancel]. unfold Wrapper.cleared.
  destruct (Wrapper.get uri w) as [r| |] eqn:Hget; [|done..].
  destruct (Hslot _ _ Hget) as [Hcall Hfresh]. split.
  - intros k r'. rewrite get_set_data. unfold TernarySearchTree.delete. simpl.
    destruct (decide (k = uri)) as [->|Hne].
    + by rewrite lookup_delete_eq.
    + rewrite lookup_delete_ne by done. intros Hk.
      destruct (Hslot k r' Hk) as [Hcall' Hfresh']. split; [done |].
      rewrite elem_of_app, list_elem_of_singleton. intros [Hin | ->]; [done |].
      congruence.
  - simpl. intros r'. rewrite elem_of_app, list_elem_of_singleton.
    intros [Hin | ->]; [by apply Hcancel |].
    by apply lookup_lt_Some in Hcall.
Qed.

Lemma consistent_fetchData uri w :
  Session.consistent w → Session.consistent (Wrapper._fetchData uri w).1.2.
Proof.
  intros Hw. pose proof (consistent_cleared uri _ Hw) as [Hslot Hcancel].
  split.
  - intros k r. rewrite fetchData_calls.
    destruct (decide (k = uri)) as [->|Hne].
    + rewrite get_fetchData_eq.
      destruct (provideDecorations _ _ _); try done.
      intros [= <-]. split; [apply list_lookup_middle; done |].
      rewrite fetchData_unfold. cbv zeta.
      destruct (provideDecorations _ _ _); simpl;
        intros Hin%Hcancel; rewrite cleared_calls in Hin; lia.
    + rewrite get_fetchData_ne by done. intros Hk.
      assert (Wrapper.get k (Wrapper.cleared uri w) = Request r) as Hk'.
      { unfold Wrapper.get, TernarySearchTree.get.
        rewrite cleared_lookup_ne by done. apply Hk. }
      destruct (Hslot _ _ Hk') as [Hcall Hfresh].
      rewrite cleared_calls in Hcall. split.
      * by apply lookup_app_l_Some.
      * rewrite fetchData_unfold. cbv zeta.
        by destruct (provideDecorations _ _ _).
  - intros r. rewrite fetchData_calls, length_app. simpl.
    rewrite fetchData_unfold. cbv zeta.
    destruct (provideDecorations _ _ _); simpl;
      intros Hin%Hcancel; rewrite cleared_calls in Hin; lia.
Qed.

Lemma consistent_fulfilled r d w :
  Session.consistent w → Session.consistent (Wrapper.fulfilled r d w).1.
Proof.
  intros Hw. unfold Wrapper.fulfilled.
  destruct (calls w !! r) as [uri|]; [|done].
  destruct (is_request r (Wrapper.get uri w)); [|done].
  by apply (consistent_keepItem uri d).
Qed.

Lemma consistent_rejected r err w :
  Session.consistent w → Session.consistent (Wrapper.rejected r err w).
Proof.
  intros Hw. unfold Wrapper.rejected.
  destruct (calls w !! r) as [uri|]; [|done].
  destruct (negb (isCanceled err) && is_request r (Wrapper.get uri w)); [|done].
  by apply consistent_delete.
Qed.

Lemma consistent_onDidChange uris w :
  Session.consistent w → Session.consistent (Wrapper.onDidChange uris w).1.
Proof.
  intros Hw. destruct uris as [uris|]; simpl; [|by apply consistent_clear].
  generalize (@nil emitted). revert w Hw.
  induction uris as [|uri uris IH]; intros w Hw ev; simpl; [done |].
  pose proof (consistent_fetchData uri w Hw) as Hw'.
  destruct (Wrapper._fetchData uri w) as [[deco w'] ev']. by apply IH.
Qed.

Lemma consistent_getOrRetrieve uri includeChildren w :
  Session.consistent w →
  Session.consistent (Wrapper.getOrRetrieve uri includeChildren w).1.2.
Proof.
  intros Hw. unfold Wrapper.getOrRetrieve.
  pose proof (consistent_fetchData uri w Hw) as Hw'.
  destruct (Wrapper.get uri w); [done | done |].
  by destruct (Wrapper._fetchData uri w) as [[deco w'] ev'].
Qed.

Lemma consistent_dispose w :
  Session.consistent w → Session.consistent (Wrapper.dispose w).
Proof. intros [Hslot Hcancel]. split; [|done]. intros k r Hk. discriminate. Qed.

Lemma consistent_step w e :
  Session.consistent w → Session.consistent (Session.step w e).
Proof.
  intros Hw. destruct e; simpl.
  - by apply consistent_getOrRetrieve.
  - destruct (subscribed w); [by apply consistent_onDidChange | done].
  - by apply consistent_fulfilled.
  - by apply consistent_rejected.
  - by apply consistent_dispose.
Qed.

Lemma consistent_run es w :
  Session.consistent w → Session.consistent (Session.run es w).
Proof.
  revert w. induction es as [|e es IH]; intros w Hw; simpl; [done |].
  by apply IH, consistent_step.
Qed.

Lemma reachable_consistent w : Session.reachable w → Session.consistent w.
Proof. intros (p & es & ->). apply consistent_run, consistent_create. Qed.

Lemma reachable_run es w : Session.reachable w → Session.reachable (Session.run es w).
Proof.
  intros (p & es0 & ->). exists p, (es0 ++ es).
  unfold Session.run. by rewrite foldl_app.
Qed.
End session_facts.

(** ** Superseded and cancelled requests *)

Section stale_facts.
Implicit Types (w : DecorationProviderWrapper) (uri k : URI) (r : nat).

Lemma stale_keepItem r uri d w :
  Session.stale r w → Session.stale r (Wrapper._keepItem uri d w).1.2.
Proof.
  intros [Hlt Hno]. split; [done |].
  intros k. destruct (decide (k = uri)) as [->|Hne].
  - rewrite get_keepItem_eq. apply of_deco_not_request.
  - rewrite get_keepItem_ne by done. apply Hno.
Qed.

Lemma stale_delete r uri w :
  Session.stale r w →
  Session.stale r (Wrapper.set_data (TernarySearchTree.delete uri (data w)) w).
Proof.
  intros [Hlt Hno]. split; [done |].
  intros k. rewrite get_delete. case_decide; [done | apply Hno].
Qed.

Lemma stale_fetchData r uri w :
  Session.stale r w → Session.stale r (Wrapper._fetchData uri w).1.2.
Proof.
  intros [Hlt Hno]. split.
  - rewrite fetchData_calls, length_app. lia.
  - intros k. destruct (decide (k = uri)) as [->|Hne].
    + rewrite get_fetchData_eq.
      destruct (provideDecorations _ _ _); try done.
      intros [= Heq]. lia.
    + rewrite get_fetchData_ne by done. apply Hno.
Qed.

Lemma stale_fulfilled r r' d w :
  Session.stale r w → Session.stale r (Wrapper.fulfilled r' d w).1.
Proof.
  intros Hw. unfold Wrapper.fulfilled.
  destruct (calls w !! r') as [uri|]; [|done].
  destruct (is_request r' (Wrapper.get uri w)); [|done].
  by apply (stale_keepItem r uri d).
Qed.

Lemma stale_rejected r r' err w :
  Session.stale r w → Session.stale r (Wrapper.rejected r' err w).
Proof.
  intros Hw. unfold Wrapper.rejected.
  destruct (calls w !! r') as [uri|]; [|done].
  destruct (negb (isCanceled err) && is_request r' (Wrapper.get uri w)); [|done].
  by apply stale_delete.
Qed.

Lemma stale_onDidChange r uris w :
  Session.stale r w → Session.stale r (Wrapper.onDidChange uris w).1.
Proof.
  intros Hw. destruct uris as [uris|]; simpl.
  - generalize (@nil emitted). revert w Hw.
    induction uris as [|uri uris IH]; intros w Hw ev; simpl; [done |].
    pose proof (stale_fetchData r uri w Hw) as Hw'.
    destruct (Wrapper._fetchData uri w) as [[deco w'] ev']. by apply IH.
  - destruct Hw as [Hlt Hno]. split; [done |]. intros k Hk. discriminate.
Qed.

Lemma stale_getOrRetrieve r uri includeChildren w :
  Session.stale r w → Session.stale r (Wrapper.getOrRetrieve uri includeChildren w).1.2.
Proof.
  intros Hw. unfold Wrapper.getOrRetrieve.
  pose proof (stale_fetchData r uri w Hw) as Hw'.
  destruct (Wrapper.get uri w); [done | done |].
  by destruct (Wrapper._fetchData uri w) as [[deco w'] ev'].
Qed.

Lemma stale_step r w e : Session.stale r w → Session.stale r (Session.step w e).
Proof.
  intros Hw. destruct e; simpl.
  - by apply stale_getOrRetrieve.
  - destruct (subscribed w); [by apply stale_onDidChange | done].
  - by apply stale_fulfilled.
  - by apply stale_rejected.
  - destruct Hw as [Hlt Hno]. split; [done |]. intros k Hk. discriminate.
Qed.

Lemma stale_run r es w : Session.stale r w → Session.stale r (Session.run es w).
Proof.
  revert w. induction es as [|e es IH]; intros w Hw; simpl; [done |].
  by apply IH, stale_step.
Qed.

(** The result of a stale request is dropped: nothing stored, nothing
    fired. *)
Lemma stale_result_dropped r d w :
  Session.stale r w → Wrapper.fulfilled r d w = (w, []).
Proof.
  intros [Hlt Hno]. unfold Wrapper.fulfilled.
  destruct (calls w !! r) as [uri|]; [|done].
  destruct (is_request r (Wrapper.get uri w)) eqn:Hreq; [|done].
  apply is_request_true in Hreq. by apply Hno in Hreq.
Qed.

Lemma stored_only_if_pending r d w :
  Wrapper.fulfilled r d w ≠ (w, []) → Session.pending r w.
Proof.
  unfold Wrapper.fulfilled, Session.pending.
  destruct (calls w !! r) as [uri|]; [|done].
  destruct (is_request r (Wrapper.get uri w)) eqn:Hreq; [|done].
  apply is_request_true in Hreq. eauto.
Qed.

Lemma cancelled_stale r w :
  Session.consistent w → r ∈ cancelled w → Session.stale r w.
Proof.
  intros [Hslot Hcancel] Hin. split; [by apply Hcancel |].
  intros k Hk. by destruct (Hslot _ _ Hk).
Qed.

Lemma superseded_stale r uri w :
  Session.consistent w → Wrapper.get uri w = Request r →
  Session.stale r (Wrapper._fetchData uri w).1.2.
Proof.
  intros Hw Hget. apply cancelled_stale; [by apply consistent_fetchData |].
  rewrite fetchData_unfold. cbv zeta.
  assert (r ∈ cancelled (Wrapper.cleared uri w)) as Hin.
  { unfold Wrapper.cleared. rewrite Hget. simpl. apply elem_of_app. right. left. }
  by destruct (provideDecorations _ _ _).
Qed.

(** In a consistent session a request sits in the slot of the resource it
    was made for and in no other: of all the slots of the cache at most one
    holds a request made for a given resource. *)
Lemma pending_slot_unique k1 k2 r1 r2 uri w :
  Session.consistent w →
  Wrapper.get k1 w = Request r1 → Wrapper.get k2 w = Request r2 →
  calls w !! r1 = Some uri → calls w !! r2 = Some uri →
  k1 = uri ∧ k2 = uri ∧ r1 = r2.
Proof.
  intros [Hslot _] Hg1 Hg2 Hc1 Hc2.
  destruct (Hslot _ _ Hg1) as [Hc1' _]. destruct (Hslot _ _ Hg2) as [Hc2' _].
  assert (k1 = uri) as Hk1 by congruence.
  assert (k2 = uri) as Hk2 by congruence.
  split; [done |]. split; [done |]. congruence.
Qed.

(** The head of [_fetchData] on a pending slot: the token is cancelled and
    the slot is gone before the provider is called. *)
Lemma cleared_pending uri r w :
  Wrapper.get uri w = Request r →
  data (Wrapper.cleared uri w) !! uri = None
  ∧ cancelled (Wrapper.cleared uri w) = cancelled w ++ [r]
  ∧ Wrapper._fetchData uri w = Wrapper._fetchData uri (Wrapper.cleared uri w).
Proof.
  intros Hget.
  assert (data (Wrapper.cleared uri w) !! uri = None) as Hnone.
  { unfold Wrapper.cleared. rewrite Hget. simpl.
    unfold TernarySearchTree.delete. apply lookup_delete_eq. }
  split; [done |]. split.
  - unfold Wrapper.cleared. by rewrite Hget.
  - unfold Wrapper._fetchData at 2.
    assert (Wrapper.cleared uri (Wrapper.cleared uri w) = Wrapper.cleared uri w) as ->; [|done].
    unfold Wrapper.cleared at 1. by rewrite (get_absent _ _ Hnone).
Qed.

(** What a fetch over a pending slot fires: the slot is empty when the
    answer is stored, so only a decoration answered at once is announced. *)
Lemma fetchData_fired_over_pending uri r w :
  Wrapper.get uri w = Request r →
  (Wrapper._fetchData uri w).2
  = match provideDecorations (provider w) (calls w) uri with
    | PData _ => [UriFired uri]
    | _ => []
    end.
Proof.
  intros Hget. rewrite fetchData_unfold. cbv zeta.
  destruct (provideDecorations _ _ _); [done | | done].
  rewrite keepItem_fired.
  assert (Wrapper.get uri (Wrapper.called uri (Wrapper.cleared uri w)) = Undefined) as ->; [|done].
  change (Wrapper.get uri (Wrapper.cleared uri w) = Undefined).
  by rewrite cleared_get, Hget.
Qed.
End stale_facts.

(** C1: in a session reached in any way, let the slot of [uri] hold the
    pending request [r], and let a new fetch for [uri] start.  Then the token
    of [r] is cancelled by that fetch and not before; the old slot is removed
    before the provider is called and the new slot installed: the fetch goes
    on from a cache without a slot for [uri], so that an empty answer given
    at once finds nothing to replace and fires no event; the slot of [uri]
    then holds what the new fetch installs, the new request (another object
    than [r]) when the provider answers with a promise, the result when it
    answers at once; whatever happens afterwards, a result arriving for [r]
    is not stored and fires nothing, and the same holds of every request
    whose token was cancelled; a result is stored only for a request that is
    the slot of its resource at that moment; and of all the slots of the
    cache at most one holds a request made for a given resource, the slot of
    that resource, and the token of that request is not cancelled. *)
Theorem superseded_fetch_is_never_stored
    (w : DecorationProviderWrapper) (uri : URI) (r : nat)
    (es : list Session.event) (d : option IDecorationData) :
  Session.reachable w →
  Wrapper.get uri w = Request r →
  let w0 := Wrapper.cleared uri w in
  let w1 := (Wrapper._fetchData uri w).1.2 in
  let w2 := Session.run es w1 in
  ((r ∉ cancelled w) ∧ r ∈ cancelled w1)
  ∧ (data w0 !! uri = None ∧ cancelled w0 = cancelled w ++ [r]
     ∧ Wrapper._fetchData uri w = Wrapper._fetchData uri w0)
  ∧ (Wrapper._fetchData uri w).2
    = match provideDecorations (provider w) (calls w) uri with
      | PData _ => [UriFired uri]
      | _ => []
      end
  ∧ Wrapper.get uri w1 =
      match provideDecorations (provider w) (calls w) uri with
      | PData x => Data x
      | PUndefined => Undefined
      | PThenable => Request (length (calls w))
      end
  ∧ r ≠ length (calls w)
  ∧ Wrapper.fulfilled r d w2 = (w2, [])
  ∧ (∀ r' d', r' ∈ cancelled w2 → Wrapper.fulfilled r' d' w2 = (w2, []))
  ∧ (∀ r' d', Wrapper.fulfilled r' d' w2 ≠ (w2, []) → Session.pending r' w2)
  ∧ (∀ k1 k2 r1 r2 k,
       Wrapper.get k1 w2 = Request r1 → Wrapper.get k2 w2 = Request r2 →
       calls w2 !! r1 = Some k → calls w2 !! r2 = Some k →
       k1 = k ∧ k2 = k ∧ r1 = r2 ∧ r1 ∉ cancelled w2).
Proof.
  intros Hreach Hget w0 w1 w2.
  pose proof (reachable_consistent w Hreach) as Hw.
  assert (Session.stale r w1) as Hstale by by apply superseded_stale.
  assert (Session.consistent w2) as Hw2.
  { by apply consistent_run, consistent_fetchData. }
  destruct Hw as [Hslot Hcancel]. destruct (Hslot _ _ Hget) as [Hcall Hfresh].
  split; [split; [done |] |].
  { subst w1. rewrite fetchData_unfold. cbv zeta.
    assert (r ∈ cancelled (Wrapper.cleared uri w)) as Hin.
    { unfold Wrapper.cleared. rewrite Hget. simpl. apply elem_of_app. right. left. }
    by destruct (provideDecorations _ _ _). }
  split; [by apply cleared_pending |].
  split; [by apply (fetchData_fired_over_pending uri r) |].
  split; [apply get_fetchData_eq |].
  split; [apply lookup_lt_Some in Hcall; lia |].
  split; [by apply stale_result_dropped, stale_run |].
  split; [|split].
  - intros r' d' Hin. by apply stale_result_dropped, cancelled_stale.
  - intros r' d'. apply stored_only_if_pending.
  - intros k1 k2 r1 r2 k Hg1 Hg2 Hc1 Hc2.
    destruct (pending_slot_unique k1 k2 r1 r2 k w2 Hw2 Hg1 Hg2 Hc1 Hc2) as (-> & -> & ->).
    do 3 (split; [done |]). destruct Hw2 as [Hslot2 _]. by destruct (Hslot2 _ _ Hg2).
Qed.

(** The scenario of the spec: a slow fetch for [a] is superseded by a second
    one; the first result, [X], arrives last and is dropped, [Y] stays. *)
Lemma superseded_fetch_witness :
  let w := Session.run [Session.Query Scenario.a false] (Wrapper.create Scenario.slow) in
  let w1 := (Wrapper._fetchData Scenario.a w).1.2 in
  let w2 := Session.run [Session.Fulfilled 1 (Some Scenario.Y)] w1 in
  Wrapper.get Scenario.a w = Request 0
  ∧ cancelled w = [] ∧ cancelled w1 = [0]
  ∧ Wrapper.get Scenario.a w1 = Request 1
  ∧ Wrapper.get Scenario.a w2 = Data Scenario.Y
  ∧ Wrapper.fulfilled 0 (Some Scenario.X) w2 = (w2, []).
Proof.
  pose proof (superseded_fetch_is_never_stored
                (Session.run [Session.Query Scenario.a false] (Wrapper.create Scenario.slow))
                Scenario.a 0 [Session.Fulfilled 1 (Some Scenario.Y)] (Some Scenario.X)
                (ex_intro _ Scenario.slow (ex_intro _ _ eq_refl)) eq_refl)
    as (_ & _ & _ & _ & _ & Hdropped & _).
  cbv zeta. do 5 (split; [vm_compute; reflexivity |]). exact Hdropped.
Defined.

(** ** The service: emitters, the array of wrappers, the query loop *)

Section service_facts.
Implicit Types (s : DecorationsServiceImpl) (w : DecorationProviderWrapper).
Implicit Types (uri : URI) (a : nat) (ev : list emitted).

Lemma fire_all_cons e ev s :
  Service.fire_all (e :: ev) s = Service.fire_all ev (Service.fire e s).
Proof. done. Qed.

Lemma fire_all_heap ev s : heap (Service.fire_all ev s) = heap s.
Proof.
  revert s. induction ev as [|e ev IH]; intros s; [done |].
  rewrite fire_all_cons, IH. by destruct e.
Qed.

Lemma fire_all__data ev s : _data (Service.fire_all ev s) = _data s.
Proof.
  revert s. induction ev as [|e ev IH]; intros s; [done |].
  rewrite fire_all_cons, IH. by destruct e.
Qed.

(** What reaches the public emitter: the flush events, nothing else. *)
Lemma fire_all_public ev s :
  onDidChangeDecorationsEmitter (Service.fire_all ev s)
  = onDidChangeDecorationsEmitter s
    ++ omap (λ e, match e with FlushFired => Some AffectsAll | UriFired _ => None end) ev.
Proof.
  revert s. induction ev as [|e ev IH]; intros s; [by rewrite app_nil_r |].
  rewrite fire_all_cons, IH.
  destruct e; simpl; [done | by rewrite <- app_assoc].
Qed.

Lemma fire_all_delayed ev s :
  _onDidChangeDecorationsDelayed (Service.fire_all ev s)
  = _onDidChangeDecorationsDelayed s
    ++ omap (λ e, match e with UriFired uri => Some uri | FlushFired => None end) ev.
Proof.
  revert s. induction ev as [|e ev IH]; intros s; [by rewrite app_nil_r |].
  rewrite fire_all_cons, IH.
  destruct e; simpl; [by rewrite <- app_assoc | done].
Qed.

Lemma on_wrapper__data a f s : _data (Service.on_wrapper a f s) = _data s.
Proof.
  unfold Service.on_wrapper. destruct (heap s !! a) as [w|]; [|done].
  destruct (f w) as [w' ev]. by rewrite fire_all__data.
Qed.

Lemma on_wrapper_heap a f s :
  heap (Service.on_wrapper a f s)
  = match heap s !! a with
    | Some w => <[a := (f w).1]> (heap s)
    | None => heap s
    end.
Proof.
  unfold Service.on_wrapper. destruct (heap s !! a) as [w|]; [|done].
  destruct (f w) as [w' ev]. by rewrite fire_all_heap.
Qed.

Lemma on_wrapper_length a f s :
  length (heap (Service.on_wrapper a f s)) = length (heap s).
Proof.
  rewrite on_wrapper_heap. destruct (heap s !! a); [|done].
  by rewrite length_insert.
Qed.

(** *** [splice] takes elements out and lets the others stand *)

Lemma splice1_sublist start (l : list nat) : Service.splice1 start l `sublist_of` l.
Proof.
  unfold Service.splice1. set (from := Z.to_nat _).
  rewrite <- (take_drop from l) at 3.
  apply sublist_app; [done |].
  replace (S from) with (from + 1) by lia.
  rewrite <- (drop_drop l 1 from). apply sublist_drop.
Qed.

Lemma indexOf_absent (l : list nat) a : a ∉ l → Service.indexOf l a = (-1)%Z.
Proof.
  induction l as [|b l IH]; simpl; [done |].
  rewrite not_elem_of_cons. intros [Hne Hnin].
  destruct (Nat.eqb_spec b a) as [->|_]; [done |].
  by rewrite IH.
Qed.

Lemma indexOf_present (l : list nat) a :
  a ∈ l → ∃ i, Service.indexOf l a = Z.of_nat i ∧ l !! i = Some a
               ∧ ∀ j, j < i → l !! j ≠ Some a.
Proof.
  induction l as [|b l IH]; [by intros ?%elem_of_nil |].
  intros Hin. simpl. destruct (Nat.eqb_spec b a) as [->|Hne].
  - exists 0. split; [done |]. split; [done |]. intros j Hj. lia.
  - apply elem_of_cons in Hin as [->|Hin]; [done |].
    destruct (IH Hin) as (i & -> & Hi & Hfirst). exists (S i).
    destruct (Z.ltb_spec (Z.of_nat i) 0); [lia |].
    split; [lia |]. split; [done |].
    intros [|j] Hj; simpl; [congruence | apply Hfirst; lia].
Qed.

(** [splice(-1, 1)] removes the last element. *)
Lemma splice1_minus_one (l : list nat) :
  Service.splice1 (-1) l = take (length l - 1) l.
Proof.
  unfold Service.splice1. simpl.
  destruct l as [|b l]; [done |].
  replace (Z.to_nat _) with (length l) by (simpl; lia).
  replace (length (b :: l) - 1) with (length l) by (simpl; lia).
  rewrite (drop_ge (b :: l)) by (simpl; lia). by rewrite app_nil_r.
Qed.

Lemma splice1_at (l : list nat) i :
  Service.splice1 (Z.of_nat i) l = take i l ++ drop (S i) l.
Proof.
  unfold Service.splice1.
  destruct (Z.ltb_spec (Z.of_nat i) 0); [lia |].
  destruct (decide (i ≤ length l)) as [Hle|Hgt].
  - by replace (Z.to_nat _) with i by lia.
  - replace (Z.to_nat _) with (length l) by lia.
    rewrite !take_ge, !drop_ge by lia. done.
Qed.

(** *** Well-formedness is kept by every action *)

Lemma well_formed_create : Service.well_formed Service.create.
Proof. split; [constructor | by intros a ?%elem_of_nil]. Qed.

Lemma well_formed_on_wrapper a f s :
  Service.well_formed s → Service.well_formed (Service.on_wrapper a f s).
Proof.
  intros [Hnd Hlt]. split.
  - by rewrite on_wrapper__data.
  - intros b. rewrite on_wrapper__data, on_wrapper_length. apply Hlt.
Qed.

Lemma well_formed_register p s :
  Service.well_formed s → Service.well_formed (Service.registerDecorationsProvider p s).2.
Proof.
  intros [Hnd Hlt]. split; simpl.
  - apply NoDup_app. repeat split; [done | | apply NoDup_singleton].
    intros b Hb ->%list_elem_of_singleton. apply Hlt in Hb. lia.
  - intros b. rewrite length_app, elem_of_app, list_elem_of_singleton. simpl.
    intros [Hb%Hlt | ->]; lia.
Qed.

Lemma well_formed_dispose a s :
  Service.well_formed s → Service.well_formed (Service.dispose_registration a s).
Proof.
  intros [Hnd Hlt]. apply well_formed_on_wrapper.
  pose proof (splice1_sublist (Service.indexOf (_data s) a) (_data s)) as Hsub.
  split; simpl.
  - by apply (sublist_NoDup _ _ Hnd Hsub).
  - intros b Hb. apply Hlt. by apply (elem_of_sublist _ _ _ Hb Hsub).
Qed.
End service_facts.

Section query_facts.
Implicit Types (s : DecorationsServiceImpl) (w : DecorationProviderWrapper).
Implicit Types (uri : URI) (a : nat) (includeChildren : bool).

Lemma getOrRetrieve_wrapper uri includeChildren w :
  (Wrapper.getOrRetrieve uri includeChildren w).1.2
  = match Wrapper.get uri w with
    | Undefined => (Wrapper._fetchData uri w).1.2
    | _ => w
    end.
Proof.
  unfold Wrapper.getOrRetrieve.
  destruct (Wrapper.get uri w); [done | done |].
  by destruct (Wrapper._fetchData uri w) as [[deco w'] ev'].
Qed.

Lemma getOrRetrieve_fired uri includeChildren w :
  (Wrapper.getOrRetrieve uri includeChildren w).2
  = match Wrapper.get uri w with
    | Undefined => (Wrapper._fetchData uri w).2
    | _ => []
    end.
Proof.
  unfold Wrapper.getOrRetrieve.
  destruct (Wrapper.get uri w); [done | done |].
  by destruct (Wrapper._fetchData uri w) as [[deco w'] ev'].
Qed.

(** The callbacks: the resource itself first, then what is resolved
    below it. *)
Lemma getOrRetrieve_callbacks uri includeChildren w :
  (Wrapper.getOrRetrieve uri includeChildren w).1.1
  = match Wrapper.get uri (Wrapper.getOrRetrieve uri includeChildren w).1.2 with
    | Data d => [(d, false)]
    | _ => []
    end
    ++ (if includeChildren
        then match TernarySearchTree.findSuperstr uri
                     (data (Wrapper.getOrRetrieve uri includeChildren w).1.2) with
             | Some values => (λ d, (d, true)) <$> Wrapper.resolved_of values
             | None => []
             end
        else []).
Proof.
  rewrite getOrRetrieve_wrapper. unfold Wrapper.getOrRetrieve.
  destruct (Wrapper.get uri w) as [r|d|] eqn:Hget; simpl; rewrite ?Hget; [done | done |].
  rewrite get_fetchData_eq.
  pose proof (fetchData_result uri w) as Hres.
  destruct (Wrapper._fetchData uri w) as [[deco w'] ev']. simpl in *. subst deco.
  by destruct (provideDecorations _ _ _).
Qed.

Lemma fetchData_fired uri w :
  (Wrapper._fetchData uri w).2 = [UriFired uri] ∨ (Wrapper._fetchData uri w).2 = [].
Proof.
  rewrite fetchData_unfold. cbv zeta.
  destruct (provideDecorations _ _ _); rewrite ?keepItem_fired;
    try match goal with |- context [if ?b then _ else _] => destruct b end; auto.
Qed.

(** A query fires no flush event. *)
Lemma getOrRetrieve_no_flush uri includeChildren w :
  omap (λ e, match e with FlushFired => Some AffectsAll | UriFired _ => None end)
       (Wrapper.getOrRetrieve uri includeChildren w).2 = [].
Proof.
  rewrite getOrRetrieve_fired.
  destruct (Wrapper.get uri w); [done | done |].
  by destruct (fetchData_fired uri w) as [-> | ->].
Qed.

(** What lies strictly below the resource is not touched by a query. *)
Lemma getOrRetrieve_lookup_ne uri includeChildren w k :
  k ≠ uri → data (Wrapper.getOrRetrieve uri includeChildren w).1.2 !! k = data w !! k.
Proof.
  intros Hne. rewrite getOrRetrieve_wrapper.
  destruct (Wrapper.get uri w); [done | done |].
  by apply fetchData_lookup_ne.
Qed.

Lemma getOrRetrieve_calls uri includeChildren w :
  calls (Wrapper.getOrRetrieve uri includeChildren w).1.2
  = match Wrapper.get uri w with
    | Undefined => calls w ++ [uri]
    | _ => calls w
    end.
Proof.
  rewrite getOrRetrieve_wrapper.
  destruct (Wrapper.get uri w); [done | done |].
  apply fetchData_calls.
Qed.

(** The loop of [getDecoration] over wrappers that occur once: each one is
    asked once, in order, and what it contributes is appended. *)
Lemma getDecoration_loop_spec uri includeChildren (wrappers : list nat) :
  ∀ acc s,
    NoDup wrappers →
    let out := Service.getDecoration_loop wrappers uri includeChildren acc s in
    out.1 = acc ++ (wrappers ≫= λ a,
              from_option (Service.contribution uri includeChildren) [] (heap s !! a))
    ∧ (∀ a, heap out.2 !! a =
            if decide (a ∈ wrappers)
            then (λ w, (Wrapper.getOrRetrieve uri includeChildren w).1.2) <$> heap s !! a
            else heap s !! a)
    ∧ _data out.2 = _data s
    ∧ onDidChangeDecorationsEmitter out.2 = onDidChangeDecorationsEmitter s.
Proof.
  induction wrappers as [|a wrappers IH]; intros acc s Hnd; cbv zeta.
  { simpl. rewrite app_nil_r. repeat split. }
  apply NoDup_cons in Hnd as [Hfresh Hnd]. simpl.
  destruct (heap s !! a) as [w|] eqn:Ha.
  - pose proof (getOrRetrieve_no_flush uri includeChildren w) as Hflush.
    destruct (Wrapper.getOrRetrieve uri includeChildren w) as [[cbs w'] ev] eqn:Hcall.
    simpl in Hflush. simpl.
    set (s' := Service.fire_all ev _).
    assert (heap s' = <[a := w']> (heap s)) as Hheap by apply fire_all_heap.
    destruct (IH (acc ++ (filter (λ cb, Service.pushed cb = true) cbs).*1) s' Hnd)
      as (Hout & Hh & Hd & Hp).
    split; [|split; [|split]].
    + rewrite Hout, <- app_assoc. f_equal.
      unfold Service.contribution at 2. rewrite Hcall. simpl.
      f_equal. apply (Forall_bind_ext _ _ wrappers), Forall_forall. intros b Hb.
      rewrite Hheap, list_lookup_insert_ne; [done |]. by intros ->.
    + intros b. rewrite Hh, Hheap.
      destruct (decide (b = a)) as [->|Hne].
      * rewrite decide_False by done. rewrite decide_True by left.
        rewrite list_lookup_insert_eq by (by apply lookup_lt_Some in Ha).
        rewrite Ha. simpl. by rewrite Hcall.
      * rewrite list_lookup_insert_ne by done.
        destruct (decide (b ∈ wrappers)) as [Hin|Hnin].
        -- by rewrite decide_True by (by right).
        -- rewrite decide_False; [done |].
           rewrite not_elem_of_cons. done.
    + rewrite Hd. subst s'. by rewrite fire_all__data.
    + rewrite Hp. subst s'. rewrite fire_all_public, Hflush. by rewrite app_nil_r.
  - destruct (IH acc s Hnd) as (Hout & Hh & Hd & Hp).
    split; [|split; [|split]]; [done | | done | done].
    intros b. rewrite Hh.
    destruct (decide (b = a)) as [->|Hne].
    + rewrite decide_False by done. rewrite decide_True by left. by rewrite Ha.
    + destruct (decide (b ∈ wrappers)) as [Hin|Hnin].
      * by rewrite decide_True by (by right).
      * rewrite decide_False; [done |]. rewrite not_elem_of_cons. done.
Qed.

Lemma getDecoration_length uri includeChildren (wrappers : list nat) :
  ∀ acc s,
    length (heap (Service.getDecoration_loop wrappers uri includeChildren acc s).2)
    = length (heap s).
Proof.
  induction wrappers as [|a wrappers IH]; intros acc s; simpl; [done |].
  destruct (heap s !! a) as [w|] eqn:Ha; [|apply IH].
  destruct (Wrapper.getOrRetrieve uri includeChildren w) as [[cbs w'] ev].
  rewrite IH, fire_all_heap. simpl. by rewrite length_insert.
Qed.

Lemma getDecoration__data uri includeChildren (wrappers : list nat) :
  ∀ acc s,
    _data (Service.getDecoration_loop wrappers uri includeChildren acc s).2 = _data s.
Proof.
  induction wrappers as [|a wrappers IH]; intros acc s; simpl; [done |].
  destruct (heap s !! a) as [w|] eqn:Ha; [|apply IH].
  destruct (Wrapper.getOrRetrieve uri includeChildren w) as [[cbs w'] ev].
  by rewrite IH, fire_all__data.
Qed.

Lemma well_formed_step s x :
  Service.well_formed s → Service.well_formed (Service.step s x).
Proof.
  intros Hs. destruct x; simpl.
  - by apply well_formed_register.
  - case_bool_decide; [by apply well_formed_dispose | done].
  - destruct Hs as [Hnd Hlt]. unfold Service.getDecoration. split.
    + by rewrite getDecoration__data.
    + intros b. rewrite getDecoration__data, getDecoration_length. apply Hlt.
  - by apply well_formed_on_wrapper.
  - by apply well_formed_on_wrapper.
  - by apply well_formed_on_wrapper.
Qed.

Lemma reachable_well_formed s : Service.reachable s → Service.well_formed s.
Proof.
  intros (xs & ->). unfold Service.run.
  generalize well_formed_create. generalize Service.create.
  induction xs as [|x xs IH]; intros s Hs; simpl; [done |].
  by apply IH, well_formed_step.
Qed.
End query_facts.

(** ** Bubbling *)

Section bubbling.
Implicit Types (s : DecorationsServiceImpl) (w : DecorationProviderWrapper).
Implicit Types (uri k : URI) (a : nat) (includeChildren : bool) (d : IDecorationData).

Lemma elem_of_resolved_of d (values : list item) :
  d ∈ Wrapper.resolved_of values ↔ Data d ∈ values.
Proof.
  unfold Wrapper.resolved_of. rewrite list_elem_of_omap. split.
  - intros ([r|x|] & Hin & Heq); try done. by injection Heq as ->.
  - intros Hin. by exists (Data d).
Qed.

(** The [isChild] callbacks of a query: resolved decorations strictly below
    the resource, and only when children are asked for. *)
Lemma child_callback uri includeChildren w d :
  (d, true) ∈ (Wrapper.getOrRetrieve uri includeChildren w).1.1 ↔
  includeChildren = true ∧ ∃ k, isSuperstr uri k = true ∧ data w !! k = Some (Data d).
Proof.
  rewrite getOrRetrieve_callbacks, elem_of_app.
  set (w' := (Wrapper.getOrRetrieve uri includeChildren w).1.2).
  assert (∀ k, isSuperstr uri k = true → data w' !! k = data w !! k) as Hbelow.
  { intros k Hk. apply getOrRetrieve_lookup_ne. by apply isSuperstr_ne. }
  split.
  - intros [Hown | Hchild].
    { destruct (Wrapper.get uri w'); [by apply elem_of_nil in Hown | | by apply elem_of_nil in Hown].
      apply list_elem_of_singleton in Hown. congruence. }
    destruct includeChildren; [|by apply elem_of_nil in Hchild].
    split; [done |].
    destruct (TernarySearchTree.findSuperstr uri (data w')) as [values|] eqn:Hfind;
      [|by apply elem_of_nil in Hchild].
    apply list_elem_of_fmap in Hchild as (d' & [= <-] & Hin).
    apply elem_of_resolved_of in Hin.
    apply (findSuperstr_elem _ _ _ _ Hfind) in Hin as (k & Hk & Hlook).
    exists k. by rewrite <- Hbelow.
  - intros [-> (k & Hk & Hlook)]. right.
    destruct (TernarySearchTree.findSuperstr uri (data w')) as [values|] eqn:Hfind.
    + apply list_elem_of_fmap. exists d. split; [done |].
      apply elem_of_resolved_of, (findSuperstr_elem _ _ _ _ Hfind).
      exists k. by rewrite Hbelow.
    + pose proof (proj1 (findSuperstr_None _ _) Hfind k Hk) as Hnone.
      rewrite Hbelow in Hnone by done. congruence.
Qed.

Lemma own_callback uri includeChildren w d :
  (d, false) ∈ (Wrapper.getOrRetrieve uri includeChildren w).1.1 ↔
  Wrapper.get uri (Wrapper.getOrRetrieve uri includeChildren w).1.2 = Data d.
Proof.
  rewrite getOrRetrieve_callbacks at 1. rewrite elem_of_app.
  set (w' := (Wrapper.getOrRetrieve uri includeChildren w).1.2).
  split.
  - intros [Hown | Hchild].
    + destruct (Wrapper.get uri w'); [by apply elem_of_nil in Hown | | by apply elem_of_nil in Hown].
      apply list_elem_of_singleton in Hown. congruence.
    + destruct includeChildren; [|by apply elem_of_nil in Hchild].
      destruct (TernarySearchTree.findSuperstr uri (data w')); [|by apply elem_of_nil in Hchild].
      by apply list_elem_of_fmap in Hchild as (d' & [=] & Hin).
  - intros ->. left. left.
Qed.

Lemma elem_of_contribution uri includeChildren w d :
  d ∈ Service.contribution uri includeChildren w ↔
  Wrapper.get uri (Wrapper.getOrRetrieve uri includeChildren w).1.2 = Data d
  ∨ (includeChildren = true ∧ bubble d = Some true
     ∧ ∃ k, isSuperstr uri k = true ∧ data w !! k = Some (Data d)).
Proof.
  unfold Service.contribution. rewrite list_elem_of_fmap. split.
  - intros ([d' [|]] & -> & Hin); apply list_elem_of_filter in Hin as [Hpush Hin]; simpl.
    + right. apply child_callback in Hin as [-> Hk].
      unfold Service.pushed in Hpush. simpl in Hpush.
      by apply bool_decide_eq_true in Hpush.
    + left. by apply own_callback.
  - intros [Hown | (-> & Hbubble & Hk)].
    + exists (d, false). split; [done |]. apply list_elem_of_filter.
      split; [done | by apply own_callback].
    + exists (d, true). split; [done |]. apply list_elem_of_filter. split.
      * unfold Service.pushed. simpl. by apply bool_decide_eq_true.
      * by apply child_callback.
Qed.

Lemma getDecoration_result uri includeChildren s :
  Service.well_formed s →
  (Service.getDecoration uri includeChildren s).1
  = _data s ≫= λ a,
      from_option (Service.contribution uri includeChildren) [] (heap s !! a).
Proof.
  intros [Hnd _]. unfold Service.getDecoration.
  by destruct (getDecoration_loop_spec uri includeChildren (_data s) [] s Hnd) as [-> _].
Qed.

Lemma getDecoration_heap uri includeChildren s a :
  Service.well_formed s →
  heap (Service.getDecoration uri includeChildren s).2 !! a
  = if decide (a ∈ _data s)
    then (λ w, (Wrapper.getOrRetrieve uri includeChildren w).1.2) <$> heap s !! a
    else heap s !! a.
Proof.
  intros [Hnd _]. unfold Service.getDecoration.
  by destruct (getDecoration_loop_spec uri includeChildren (_data s) [] s Hnd)
    as (_ & -> & _).
Qed.

Lemma getDecoration_public uri includeChildren s :
  Service.well_formed s →
  onDidChangeDecorationsEmitter (Service.getDecoration uri includeChildren s).2
  = onDidChangeDecorationsEmitter s.
Proof.
  intros [Hnd _]. unfold Service.getDecoration.
  by destruct (getDecoration_loop_spec uri includeChildren (_data s) [] s Hnd)
    as (_ & _ & _ & ->).
Qed.

Lemma elem_of_getDecoration uri includeChildren s d :
  Service.well_formed s →
  d ∈ (Service.getDecoration uri includeChildren s).1 ↔
  ∃ a w, a ∈ _data s ∧ heap s !! a = Some w
         ∧ d ∈ Service.contribution uri includeChildren w.
Proof.
  intros Hs. rewrite getDecoration_result by done.
  rewrite list_elem_of_bind. split.
  - intros (a & Hin & Ha). destruct (heap s !! a) as [w|] eqn:Hw; simpl in Hin.
    + eauto.
    + by apply elem_of_nil in Hin.
  - intros (a & w & Ha & Hw & Hin). exists a. by rewrite Hw.
Qed.
End bubbling.

(** ** The sessions of a service *)

Section sessions_of_a_service.
Implicit Types (s : DecorationsServiceImpl) (w : DecorationProviderWrapper) (a : nat).

Lemma session_step_reachable w e :
  Session.reachable w → Session.reachable (Session.step w e).
Proof. apply (reachable_run [e]). Qed.

Lemma sessions_on_wrapper a f s :
  (∀ w, Session.reachable w → Session.reachable (f w).1) →
  (∀ b w, heap s !! b = Some w → Session.reachable w) →
  ∀ b w, heap (Service.on_wrapper a f s) !! b = Some w → Session.reachable w.
Proof.
  intros Hf Hs b w. rewrite on_wrapper_heap.
  destruct (heap s !! a) as [w0|] eqn:Ha; [|apply Hs].
  intros [(-> & <- & _) | (_ & Hb)]%list_lookup_insert_Some; eauto.
Qed.

Lemma sessions_step s x :
  Service.well_formed s →
  (∀ b w, heap s !! b = Some w → Session.reachable w) →
  ∀ b w, heap (Service.step s x) !! b = Some w → Session.reachable w.
Proof.
  intros Hwf Hs. destruct x as [p | a | uri inc | a uris | a r d | a r err]; simpl.
  - intros b w [Hb | (_ & Hb)]%lookup_app_Some; [eauto |].
    apply list_lookup_singleton_Some in Hb as [_ <-]. by exists p, [].
  - case_bool_decide; [|done]. apply sessions_on_wrapper; [|done].
    intros w Hw. apply (session_step_reachable w Session.Disposed Hw).
  - intros b w. rewrite getDecoration_heap by done.
    case_decide; [|apply Hs].
    destruct (heap s !! b) as [w0|] eqn:Hb; [|done].
    intros [= <-]. apply (session_step_reachable w0 (Session.Query uri inc)). eauto.
  - apply sessions_on_wrapper; [|done]. intros w Hw.
    pose proof (session_step_reachable w (Session.Changed uris) Hw) as Hstep.
    simpl in Hstep. by destruct (subscribed w).
  - apply sessions_on_wrapper; [|done]. intros w Hw.
    apply (session_step_reachable w (Session.Fulfilled r d) Hw).
  - apply sessions_on_wrapper; [|done]. intros w Hw.
    apply (session_step_reachable w (Session.Rejected r err) Hw).
Qed.

(** Every wrapper of a reachable service is a reachable session: what is
    proved of sessions holds of the sessions of a service. *)
Lemma service_sessions_reachable s a w :
  Service.reachable s → heap s !! a = Some w → Session.reachable w.
Proof.
  intros (xs & ->). revert a w. induction xs as [|x xs IH] using rev_ind.
  - intros a w Ha. done.
  - unfold Service.run in *. rewrite foldl_app. simpl.
    apply sessions_step; [|done].
    apply reachable_well_formed. by exists xs.
Qed.
End sessions_of_a_service.

(** C2: for a call [getDecoration(uri, includeChildren)] on a service
    reached in any way, (1) a decoration resolved for [uri] itself in a live
    session is in the result; (2) the [isChild] callbacks of a session are
    the resolved decorations strictly below [uri], made only when
    [includeChildren] is set, and such a callback is pushed exactly when the
    bubble flag is set; (3) every entry of the result is the decoration some
    live session holds for [uri] itself when the call returns, or, with
    [includeChildren] set, a decoration with the bubble flag that a live
    session holds strictly below [uri]; so a decoration below [uri] without
    the flag enters the result through no session; (4) with [includeChildren]
    set, a decoration with the bubble flag resolved strictly below [uri] is in
    the result. *)
Theorem getDecoration_bubble_rule
    (s : DecorationsServiceImpl) (uri : URI) (includeChildren : bool) :
  Service.reachable s →
  let result := (Service.getDecoration uri includeChildren s).1 in
  let s' := (Service.getDecoration uri includeChildren s).2 in
  (∀ a w d, a ∈ _data s → heap s !! a = Some w →
     Wrapper.get uri w = Data d → d ∈ result)
  ∧ (∀ w d, (d, true) ∈ (Wrapper.getOrRetrieve uri includeChildren w).1.1 ↔
       includeChildren = true
       ∧ ∃ k, isSuperstr uri k = true ∧ data w !! k = Some (Data d))
  ∧ (∀ d, Service.pushed (d, false) = true
          ∧ (Service.pushed (d, true) = true ↔ bubble d = Some true))
  ∧ (∀ d, d ∈ result →
       (∃ a w', a ∈ _data s ∧ heap s' !! a = Some w' ∧ Wrapper.get uri w' = Data d)
       ∨ (includeChildren = true ∧ bubble d = Some true
          ∧ ∃ a w k, a ∈ _data s ∧ heap s !! a = Some w
                     ∧ isSuperstr uri k = true ∧ data w !! k = Some (Data d)))
  ∧ (∀ a w k d, includeChildren = true → a ∈ _data s → heap s !! a = Some w →
       isSuperstr uri k = true → data w !! k = Some (Data d) →
       bubble d = Some true → d ∈ result).
Proof.
  intros Hs%reachable_well_formed result s'. subst result s'.
  split; [|split; [|split; [|split]]].
  - intros a w d Ha Hw Hget. apply elem_of_getDecoration; [done |].
    exists a, w. split; [done |]. split; [done |].
    apply elem_of_contribution. left.
    by rewrite getOrRetrieve_wrapper, Hget.
  - intros w d. apply child_callback.
  - intros d. split; [done |]. unfold Service.pushed. simpl.
    apply bool_decide_eq_true.
  - intros d (a & w & Ha & Hw & Hin)%elem_of_getDecoration; [|done].
    apply elem_of_contribution in Hin as [Hown | (Hinc & Hbubble & k & Hk & Hlook)].
    + left. exists a, (Wrapper.getOrRetrieve uri includeChildren w).1.2.
      split; [done |]. split; [|done].
      rewrite getDecoration_heap by done. rewrite decide_True by done. by rewrite Hw.
    + right. split; [done |]. split; [done |]. by exists a, w, k.
  - intros a w k d -> Ha Hw Hk Hlook Hbubble. apply elem_of_getDecoration; [done |].
    exists a, w. split; [done |]. split; [done |].
    apply elem_of_contribution. right. split; [done |]. split; [done |]. by exists k.
Qed.

(** The examples of the spec: [a/b] resolved with the bubble flag shows at
    [a] with children and not without; [a] resolved without it does not show
    at the root [[]]. *)
Lemma getDecoration_bubble_witness :
  let s := Service.run [Service.Register Scenario.eager;
                        Service.GetDecoration Scenario.a_b false;
                        Service.GetDecoration Scenario.a false] Service.create in
  (Service.getDecoration Scenario.a true s).1 = [Scenario.X; Scenario.Y]
  ∧ (Service.getDecoration Scenario.a false s).1 = [Scenario.X]
  ∧ (Service.getDecoration [] true s).1 = [Scenario.Y]
  ∧ Scenario.Y ∈ (Service.getDecoration Scenario.a true s).1.
Proof.
  cbv zeta. do 3 (split; [vm_compute; reflexivity |]).
  refine (proj2 (proj2 (proj2 (proj2
    (getDecoration_bubble_rule _ Scenario.a true (ex_intro _ _ eq_refl)))))
    0 (Wrapper.getOrRetrieve Scenario.a false
         (Wrapper.getOrRetrieve Scenario.a_b false (Wrapper.create Scenario.eager)).1.2).1.2
    Scenario.a_b Scenario.Y eq_refl _ _ _ _ eq_refl).
  - vm_compute. left.
  - vm_compute. reflexivity.
  - vm_compute. reflexivity.
  - vm_compute. reflexivity.
Defined.

(** ** The first query of a resource *)

Section first_query.
Implicit Types (s : DecorationsServiceImpl) (w : DecorationProviderWrapper).
Implicit Types (uri : URI) (a : nat).

Lemma bind_omap {A B} (f : A → list B) (g : A → option B) (l : list A) :
  Forall (λ x, f x = option_list (g x)) l → l ≫= f = omap g l.
Proof.
  induction 1 as [|x l Hx Hl IH]; [done |].
  change ((x :: l) ≫= f) with (f x ++ (l ≫= f)).
  rewrite Hx, IH. simpl. by destruct (g x).
Qed.

Lemma omap_all_None {A B} (g : A → option B) (l : list A) :
  (∀ x, x ∈ l → g x = None) → omap g l = [].
Proof.
  induction l as [|x l IH]; intros Hall; [done |].
  simpl. rewrite (Hall x) by left. apply IH. intros y Hy. apply Hall. by right.
Qed.

Lemma contribution_unknown uri w :
  Wrapper.get uri w = Undefined →
  Service.contribution uri false w = option_list (Service.answered_now uri w).
Proof.
  intros Hget. unfold Service.contribution, Service.answered_now.
  rewrite getOrRetrieve_callbacks, getOrRetrieve_wrapper, Hget, get_fetchData_eq.
  rewrite app_nil_r. by destruct (provideDecorations _ _ _).
Qed.
End first_query.

(** A resource that has no slot in any live session: a call of
    [getDecoration] makes one [provideDecorations] call for it on every live
    provider and none on the others; without children, the list handed back
    holds the decorations the providers answered at once, in registration
    order. *)
Lemma unknown_resource_fetches_once
    (s : DecorationsServiceImpl) (uri : URI) (includeChildren : bool) :
  Service.well_formed s →
  (∀ a w, a ∈ _data s → heap s !! a = Some w → data w !! uri = None) →
  let result := (Service.getDecoration uri includeChildren s).1 in
  let s' := (Service.getDecoration uri includeChildren s).2 in
  (∀ a, a ∈ _data s →
     ∃ w w', heap s !! a = Some w ∧ heap s' !! a = Some w'
             ∧ calls w' = calls w ++ [uri])
  ∧ (∀ a, a ∉ _data s → heap s' !! a = heap s !! a)
  ∧ (includeChildren = false →
       result = omap (λ a, heap s !! a ≫= Service.answered_now uri) (_data s))
  ∧ (includeChildren = false →
       (∀ a w, a ∈ _data s → heap s !! a = Some w → Service.answered_now uri w = None) →
       result = []).
Proof.
  intros Hs Hunknown result s'. subst result s'.
  assert (includeChildren = false →
          (Service.getDecoration uri includeChildren s).1
          = omap (λ a, heap s !! a ≫= Service.answered_now uri) (_data s)) as Hresult.
  { intros ->. rewrite getDecoration_result by done.
    apply bind_omap, Forall_forall. intros a Ha.
    destruct (heap s !! a) as [w|] eqn:Hw; [|done]. simpl.
    apply contribution_unknown, get_absent. by apply (Hunknown a). }
  split; [|split; [|split]].
  - intros a Ha. destruct Hs as [Hnd Hlt].
    destruct (lookup_lt_is_Some_2 (heap s) a (Hlt a Ha)) as [w Hw].
    exists w, (Wrapper.getOrRetrieve uri includeChildren w).1.2.
    split; [done |]. split.
    + rewrite getDecoration_heap by done. rewrite decide_True by done. by rewrite Hw.
    + rewrite getOrRetrieve_calls. by rewrite (get_absent uri w (Hunknown a w Ha Hw)).
  - intros a Ha. rewrite getDecoration_heap by done. by rewrite decide_False.
  - done.
  - intros Hinc Hnone. rewrite Hresult by done.
    apply omap_all_None. intros a Ha.
    destruct (heap s !! a) as [w|] eqn:Hw; [|done]. simpl. by apply (Hnone a).
Qed.

(** ** A fetch that fails *)

Section rejection.
Implicit Types (s : DecorationsServiceImpl) (w : DecorationProviderWrapper).
Implicit Types (uri : URI) (a r : nat) (err : JsError).

Lemma rejected_pending r err uri w :
  calls w !! r = Some uri → Wrapper.get uri w = Request r → isCanceled err = false →
  Wrapper.rejected r err w
  = Wrapper.set_data (TernarySearchTree.delete uri (data w)) w.
Proof.
  intros Hcall Hget Hcancel. unfold Wrapper.rejected.
  rewrite Hcall, Hget, Hcancel. simpl. by rewrite Nat.eqb_refl.
Qed.

Lemma rejected_ignored r err w :
  isCanceled err = true ∨ ¬ Session.pending r w → Wrapper.rejected r err w = w.
Proof.
  unfold Wrapper.rejected, Session.pending.
  destruct (calls w !! r) as [uri|]; [|done].
  intros [-> | Hno]; [done |].
  destruct (is_request r (Wrapper.get uri w)) eqn:Hreq; [|by rewrite andb_false_r].
  apply is_request_true in Hreq. destruct Hno. eauto.
Qed.
End rejection.

(** C9: in a service reached in any way, let the live session [a] hold the
    pending request [r] as the slot of [uri], and let the promise of [r]
    reject with something that is not the cancellation error.  Then the slot
    of [uri] is removed and nothing is stored in its place: the cache is the
    old one without [uri], no other field of the session changes, and nothing
    is fired on either emitter; and the next [getDecoration] for [uri] hands
    back a list and asks the provider of [a] again, once. *)
Theorem rejected_fetch_reverts_to_unknown
    (s : DecorationsServiceImpl) (a r : nat) (w : DecorationProviderWrapper)
    (uri : URI) (err : JsError) (includeChildren : bool) :
  Service.reachable s →
  a ∈ _data s → heap s !! a = Some w →
  calls w !! r = Some uri → Wrapper.get uri w = Request r →
  isCanceled err = false →
  let s1 := Service.step s (Service.PromiseRejected a r err) in
  let s2 := (Service.getDecoration uri includeChildren s1).2 in
  (∃ w1, heap s1 !! a = Some w1
         ∧ data w1 = base.delete uri (data w) ∧ data w1 !! uri = None
         ∧ calls w1 = calls w ∧ cancelled w1 = cancelled w)
  ∧ _onDidChangeDecorationsDelayed s1 = _onDidChangeDecorationsDelayed s
  ∧ onDidChangeDecorationsEmitter s1 = onDidChangeDecorationsEmitter s
  ∧ (∃ w2, heap s2 !! a = Some w2 ∧ calls w2 = calls w ++ [uri]
           ∧ data w2 !! uri =
               Some match provideDecorations (provider w) (calls w) uri with
                    | PData x => Data x
                    | PUndefined => Undefined
                    | PThenable => Request (length (calls w))
                    end).
Proof.
  intros Hreach Ha Hw Hcall Hget Hcancel s1 s2.
  assert (Service.reachable s1) as Hreach1.
  { destruct Hreach as (xs & ->). exists (xs ++ [Service.PromiseRejected a r err]).
    subst s1. unfold Service.run. by rewrite foldl_app. }
  pose proof (reachable_well_formed _ Hreach1) as Hs1.
  set (w1 := Wrapper.set_data (TernarySearchTree.delete uri (data w)) w).
  assert (heap s1 = <[a := w1]> (heap s)) as Hheap.
  { subst s1. simpl. rewrite on_wrapper_heap, Hw. simpl.
    by rewrite (rejected_pending r err uri w). }
  assert (heap s1 !! a = Some w1) as Hw1.
  { rewrite Hheap. apply list_lookup_insert_eq. by apply lookup_lt_Some in Hw. }
  assert (_data s1 = _data s) as Hdata by apply on_wrapper__data.
  assert (data w1 !! uri = None) as Hgone by apply lookup_delete_eq.
  split; [|split; [|split]].
  - exists w1. by repeat split.
  - subst s1. simpl. unfold Service.on_wrapper. by rewrite Hw.
  - subst s1. simpl. unfold Service.on_wrapper. by rewrite Hw.
  - exists (Wrapper.getOrRetrieve uri includeChildren w1).1.2. split; [|split].
    + subst s2. rewrite getDecoration_heap by done.
      rewrite Hdata, decide_True by done. by rewrite Hw1.
    + rewrite getOrRetrieve_calls. by rewrite (get_absent uri w1 Hgone).
    + rewrite getOrRetrieve_wrapper, (get_absent uri w1 Hgone).
      exact (fetchData_lookup uri w1).
Qed.

(** The provider of the one session answers with a promise; the promise for
    [a] rejects with an error; the slot is gone and the next query asks
    again. *)
Lemma rejected_fetch_witness :
  let s := Service.run [Service.Register Scenario.slow;
                        Service.GetDecoration Scenario.a false] Service.create in
  let s1 := Service.step s (Service.PromiseRejected 0 0 Scenario.failure) in
  let s2 := (Service.getDecoration Scenario.a false s1).2 in
  (data <$> heap s !! 0) = Some {[ Scenario.a := Request 0 ]}
  ∧ (data <$> heap s1 !! 0) = Some ∅
  ∧ ∃ w2, heap s2 !! 0 = Some w2 ∧ calls w2 = [Scenario.a; Scenario.a]
          ∧ data w2 !! Scenario.a = Some (Request 1).
Proof.
  cbv zeta. do 2 (split; [vm_compute; reflexivity |]).
  set (s := Service.run _ _).
  assert (_data s = [0]) as Hdata by (vm_compute; reflexivity).
  destruct (rejected_fetch_reverts_to_unknown s 0 0
              (Wrapper.getOrRetrieve Scenario.a false (Wrapper.create Scenario.slow)).1.2
              Scenario.a Scenario.failure false
              (ex_intro _ _ eq_refl)
              (eq_ind_r (λ l, 0 ∈ l) (list_elem_of_here 0 []) Hdata)
              eq_refl eq_refl eq_refl eq_refl) as (_ & _ & _ & w2 & Hw2 & Hcalls & Hslot).
  exists w2. split; [exact Hw2 |]. split; [exact Hcalls | exact Hslot].
Defined.

(** ** Unregistering a provider *)

Section unregister.
Implicit Types (s : DecorationsServiceImpl) (w : DecorationProviderWrapper).
Implicit Types (uri k : URI) (a : nat).

Lemma knowsAbout_spec uri w :
  Wrapper.knowsAbout uri w = true ↔
  (∃ r, data w !! uri = Some (Request r))
  ∨ (∃ d, data w !! uri = Some (Data d))
  ∨ (∃ k v, isSuperstr uri k = true ∧ data w !! k = Some v).
Proof.
  unfold Wrapper.knowsAbout.
  rewrite orb_true_iff, bool_decide_eq_true, findSuperstr_is_Some.
  unfold Wrapper.get, TernarySearchTree.get. split.
  - intros [Htruthy | Hbelow]; [|auto].
    destruct (data w !! uri) as [[r|d|]|]; simpl in Htruthy; try done; eauto.
  - intros [[r ->] | [[d ->] | Hbelow]]; auto.
Qed.

Lemma dispose_fire_heap a s : heap (Service.dispose_fire a s) = heap s.
Proof. done. Qed.

Lemma dispose_registration_public a s :
  onDidChangeDecorationsEmitter (Service.dispose_registration a s)
  = onDidChangeDecorationsEmitter s ++ [AffectsKnown a].
Proof.
  unfold Service.dispose_registration, Service.on_wrapper.
  by destruct (heap (Service.dispose_fire a s) !! a).
Qed.

Lemma dispose_registration__data a s :
  _data (Service.dispose_registration a s)
  = Service.splice1 (Service.indexOf (_data s) a) (_data s).
Proof. unfold Service.dispose_registration. by rewrite on_wrapper__data. Qed.

Lemma dispose_registration_heap a s w :
  heap s !! a = Some w →
  heap (Service.dispose_registration a s) = <[a := Wrapper.dispose w]> (heap s).
Proof.
  intros Hw. unfold Service.dispose_registration.
  rewrite on_wrapper_heap, dispose_fire_heap. by rewrite Hw.
Qed.

(** Disposing a live registration takes its wrapper, and no other, out of
    the array. *)
Lemma splice1_live (l : list nat) a b :
  NoDup l → a ∈ l →
  b ∈ Service.splice1 (Service.indexOf l a) l ↔ b ∈ l ∧ b ≠ a.
Proof.
  intros Hnd Ha. destruct (indexOf_present l a Ha) as (i & -> & Hi & _).
  rewrite splice1_at. rewrite <- (take_drop_middle l i a Hi) in Hnd.
  rewrite <- (take_drop_middle l i a Hi) at 3.
  apply NoDup_app in Hnd as (_ & Hleft & Hright).
  apply NoDup_cons in Hright as [Hright _].
  rewrite !elem_of_app, elem_of_cons. split.
  - intros [Hb | Hb].
    + split; [auto |]. intros ->. apply (Hleft a Hb). left.
    + split; [auto |]. by intros ->.
  - intros [[Hb | [-> | Hb]] Hne]; auto. done.
Qed.
End unregister.

(** C6, as stated, fails: the provider of the one session was asked about
    [a] and resolved it at once with nothing, so [a] has a cache entry, the
    empty value; the event fired when the registration is disposed says, at
    the moment it is fired, that [a] is not affected. *)
Lemma unregister_misses_empty :
  let s := Service.run [Service.Register Scenario.blank;
                        Service.GetDecoration Scenario.a false] Service.create in
  let s1 := Service.dispose_fire 0 s in
  (calls <$> heap s !! 0) = Some [Scenario.a]
  ∧ (data <$> heap s !! 0) = Some {[ Scenario.a := Undefined ]}
  ∧ Service.onDidChangeDecorations s1 = [AffectsAll; AffectsKnown 0]
  ∧ Service.affectsResource (heap s1) (AffectsKnown 0) Scenario.a = false.
Proof. vm_compute. done. Qed.

(** C6, amended: when the handle of a registration is invoked, exactly one
    event is fired on the public emitter; while it is being delivered, before
    the session is disposed, its predicate is [knowsAbout] on the cache of
    that session, which is true exactly when the slot of the resource holds a
    pending request or a present decoration, or the cache has an entry
    strictly below the resource; a resource whose only trace is an empty
    value, or no entry at all, is not affected.  Once the handle has run the
    cache is cleared and the same predicate is false everywhere.  For a live
    registration the handle takes that session, and no other, out of the
    live set. *)
Theorem unregister_event_scope
    (s : DecorationsServiceImpl) (a : nat) (w : DecorationProviderWrapper) (uri : URI) :
  Service.reachable s →
  heap s !! a = Some w →
  let s1 := Service.dispose_fire a s in
  let s2 := Service.dispose_registration a s in
  Service.onDidChangeDecorations s1 = Service.onDidChangeDecorations s ++ [AffectsKnown a]
  ∧ Service.onDidChangeDecorations s2 = Service.onDidChangeDecorations s1
  ∧ Service.affectsResource (heap s1) (AffectsKnown a) uri = Wrapper.knowsAbout uri w
  ∧ (Wrapper.knowsAbout uri w = true ↔
       (∃ r, data w !! uri = Some (Request r))
       ∨ (∃ d, data w !! uri = Some (Data d))
       ∨ (∃ k v, isSuperstr uri k = true ∧ data w !! k = Some v))
  ∧ Service.affectsResource (heap s2) (AffectsKnown a) uri = false
  ∧ (a ∈ _data s → ∀ b, b ∈ _data s2 ↔ b ∈ _data s ∧ b ≠ a).
Proof.
  intros [Hnd _]%reachable_well_formed Hw s1 s2.
  split; [done |].
  split; [by apply dispose_registration_public |].
  split; [by simpl; rewrite Hw |].
  split; [apply knowsAbout_spec |].
  split.
  - subst s2. rewrite (dispose_registration_heap a s w Hw). simpl.
    rewrite list_lookup_insert_eq by (by apply lookup_lt_Some in Hw). done.
  - intros Ha b. subst s2. rewrite dispose_registration__data.
    by apply splice1_live.
Qed.

(** A session that holds a decoration for [a/b] and an empty value for [c]:
    the event of its disposal affects [a/b] and its ancestor [a], not [c]. *)
Lemma unregister_event_witness :
  let s := Service.run [Service.Register Scenario.eager;
                        Service.GetDecoration Scenario.a_b false;
                        Service.GetDecoration Scenario.c false] Service.create in
  let s1 := Service.dispose_fire 0 s in
  Service.affectsResource (heap s1) (AffectsKnown 0) Scenario.a_b = true
  ∧ Service.affectsResource (heap s1) (AffectsKnown 0) Scenario.a = true
  ∧ Service.affectsResource (heap s1) (AffectsKnown 0) Scenario.c = false
  ∧ Service.onDidChangeDecorations (Service.dispose_registration 0 s)
    = Service.onDidChangeDecorations s ++ [AffectsKnown 0].
Proof.
  cbv zeta. do 3 (split; [vm_compute; reflexivity |]).
  destruct (unregister_event_scope
              (Service.run [Service.Register Scenario.eager;
                            Service.GetDecoration Scenario.a_b false;
                            Service.GetDecoration Scenario.c false] Service.create)
              0
              (Wrapper.getOrRetrieve Scenario.c false
                 (Wrapper.getOrRetrieve Scenario.a_b false
                    (Wrapper.create Scenario.eager)).1.2).1.2
              Scenario.a (ex_intro _ _ eq_refl) eq_refl) as (Hone & Hsame & _).
  cbv zeta in Hsame. rewrite Hsame. exact Hone.
Defined.

(** ** Invoking a handle twice *)

(** Once its wrapper is out of the array, the handle finds it at index [-1]:
    [splice(-1, 1)] takes out the last wrapper of the array, whichever it is,
    and one more event is fired. *)
Lemma dispose_again (s : DecorationsServiceImpl) (a : nat) :
  a ∉ _data s →
  _data (Service.dispose_registration a s) = take (length (_data s) - 1) (_data s)
  ∧ Service.onDidChangeDecorations (Service.dispose_registration a s)
    = Service.onDidChangeDecorations s ++ [AffectsKnown a].
Proof.
  intros Ha. split.
  - rewrite dispose_registration__data, indexOf_absent by done.
    apply splice1_minus_one.
  - apply dispose_registration_public.
Qed.

(** C5, on the code: two providers are registered and the handle of the
    first is invoked twice.  The first invocation leaves the second session
    live; the second invocation takes that session out of the live set and
    fires one more event. *)
Example dispose_twice_removes_another_session :
  let s := Service.run [Service.Register Scenario.slow;
                        Service.Register Scenario.eager;
                        Service.DisposeRegistration 0] Service.create in
  let s' := Service.step s (Service.DisposeRegistration 0) in
  _data s = [1]
  ∧ _data s' = []
  ∧ Service.onDidChangeDecorations s = [AffectsAll; AffectsAll; AffectsKnown 0]
  ∧ Service.onDidChangeDecorations s'
    = [AffectsAll; AffectsAll; AffectsKnown 0; AffectsKnown 0].
Proof. vm_compute. done. Qed.

(** ** Where the notifications of a session go *)

(** The settling of a promise fires on the private emitter only. *)
Lemma fulfilled_not_published (s : DecorationsServiceImpl) (a r : nat)
    (d : option IDecorationData) :
  Service.onDidChangeDecorations (Service.step s (Service.PromiseFulfilled a r d))
  = Service.onDidChangeDecorations s.
Proof.
  simpl. unfold Service.on_wrapper, Service.onDidChangeDecorations.
  destruct (heap s !! a) as [w|]; [|done].
  unfold Wrapper.fulfilled.
  destruct (calls w !! r) as [uri|]; [|done].
  destruct (is_request r (Wrapper.get uri w)); [|done].
  rewrite (surjective_pairing (Wrapper._keepItem uri d w)).
  rewrite (surjective_pairing (Wrapper._keepItem uri d w).1).
  rewrite fire_all_public, keepItem_fired.
  destruct (_ || _); simpl; by rewrite app_nil_r.
Qed.

(** C3, on the code: a provider answers with a promise, [a] is queried, and
    the promise fulfils with a decoration.  [_keepItem] stores it and fires
    the notification for [a] on [_onDidChangeDecorationsDelayed]; what a
    subscriber of [onDidChangeDecorations] has received is the event of the
    registration and nothing else. *)
Example notification_is_not_published :
  let s := Service.run [Service.Register Scenario.slow;
                        Service.GetDecoration Scenario.a false;
                        Service.PromiseFulfilled 0 0 (Some Scenario.X)] Service.create in
  (data <$> heap s !! 0) = Some {[ Scenario.a := Data Scenario.X ]}
  ∧ _onDidChangeDecorationsDelayed s = [Scenario.a]
  ∧ Service.onDidChangeDecorations s = [AffectsAll].
Proof. vm_compute. done. Qed.

(** ** The request queue *)

Section jsmap_facts.
Context {V : Type}.
Implicit Types (m : list (nat * V)) (k : nat) (v : V).

Lemma has_true k m : JsMap.has k m = true ↔ k ∈ m.*1.
Proof.
  unfold JsMap.has. rewrite existsb_exists, list_elem_of_fmap. split.
  - intros ([k' v] & Hin & Heq). apply Nat.eqb_eq in Heq. simpl in Heq. subst k'.
    exists (k, v). split; [done | by apply list_elem_of_In].
  - intros ([k' v] & -> & Hin). exists (k', v).
    split; [by apply list_elem_of_In | apply Nat.eqb_refl].
Qed.

Lemma has_false k m : JsMap.has k m = false ↔ k ∉ m.*1.
Proof.
  rewrite <- has_true. destruct (JsMap.has k m); split; try done.
Qed.

Lemma set_fresh k v m : JsMap.has k m = false → JsMap.set k v m = m ++ [(k, v)].
Proof. unfold JsMap.set. by intros ->. Qed.

Lemma elem_of_delete k m (kv : nat * V) :
  kv ∈ JsMap.delete k m ↔ kv ∈ m ∧ kv.1 ≠ k.
Proof. unfold JsMap.delete. rewrite list_elem_of_filter. tauto. Qed.

Lemma has_delete k k' m :
  JsMap.has k' (JsMap.delete k m) = true ↔ JsMap.has k' m = true ∧ k' ≠ k.
Proof.
  rewrite !has_true, !list_elem_of_fmap. split.
  - intros ([k1 v] & -> & [Hin Hne]%elem_of_delete). split; [|done].
    by exists (k1, v).
  - intros [([k1 v] & -> & Hin) Hne]. exists (k1, v). split; [done |].
    by apply elem_of_delete.
Qed.

Lemma has_delete_same k m : JsMap.has k (JsMap.delete k m) = false.
Proof.
  destruct (JsMap.has k (JsMap.delete k m)) eqn:Hhas; [|done].
  by apply has_delete in Hhas as [_ Hne].
Qed.

Lemma has_delete_false k k' m :
  JsMap.has k' m = false → JsMap.has k' (JsMap.delete k m) = false.
Proof.
  intros Hno. destruct (JsMap.has k' (JsMap.delete k m)) eqn:Hhas; [|done].
  apply has_delete in Hhas as [Hhas _]. congruence.
Qed.
End jsmap_facts.

Section queue_facts.
Implicit Types (q : DecorationRequestsQueue) (x : Queue.action) (k : nat).

Lemma elem_of_insert_inv {A} (l : list A) i (x y : A) :
  y ∈ <[i := x]> l → y = x ∨ y ∈ l.
Proof.
  intros (j & Hj)%list_elem_of_lookup.
  apply list_lookup_insert_Some in Hj as [(_ & -> & _) | (_ & Hj)]; [by left |].
  right. apply list_elem_of_lookup. eauto.
Qed.

Lemma queue_consistent_create : Queue.consistent Queue.create.
Proof.
  split; [done |]. split; [by intros k req ?%elem_of_nil |].
  split; [by intros k p ?%elem_of_nil |].
  split; [by intros b k p ?%elem_of_nil | by intros p v ?%elem_of_nil].
Qed.

Lemma requests_fresh q :
  Queue.consistent q → JsMap.has (S (_idPool q)) (_requests q) = false.
Proof.
  intros (_ & Hreq & _). apply has_false.
  intros ([k req] & Heq & Hin)%list_elem_of_fmap.
  apply Hreq in Hin as [_ Hle]. simpl in Heq. lia.
Qed.

Lemma resolver_fresh q :
  Queue.consistent q → JsMap.has (S (_idPool q)) (_resolver q) = false.
Proof.
  intros (_ & _ & Hres & _). apply has_false.
  intros ([k p] & Heq & Hin)%list_elem_of_fmap.
  apply Hres in Hin as [_ Hle]. simpl in Heq. lia.
Qed.

(** [enqueue] on a consistent queue: both maps grow at the end. *)
Lemma enqueue_unfold u q :
  Queue.consistent q →
  (Queue.enqueue u q).2
  = mkQueue (S (_idPool q))
            (_requests q ++ [(S (_idPool q), mkRequest (S (_idPool q)) u)])
            (_resolver q ++ [(S (_idPool q), S (_idPool q))])
            (Some (default (S (timeouts q)) (_timer q)))
            (match _timer q with Some _ => timeouts q | None => S (timeouts q) end)
            (batches q) (resolved q).
Proof.
  intros Hq. unfold Queue.enqueue, Queue._processQueue. simpl.
  rewrite (set_fresh _ _ _ (requests_fresh q Hq)), (set_fresh _ _ _ (resolver_fresh q Hq)).
  by destruct (_timer q).
Qed.

Lemma has_app_singleton {V} k k' (v : V) (m : list (nat * V)) :
  JsMap.has k (m ++ [(k', v)]) = JsMap.has k m || Nat.eqb k' k.
Proof. unfold JsMap.has. rewrite existsb_app. simpl. by rewrite orb_false_r. Qed.

Lemma queue_consistent_enqueue u q :
  Queue.consistent q → Queue.consistent (Queue.enqueue u q).2.
Proof.
  intros Hq. rewrite enqueue_unfold by done.
  destruct Hq as (Hidle & Hreq & Hres & Hbatch & Hdone).
  split; [done |]. simpl. split; [|split; [|split]].
  - intros k req [Hin | Hin%list_elem_of_singleton]%elem_of_app.
    + destruct (Hreq _ _ Hin). split; [done | lia].
    + by injection Hin as -> ->.
  - intros k p [Hin | Hin%list_elem_of_singleton]%elem_of_app.
    + destruct (Hres _ _ Hin). split; [done | lia].
    + by injection Hin as -> ->.
  - intros b k p Hb Hin. destruct (Hbatch _ _ _ Hb Hin) as (-> & Hle & Hno).
    split; [done |]. split; [lia |].
    rewrite has_app_singleton, Hno, orb_false_l. apply Nat.eqb_neq. lia.
  - intros p v Hin. destruct (Hdone _ _ Hin) as (Hle & Hno).
    split; [lia |].
    rewrite has_app_singleton, Hno, orb_false_l. apply Nat.eqb_neq. lia.
Qed.

Lemma queue_consistent_cancel k q :
  Queue.consistent q → Queue.consistent (Queue.onCancellationRequested k q).
Proof.
  intros (Hidle & Hreq & Hres & Hbatch & Hdone).
  split; [|split; [|split; [|split]]]; simpl.
  - intros Htimer. destruct (Hidle Htimer) as [-> ->]. done.
  - intros k' req [Hin _]%elem_of_delete. by apply Hreq.
  - intros k' p [Hin _]%elem_of_delete. by apply Hres.
  - intros b k' p Hb Hin. destruct (Hbatch _ _ _ Hb Hin) as (-> & Hle & Hno).
    split; [done |]. split; [done |]. by apply has_delete_false.
  - intros p v Hin. destruct (Hdone _ _ Hin) as (Hle & Hno).
    split; [done |]. by apply has_delete_false.
Qed.

Lemma queue_consistent_timeout q :
  Queue.consistent q → Queue.consistent (Queue.timeout q).
Proof.
  intros Hq. unfold Queue.timeout. destruct (_timer q) as [handle|]; [|done].
  destruct Hq as (Hidle & Hreq & Hres & Hbatch & Hdone).
  split; [|split; [|split; [|split]]]; simpl.
  - done.
  - by intros k req ?%elem_of_nil.
  - by intros k p ?%elem_of_nil.
  - intros b k p [Hb | Hb%list_elem_of_singleton]%elem_of_app Hin.
    + destruct (Hbatch _ _ _ Hb Hin) as (-> & Hle & _). done.
    + subst b. simpl in Hin. destruct (Hres _ _ Hin) as (-> & Hle). done.
  - intros p v Hin. destruct (Hdone _ _ Hin) as (Hle & _). done.
Qed.

Lemma queue_consistent_fanOut i data q :
  Queue.consistent q → Queue.consistent (Queue.fanOut i data q).
Proof.
  intros Hq. unfold Queue.fanOut.
  destruct (batches q !! i) as [b|] eqn:Hb; [|done].
  destruct (completed b); [done |].
  destruct Hq as (Hidle & Hreq & Hres & Hbatch & Hdone).
  assert (b ∈ batches q) as Hin by (apply list_elem_of_lookup; eauto).
  split; [|split; [|split; [|split]]]; simpl; [done..| |].
  - intros b' k p [-> | Hb']%elem_of_insert_inv; simpl; eauto.
  - intros p v [Hold | Hnew]%elem_of_app; [eauto |].
    apply list_elem_of_fmap in Hnew as ([k p'] & [= -> ->] & Hkp). simpl.
    destruct (Hbatch _ _ _ Hin Hkp) as (-> & Hle & Hno). done.
Qed.

Lemma queue_consistent_step q x : Queue.consistent q → Queue.consistent (Queue.step q x).
Proof.
  intros Hq. destruct x; simpl.
  - by apply queue_consistent_enqueue.
  - by apply queue_consistent_cancel.
  - by apply queue_consistent_timeout.
  - by apply queue_consistent_fanOut.
Qed.

Lemma queue_consistent_run xs q :
  Queue.consistent q → Queue.consistent (Queue.run xs q).
Proof.
  revert q. induction xs as [|x xs IH]; intros q Hq; simpl; [done |].
  by apply IH, queue_consistent_step.
Qed.

Lemma queue_reachable_consistent q : Queue.reachable q → Queue.consistent q.
Proof. intros (xs & ->). apply queue_consistent_run, queue_consistent_create. Qed.
End queue_facts.

(** ** One batched call per turn *)

Section turn_facts.
Implicit Types (q : DecorationRequestsQueue) (xs : list Queue.action).

Lemma values_delete k (m : list (nat * DecorationRequest)) :
  (∀ k' req, (k', req) ∈ m → id req = k') →
  JsMap.values (JsMap.delete k m) = filter (λ req, id req ≠ k) (JsMap.values m).
Proof.
  unfold JsMap.values, JsMap.delete.
  induction m as [|[k' req] m IH]; intros Hkeys; [done |].
  assert (id req = k') as Hid by (apply Hkeys; left).
  assert (∀ k'' req', (k'', req') ∈ m → id req' = k'') as Hrest.
  { intros k'' req' Hin. apply Hkeys. by right. }
  specialize (IH Hrest).
  rewrite fmap_cons, !filter_cons. cbn [fst snd]. rewrite Hid.
  destruct (decide (k' ≠ k)); [rewrite fmap_cons; cbn [snd]|]; by rewrite IH.
Qed.

Lemma filter_filter_cancels k rest (l : list DecorationRequest) :
  filter (λ req, id req ∉ rest) (filter (λ req, id req ≠ k) l)
  = filter (λ req, id req ∉ k :: rest) l.
Proof.
  induction l as [|req l IH]; [done |].
  rewrite !filter_cons.
  destruct (decide (id req ≠ k)) as [Hne|Heq].
  - rewrite filter_cons.
    destruct (decide (id req ∉ rest)) as [Hnin|Hin].
    + rewrite decide_True; [by rewrite IH |]. rewrite not_elem_of_cons. done.
    + rewrite decide_False; [done |]. rewrite not_elem_of_cons. tauto.
  - rewrite decide_False; [done |]. rewrite not_elem_of_cons.
    destruct (decide (id req = k)); tauto.
Qed.

Lemma filter_no_cancels (l : list DecorationRequest) :
  filter (λ req, id req ∉ @nil nat) l = l.
Proof.
  induction l as [|req l IH]; [done |].
  rewrite filter_cons, decide_True by apply not_elem_of_nil. by rewrite IH.
Qed.

(** During a turn no batched call is made, and once a request is
    enqueued a timer is pending. *)
Lemma turn_batches xs q :
  Turn.within xs → batches (Queue.run xs q) = batches q.
Proof.
  revert q. induction xs as [|x xs IH]; intros q Hturn; [done |].
  apply Forall_cons in Hturn as [Hx Hturn]. simpl. rewrite IH by done.
  destruct x; try done. simpl. unfold Queue._processQueue. simpl.
  by destruct (_timer q).
Qed.

Lemma turn_timer xs q :
  Turn.within xs → is_Some (_timer q) ∨ Turn.enqueues xs ≠ [] →
  is_Some (_timer (Queue.run xs q)).
Proof.
  revert q. induction xs as [|x xs IH]; intros q Hturn Hsome.
  { destruct Hsome as [Hsome | Hne]; done. }
  apply Forall_cons in Hturn as [Hx Hturn]. simpl. apply IH; [done |].
  destruct x as [u | k | |]; [| exact Hsome | done | done].
  left. simpl. unfold Queue._processQueue. simpl. by destruct (_timer q).
Qed.

(** The requests in the map at the end of a turn: those that were there
    and those enqueued in the turn, without the ones whose token fired. *)
Lemma turn_requests xs :
  ∀ q, Queue.consistent q → Turn.within xs →
    JsMap.values (_requests (Queue.run xs q))
    = filter (λ req, id req ∉ Turn.cancels xs) (JsMap.values (_requests q))
      ++ Turn.live (_idPool q) xs.
Proof.
  induction xs as [|x xs IH]; intros q Hq Hturn.
  { simpl. rewrite app_nil_r. symmetry. apply filter_no_cancels. }
  apply Forall_cons in Hturn as [Hx Hturn].
  pose proof (queue_consistent_step q x Hq) as Hq'.
  change (Queue.run (x :: xs) q) with (Queue.run xs (Queue.step q x)).
  rewrite (IH _ Hq' Hturn).
  destruct x as [u | k | |]; try done.
  - cbn [Queue.step Turn.live Turn.cancels omap]. fold (Turn.cancels xs).
    rewrite enqueue_unfold by done. cbn [_requests _idPool].
    unfold JsMap.values. rewrite fmap_app, filter_app, <- app_assoc. f_equal.
    f_equal. cbn [fmap list_fmap snd]. rewrite filter_cons, filter_nil. cbn [id].
    destruct (decide (S (_idPool q) ∉ Turn.cancels xs)) as [Hnin|Hin].
    + by rewrite bool_decide_eq_false_2.
    + rewrite bool_decide_eq_true_2; [done |].
      by destruct (decide (S (_idPool q) ∈ Turn.cancels xs)).
  - cbn [Queue.step Turn.live Turn.cancels omap]. fold (Turn.cancels xs).
    cbn [Queue.onCancellationRequested _requests _idPool]. f_equal.
    rewrite values_delete.
    + apply filter_filter_cancels.
    + intros k' req Hin. destruct Hq as (_ & Hreq & _). by apply Hreq.
Qed.
End turn_facts.

(** C4: start from a queue, reached in any way, on which no flush is
    scheduled, and let one turn pass: calls of [enqueue], at least one, and
    tokens that fire, in any order.  During the turn no batched call is
    made; when the timer then fires, exactly one batched call is made; it
    carries the requests enqueued in the turn whose token has not fired
    since, in the order they were enqueued; the maps are empty again and no
    timer is pending, so that the timer function would do nothing if it ran
    once more. *)
Theorem one_batched_call_per_turn (q : DecorationRequestsQueue) (xs : list Queue.action) :
  Queue.reachable q →
  _timer q = None →
  Turn.within xs →
  Turn.enqueues xs ≠ [] →
  let q1 := Queue.run xs q in
  let q2 := Queue.timeout q1 in
  batches q1 = batches q
  ∧ batches q2 = batches q ++ [mkBatch (Turn.live (_idPool q) xs) (_resolver q1) false]
  ∧ _requests q2 = [] ∧ _resolver q2 = [] ∧ _timer q2 = None
  ∧ Queue.timeout q2 = q2.
Proof.
  intros Hq%queue_reachable_consistent Hidle Hturn Hsome q1 q2.
  pose proof (turn_batches xs q Hturn) as Hbatches.
  destruct (turn_timer xs q Hturn (or_intror Hsome)) as [handle Htimer].
  pose proof (turn_requests xs q Hq Hturn) as Hlive.
  destruct Hq as (Hempty & _). destruct (Hempty Hidle) as [Hreq _].
  rewrite Hreq in Hlive. simpl in Hlive.
  subst q2 q1. unfold Queue.timeout at 1 2 3 4 5. rewrite Htimer. simpl.
  rewrite Hbatches, Hlive. repeat split.
  unfold Queue.timeout. by rewrite Htimer.
Qed.

(** The examples of the spec: three requests in a turn go out in one call;
    when the token of the second fires before the flush, the call carries
    the other two. *)
Lemma one_batched_call_witness :
  let three := [Queue.Enqueue Scenario.a; Queue.Enqueue Scenario.a_b;
                Queue.Enqueue Scenario.c] in
  let two := [Queue.Enqueue Scenario.a; Queue.Enqueue Scenario.a_b;
              Queue.Enqueue Scenario.c; Queue.Cancel 2] in
  sent <$> batches (Queue.timeout (Queue.run three Queue.create))
  = [[mkRequest 1 Scenario.a; mkRequest 2 Scenario.a_b; mkRequest 3 Scenario.c]]
  ∧ sent <$> batches (Queue.timeout (Queue.run two Queue.create))
    = [[mkRequest 1 Scenario.a; mkRequest 3 Scenario.c]].
Proof.
  cbv zeta. split.
  - destruct (one_batched_call_per_turn Queue.create
                [Queue.Enqueue Scenario.a; Queue.Enqueue Scenario.a_b;
                 Queue.Enqueue Scenario.c]
                (ex_intro _ [] eq_refl) eq_refl) as (_ & Hcall & _).
    + repeat constructor.
    + discriminate.
    + cbv zeta in Hcall. rewrite Hcall. reflexivity.
  - destruct (one_batched_call_per_turn Queue.create
                [Queue.Enqueue Scenario.a; Queue.Enqueue Scenario.a_b;
                 Queue.Enqueue Scenario.c; Queue.Cancel 2]
                (ex_intro _ [] eq_refl) eq_refl) as (_ & Hcall & _).
    + repeat constructor.
    + discriminate.
    + cbv zeta in Hcall. rewrite Hcall. reflexivity.
Defined.

(** ** Cancelled requests *)

Section dropped_facts.
Implicit Types (q : DecorationRequestsQueue) (x : Queue.action) (id : nat).

Lemma dropped_step id q x :
  Queue.consistent q → Queue.dropped id q → Queue.dropped id (Queue.step q x).
Proof.
  intros Hq (Hle & Hno & Hflight & Hdone).
  destruct x as [u | k | | i data].
  - cbn [Queue.step]. rewrite enqueue_unfold by done.
    split; [|split; [|split]]; cbn [_idPool _resolver batches resolved]; [lia | | done..].
    rewrite has_app_singleton, Hno, orb_false_l. apply Nat.eqb_neq. lia.
  - split; [|split; [|split]]; simpl; [done | | done..].
    by apply has_delete_false.
  - simpl. unfold Queue.timeout. destruct (_timer q) as [handle|]; [|done].
    split; [|split; [|split]]; simpl; [done.. | | done].
    intros b [Hb | ->%list_elem_of_singleton]%elem_of_app Hopen; [by apply Hflight |].
    simpl. by apply has_false.
  - simpl. unfold Queue.fanOut.
    destruct (batches q !! i) as [b|] eqn:Hb; [|done].
    destruct (completed b) eqn:Hopen; [done |].
    assert (b ∈ batches q) as Hin by (apply list_elem_of_lookup; eauto).
    split; [|split; [|split]]; simpl; [done.. | |].
    + intros b' [-> | Hb']%elem_of_insert_inv Hopen'; [done | by apply Hflight].
    + rewrite fmap_app, elem_of_app. intros [Hold | Hnew]; [done |].
      apply list_elem_of_fmap in Hnew as ([p v] & -> & Hpv).
      apply list_elem_of_fmap in Hpv as ([k p'] & [= -> ->] & Hkp).
      destruct Hq as (_ & _ & _ & Hbatch & _).
      destruct (Hbatch _ _ _ Hin Hkp) as (Heq & _). simpl in *. subst p'.
      apply (Hflight b Hin Hopen). apply list_elem_of_fmap. by exists (k, k).
Qed.

Lemma dropped_run xs :
  ∀ q id, Queue.consistent q → Queue.dropped id q → Queue.dropped id (Queue.run xs q).
Proof.
  induction xs as [|x xs IH]; intros q id Hq Hdrop; [done |].
  simpl. apply IH; [by apply queue_consistent_step | by apply dropped_step].
Qed.

(** A token that fires before the flush drops its request. *)
Lemma cancel_drops id q :
  Queue.consistent q → JsMap.has id (_resolver q) = true →
  Queue.dropped id (Queue.onCancellationRequested id q).
Proof.
  intros (_ & _ & Hres & Hbatch & Hdone) Hhas.
  split; [|split; [|split]]; simpl.
  - apply has_true in Hhas. apply list_elem_of_fmap in Hhas as ([k p] & -> & Hin).
    by destruct (Hres _ _ Hin).
  - apply has_delete_same.
  - intros b Hb _ ([k p] & -> & Hin)%list_elem_of_fmap.
    destruct (Hbatch _ _ _ Hb Hin) as (_ & _ & Hno). simpl in Hhas. congruence.
  - intros ([p v] & -> & Hin)%list_elem_of_fmap.
    destruct (Hdone _ _ Hin) as (_ & Hno). simpl in Hhas. congruence.
Qed.
End dropped_facts.

(** C10, as stated, fails: a request is enqueued and flushed, its token
    fires while the batched call is in flight, and the call completes; the
    waiter of the request is resolved all the same, with its entry of the
    result. *)
Lemma cancelled_in_flight_is_resolved :
  let q := Queue.run [Queue.Enqueue Scenario.a; Queue.Timeout; Queue.Cancel 1]
                     Queue.create in
  (waiting <$> batches q) = [[(1, 1)]]
  ∧ resolved (Queue.fanOut 0 (λ _, Some Scenario.M) q) = [(1, Some Scenario.M)].
Proof. vm_compute. done. Qed.

(** C10, amended: on a queue reached in any way, let the token of a request
    fire while the request is still in the maps, that is before the flush.
    The request and its waiter are removed and nothing else happens, and
    whatever follows, the promise of that request is never resolved.  A token
    that fires after the flush does not touch the batch in flight: when that
    batch completes, every waiter it was flushed with is resolved with its
    entry of the result, the waiter of the cancelled request too. *)
Theorem cancelled_before_flush_never_resolved
    (q : DecorationRequestsQueue) (id : nat) (xs : list Queue.action)
    (q' : DecorationRequestsQueue) (id' i : nat) (b : Batch)
    (data : nat → option DecorationData) :
  Queue.reachable q →
  JsMap.has id (_resolver q) = true →
  batches q' !! i = Some b → completed b = false →
  let q1 := Queue.onCancellationRequested id q in
  JsMap.has id (_requests q1) = false
  ∧ JsMap.has id (_resolver q1) = false
  ∧ batches q1 = batches q ∧ resolved q1 = resolved q
  ∧ (id ∉ (resolved (Queue.run xs q1)).*1)
  ∧ batches (Queue.onCancellationRequested id' q') = batches q'
  ∧ resolved (Queue.fanOut i data (Queue.onCancellationRequested id' q'))
    = resolved q' ++ ((λ kv : nat * nat, (kv.2, data kv.1)) <$> waiting b).
Proof.
  intros Hq%queue_reachable_consistent Hhas Hb Hopen q1.
  split; [apply has_delete_same |].
  split; [apply has_delete_same |].
  split; [done |]. split; [done |].
  split.
  - pose proof (cancel_drops id q Hq Hhas) as Hdrop.
    apply (dropped_run xs) in Hdrop; [|by apply queue_consistent_cancel].
    by destruct Hdrop as (_ & _ & _ & Hnever).
  - split; [done |].
    unfold Queue.fanOut. cbn [Queue.onCancellationRequested batches].
    by rewrite Hb, Hopen.
Qed.

(** Two requests in a turn; the token of the first fires before the flush,
    the token of the second after it.  The first promise is never resolved,
    the second one is. *)
Lemma cancelled_before_flush_witness :
  let q := Queue.run [Queue.Enqueue Scenario.a; Queue.Enqueue Scenario.c] Queue.create in
  let q1 := Queue.onCancellationRequested 1 q in
  let rest := [Queue.Timeout; Queue.Cancel 2; Queue.Completed 0 (λ _, Some Scenario.M)] in
  (1 ∉ (resolved (Queue.run rest q1)).*1)
  ∧ resolved (Queue.run rest q1) = [(2, Some Scenario.M)].
Proof.
  cbv zeta. split; [|vm_compute; reflexivity].
  refine (proj1 (proj2 (proj2 (proj2 (proj2
    (cancelled_before_flush_never_resolved
       (Queue.run [Queue.Enqueue Scenario.a; Queue.Enqueue Scenario.c] Queue.create)
       1 [Queue.Timeout; Queue.Cancel 2; Queue.Completed 0 (λ _, Some Scenario.M)]
       (Queue.run [Queue.Enqueue Scenario.c; Queue.Timeout] Queue.create)
       1 0 (mkBatch [mkRequest 1 Scenario.c] [(1, 1)] false) (λ _, Some Scenario.M)
       (ex_intro _ _ eq_refl) eq_refl eq_refl eq_refl)))))).
Defined.

(** * Further properties of the code *)

(** ** The events of a provider *)

Section provider_events.
Implicit Types (s : DecorationsServiceImpl) (w : DecorationProviderWrapper).
Implicit Types (uri k : URI) (a r : nat).

Lemma stale_after_clear r w :
  r < length (calls w) →
  Session.stale r (Wrapper.set_data (TernarySearchTree.clear (data w)) w).
Proof. intros Hlt. split; [done |]. intros k Hk. discriminate. Qed.

Lemma fetchData_cancelled_mono uri w r :
  r ∈ cancelled w → r ∈ cancelled (Wrapper._fetchData uri w).1.2.
Proof.
  intros Hin. rewrite fetchData_unfold. cbv zeta.
  assert (r ∈ cancelled (Wrapper.cleared uri w)) as Hin'.
  { unfold Wrapper.cleared. destruct (Wrapper.get uri w); [|done..].
    simpl. apply elem_of_app. by left. }
  by destruct (provideDecorations _ _ _).
Qed.

Lemma fetchData_cancels uri w r :
  Wrapper.get uri w = Request r → r ∈ cancelled (Wrapper._fetchData uri w).1.2.
Proof.
  intros Hget. rewrite fetchData_unfold. cbv zeta.
  assert (r ∈ cancelled (Wrapper.cleared uri w)) as Hin.
  { unfold Wrapper.cleared. rewrite Hget. simpl. apply elem_of_app. right. left. }
  by destruct (provideDecorations _ _ _).
Qed.

Lemma fetchData_no_flush uri w : FlushFired ∉ (Wrapper._fetchData uri w).2.
Proof.
  destruct (fetchData_fired uri w) as [-> | ->].
  - by intros [=]%list_elem_of_singleton.
  - apply not_elem_of_nil.
Qed.

(** The selective branch of the listener, one resource after the other. *)
Lemma onDidChange_wrapper_fold uris :
  ∀ w ev, (foldl (λ acc uri, let '(_, w', ev') := Wrapper._fetchData uri acc.1 in
                             (w', acc.2 ++ ev')) (w, ev) uris).1
          = (Wrapper.onDidChange (Some uris) w).1.
Proof.
  induction uris as [|u uris IH]; intros w ev; simpl; [done |].
  destruct (Wrapper._fetchData u w) as [[deco w'] ev']. simpl.
  by rewrite (IH w' (ev ++ ev')), (IH w' ev').
Qed.

Lemma onDidChange_cons uri uris w :
  (Wrapper.onDidChange (Some (uri :: uris)) w).1
  = (Wrapper.onDidChange (Some uris) (Wrapper._fetchData uri w).1.2).1.
Proof.
  simpl. destruct (Wrapper._fetchData uri w) as [[deco w'] ev]. simpl.
  apply onDidChange_wrapper_fold.
Qed.

Lemma onDidChange_fired_fold uris :
  ∀ w ev, (foldl (λ acc uri, let '(_, w', ev') := Wrapper._fetchData uri acc.1 in
                             (w', acc.2 ++ ev')) (w, ev) uris).2
          = ev ++ (Wrapper.onDidChange (Some uris) w).2.
Proof.
  induction uris as [|u uris IH]; intros w ev; simpl; [by rewrite app_nil_r |].
  destruct (Wrapper._fetchData u w) as [[deco w'] ev']. simpl.
  rewrite (IH w' (ev ++ ev')), (IH w' ev'). by rewrite app_assoc.
Qed.

Lemma onDidChange_fired_cons uri uris w :
  (Wrapper.onDidChange (Some (uri :: uris)) w).2
  = (Wrapper._fetchData uri w).2
    ++ (Wrapper.onDidChange (Some uris) (Wrapper._fetchData uri w).1.2).2.
Proof.
  simpl. destruct (Wrapper._fetchData uri w) as [[deco w'] ev]. simpl.
  apply onDidChange_fired_fold.
Qed.
End provider_events.

(** X1: a flush event of the provider of a live, subscribed session empties
    the cache of that session and of no other, calls no provider and cancels
    no token; one "affects everything" event is fired on the public emitter
    and nothing on the private one; the next query of any resource asks that
    provider again. *)
Theorem flush_clears_the_session
    (s : DecorationsServiceImpl) (a : nat) (w : DecorationProviderWrapper)
    (uri : URI) (includeChildren : bool) :
  Service.reachable s →
  a ∈ _data s → heap s !! a = Some w → subscribed w = true →
  let s1 := Service.step s (Service.ProviderChanged a None) in
  heap s1 = <[a := Wrapper.set_data ∅ w]> (heap s)
  ∧ _data s1 = _data s
  ∧ Service.onDidChangeDecorations s1 = Service.onDidChangeDecorations s ++ [AffectsAll]
  ∧ _onDidChangeDecorationsDelayed s1 = _onDidChangeDecorationsDelayed s
  ∧ ∃ w2, heap (Service.getDecoration uri includeChildren s1).2 !! a = Some w2
          ∧ calls w2 = calls w ++ [uri].
Proof.
  intros Hreach Ha Hw Hsub s1.
  assert (Service.reachable s1) as Hreach1.
  { destruct Hreach as (xs & ->). exists (xs ++ [Service.ProviderChanged a None]).
    subst s1. unfold Service.run. by rewrite foldl_app. }
  pose proof (reachable_well_formed _ Hreach1) as Hs1.
  assert (heap s1 = <[a := Wrapper.set_data ∅ w]> (heap s)) as Hheap.
  { subst s1. simpl. rewrite on_wrapper_heap, Hw, Hsub. done. }
  assert (_data s1 = _data s) as Hdata by apply on_wrapper__data.
  split; [done |]. split; [done |].
  split; [subst s1; simpl; unfold Service.on_wrapper; by rewrite Hw, Hsub |].
  split; [subst s1; simpl; unfold Service.on_wrapper; by rewrite Hw, Hsub |].
  exists (Wrapper.getOrRetrieve uri includeChildren (Wrapper.set_data ∅ w)).1.2.
  split.
  - rewrite getDecoration_heap by done. rewrite Hdata, decide_True by done.
    rewrite Hheap, list_lookup_insert_eq by (by apply lookup_lt_Some in Hw). done.
  - by rewrite getOrRetrieve_calls.
Qed.

(** [a] is resolved for the one session; after the flush the cache is empty
    and the next query asks the provider again. *)
Lemma flush_clears_witness :
  let s := Service.run [Service.Register Scenario.eager;
                        Service.GetDecoration Scenario.a false] Service.create in
  let s1 := Service.step s (Service.ProviderChanged 0 None) in
  (data <$> heap s !! 0) = Some {[ Scenario.a := Data Scenario.X ]}
  ∧ (data <$> heap s1 !! 0) = Some ∅
  ∧ ∃ w2, heap (Service.getDecoration Scenario.a false s1).2 !! 0 = Some w2
          ∧ calls w2 = [Scenario.a; Scenario.a].
Proof.
  cbv zeta. do 2 (split; [vm_compute; reflexivity |]).
  set (s := Service.run _ _).
  assert (_data s = [0]) as Hdata by (vm_compute; reflexivity).
  destruct (flush_clears_the_session s 0
              (Wrapper.getOrRetrieve Scenario.a false (Wrapper.create Scenario.eager)).1.2
              Scenario.a false (ex_intro _ _ eq_refl)
              (eq_ind_r (λ l, 0 ∈ l) (list_elem_of_here 0 []) Hdata)
              eq_refl eq_refl) as (_ & _ & _ & _ & w2 & Hw2 & Hcalls).
  exists w2. split; [exact Hw2 | exact Hcalls].
Defined.

(** X2: a flush cancels no token, and still the result of every fetch that
    was in flight when it came is dropped: whatever happens afterwards, the
    fulfilment or the rejection of a request made before the flush stores
    nothing, removes nothing and fires nothing. *)
Theorem flush_drops_results_in_flight
    (w : DecorationProviderWrapper) (r : nat) (es : list Session.event)
    (d : option IDecorationData) (err : JsError) :
  subscribed w = true →
  r < length (calls w) →
  let w1 := Session.step w (Session.Changed None) in
  let w2 := Session.run es w1 in
  cancelled w1 = cancelled w
  ∧ Wrapper.fulfilled r d w2 = (w2, [])
  ∧ Wrapper.rejected r err w2 = w2.
Proof.
  intros Hsub Hlt w1 w2.
  assert (Session.stale r w2) as Hstale.
  { apply stale_run. subst w1. simpl. rewrite Hsub. simpl.
    by apply stale_after_clear. }
  split; [subst w1; simpl; by rewrite Hsub |].
  split; [by apply stale_result_dropped |].
  apply rejected_ignored. right. intros (k & _ & Hk).
  destruct Hstale as [_ Hno]. by apply (Hno k).
Qed.

(** A fetch for [a] is in flight when the flush comes; its result arrives
    afterwards and is not stored. *)
Lemma flush_drops_witness :
  let w := Session.run [Session.Query Scenario.a false] (Wrapper.create Scenario.slow) in
  let w1 := Session.step w (Session.Changed None) in
  Wrapper.get Scenario.a w = Request 0
  ∧ Wrapper.fulfilled 0 (Some Scenario.X) w1 = (w1, [])
  ∧ data w1 = ∅.
Proof.
  cbv zeta. split; [vm_compute; reflexivity |]. split; [|vm_compute; reflexivity].
  refine (proj1 (proj2 (flush_drops_results_in_flight
    (Session.run [Session.Query Scenario.a false] (Wrapper.create Scenario.slow))
    0 [] (Some Scenario.X) Scenario.failure eq_refl _))).
  vm_compute. lia.
Defined.

Section selective_change.
Implicit Types (w : DecorationProviderWrapper) (uri k : URI) (r : nat).

Lemma onDidChange_calls uris :
  ∀ w, calls (Wrapper.onDidChange (Some uris) w).1 = calls w ++ uris.
Proof.
  induction uris as [|u uris IH]; intros w; [by rewrite app_nil_r |].
  rewrite onDidChange_cons, IH, fetchData_calls. by rewrite <- app_assoc.
Qed.

Lemma onDidChange_lookup_other uris :
  ∀ w k, k ∉ uris → data (Wrapper.onDidChange (Some uris) w).1 !! k = data w !! k.
Proof.
  induction uris as [|u uris IH]; intros w k Hk; [done |].
  apply not_elem_of_cons in Hk as [Hne Hk].
  rewrite onDidChange_cons, IH by done. by apply fetchData_lookup_ne.
Qed.

Lemma onDidChange_keeps_slots uris :
  ∀ w k, is_Some (data w !! k) → is_Some (data (Wrapper.onDidChange (Some uris) w).1 !! k).
Proof.
  induction uris as [|u uris IH]; intros w k Hk; [done |].
  rewrite onDidChange_cons. apply IH.
  destruct (decide (k = u)) as [->|Hne].
  - rewrite fetchData_lookup. eauto.
  - by rewrite fetchData_lookup_ne.
Qed.

Lemma onDidChange_cancelled_mono uris :
  ∀ w r, r ∈ cancelled w → r ∈ cancelled (Wrapper.onDidChange (Some uris) w).1.
Proof.
  induction uris as [|u uris IH]; intros w r Hr; [done |].
  rewrite onDidChange_cons. by apply IH, fetchData_cancelled_mono.
Qed.

Lemma onDidChange_no_flush uris :
  ∀ w, FlushFired ∉ (Wrapper.onDidChange (Some uris) w).2.
Proof.
  induction uris as [|u uris IH]; intros w; [apply not_elem_of_nil |].
  rewrite onDidChange_fired_cons, elem_of_app.
  intros [Hin | Hin]; [by apply fetchData_no_flush in Hin | by apply IH in Hin].
Qed.
End selective_change.

(** X3: a selective change event makes exactly one [provideDecorations] call
    for every resource it lists, in the order listed, whether or not the
    resource was ever queried; afterwards every listed resource has a slot,
    the slots of the other resources are as before, the token of every
    request that was pending for a listed resource is cancelled, and no flush
    event is fired. *)
Theorem selective_change_fetches_every_listed_resource
    (w : DecorationProviderWrapper) (uris : list URI) :
  let w1 := (Wrapper.onDidChange (Some uris) w).1 in
  calls w1 = calls w ++ uris
  ∧ (∀ k, k ∈ uris → is_Some (data w1 !! k))
  ∧ (∀ k, k ∉ uris → data w1 !! k = data w !! k)
  ∧ (∀ k r, k ∈ uris → Wrapper.get k w = Request r → r ∈ cancelled w1)
  ∧ FlushFired ∉ (Wrapper.onDidChange (Some uris) w).2.
Proof.
  cbv zeta. split; [apply onDidChange_calls |].
  split; [|split; [apply onDidChange_lookup_other |split; [|apply onDidChange_no_flush]]].
  - revert w. induction uris as [|u uris IH]; intros w k Hk; [by apply elem_of_nil in Hk |].
    rewrite onDidChange_cons.
    destruct (decide (k = u)) as [->|Hne].
    + apply onDidChange_keeps_slots. rewrite fetchData_lookup. eauto.
    + apply elem_of_cons in Hk as [->|Hk]; [done |]. by apply IH.
  - revert w. induction uris as [|u uris IH]; intros w k r Hk Hget;
      [by apply elem_of_nil in Hk |].
    rewrite onDidChange_cons.
    destruct (decide (k = u)) as [->|Hne].
    + by apply onDidChange_cancelled_mono, fetchData_cancels.
    + apply elem_of_cons in Hk as [->|Hk]; [done |].
      apply (IH _ k); [done |]. by rewrite get_fetchData_ne.
Qed.

(** ** A disposed session *)

Section disposed_sessions.
Implicit Types (s : DecorationsServiceImpl) (w : DecorationProviderWrapper) (a : nat).

Lemma dispose_dispose w : Wrapper.dispose (Wrapper.dispose w) = Wrapper.dispose w.
Proof. done. Qed.

Lemma fulfilled_disposed r d w :
  Wrapper.fulfilled r d (Wrapper.dispose w) = (Wrapper.dispose w, []).
Proof.
  unfold Wrapper.fulfilled. by destruct (calls (Wrapper.dispose w) !! r).
Qed.

Lemma rejected_disposed r err w :
  Wrapper.rejected r err (Wrapper.dispose w) = Wrapper.dispose w.
Proof.
  unfold Wrapper.rejected. destruct (calls (Wrapper.dispose w) !! r); [|done].
  by rewrite andb_false_r.
Qed.

Lemma on_wrapper_other a b f s :
  b ≠ a → heap (Service.on_wrapper a f s) !! b = heap s !! b.
Proof.
  intros Hne. rewrite on_wrapper_heap. destruct (heap s !! a); [|done].
  by rewrite list_lookup_insert_ne.
Qed.

Lemma on_wrapper_fixed a f s w :
  heap s !! a = Some w → (f w).1 = w → heap (Service.on_wrapper a f s) !! a = Some w.
Proof.
  intros Hw Hf. rewrite on_wrapper_heap, Hw, Hf.
  apply list_lookup_insert_eq. by apply lookup_lt_Some in Hw.
Qed.

Lemma dispose_registration_keeps_out a b s :
  b ∉ _data s → b ∉ _data (Service.dispose_registration a s).
Proof.
  intros Hb Hin. rewrite dispose_registration__data in Hin.
  apply Hb. apply (elem_of_sublist _ _ _ Hin), splice1_sublist.
Qed.

(** The wrapper at [a] is disposed and out of the array: no action changes
    that. *)
Lemma disposed_step a w s x :
  Service.well_formed s →
  heap s !! a = Some (Wrapper.dispose w) → a ∉ _data s →
  heap (Service.step s x) !! a = Some (Wrapper.dispose w) ∧ a ∉ _data (Service.step s x).
Proof.
  intros Hwf Hw Ha.
  destruct x as [p | b | uri inc | b uris | b r d | b r err]; simpl.
  - split.
    + apply lookup_app_l_Some, Hw.
    + rewrite elem_of_app, list_elem_of_singleton. intros [Hin | ->]; [done |].
      apply lookup_lt_Some in Hw. lia.
  - case_bool_decide; [|done]. split; [|by apply dispose_registration_keeps_out].
    unfold Service.dispose_registration.
    destruct (decide (b = a)) as [->|Hne].
    + apply on_wrapper_fixed; [by rewrite dispose_fire_heap | done].
    + rewrite on_wrapper_other by done. by rewrite dispose_fire_heap.
  - split.
    + rewrite getDecoration_heap by done. by rewrite decide_False.
    + unfold Service.getDecoration. by rewrite getDecoration__data.
  - rewrite on_wrapper__data. split; [|done].
    destruct (decide (b = a)) as [->|Hne]; [|by rewrite on_wrapper_other].
    by apply on_wrapper_fixed.
  - rewrite on_wrapper__data. split; [|done].
    destruct (decide (b = a)) as [->|Hne]; [|by rewrite on_wrapper_other].
    apply on_wrapper_fixed; [done |]. by rewrite fulfilled_disposed.
  - rewrite on_wrapper__data. split; [|done].
    destruct (decide (b = a)) as [->|Hne]; [|by rewrite on_wrapper_other].
    apply on_wrapper_fixed; [done |]. simpl. by rewrite rejected_disposed.
Qed.

Lemma disposed_run a w xs :
  ∀ s, Service.well_formed s →
       heap s !! a = Some (Wrapper.dispose w) → a ∉ _data s →
       heap (Service.run xs s) !! a = Some (Wrapper.dispose w) ∧ a ∉ _data (Service.run xs s).
Proof.
  induction xs as [|x xs IH]; intros s Hwf Hw Ha; [done |].
  destruct (disposed_step a w s x Hwf Hw Ha) as [Hw' Ha'].
  simpl. apply IH; [by apply well_formed_step | done | done].
Qed.

Lemma dispose_registration_removes a s :
  NoDup (_data s) → a ∉ _data (Service.dispose_registration a s).
Proof.
  intros Hnd. destruct (decide (a ∈ _data s)) as [Hin|Hnin].
  - rewrite dispose_registration__data. intros Hin'.
    apply (splice1_live _ a a Hnd Hin) in Hin' as [_ Hne]. done.
  - by apply dispose_registration_keeps_out.
Qed.
End disposed_sessions.

(** X5: once the handle of a registration has been invoked, its session is
    inert.  Whatever happens afterwards (queries, events of its provider,
    results of the fetches it had in flight, other registrations and
    disposals) the wrapper stays as the disposal left it: the cache empty,
    no further [provideDecorations] call, no further token cancelled; and it
    is never in the live set again. *)
Theorem disposed_session_is_inert
    (s : DecorationsServiceImpl) (a : nat) (w : DecorationProviderWrapper)
    (xs : list Service.action) :
  Service.reachable s →
  heap s !! a = Some w →
  let s1 := Service.step s (Service.DisposeRegistration a) in
  heap (Service.run xs s1) !! a = Some (Wrapper.dispose w)
  ∧ (a ∉ _data (Service.run xs s1))
  ∧ data (Wrapper.dispose w) = ∅
  ∧ calls (Wrapper.dispose w) = calls w
  ∧ cancelled (Wrapper.dispose w) = cancelled w.
Proof.
  intros Hwf%reachable_well_formed Hw s1.
  assert (a < length (heap s)) as Hlt by (by apply lookup_lt_Some in Hw).
  assert (Service.well_formed s1) as Hwf1 by (by apply well_formed_step).
  assert (heap s1 !! a = Some (Wrapper.dispose w)) as Hw1.
  { subst s1. simpl. rewrite bool_decide_eq_true_2 by done.
    rewrite (dispose_registration_heap a s w Hw).
    by apply list_lookup_insert_eq. }
  assert (a ∉ _data s1) as Ha1.
  { subst s1. simpl. rewrite bool_decide_eq_true_2 by done.
    apply dispose_registration_removes. by destruct Hwf. }
  destruct (disposed_run a w xs s1 Hwf1 Hw1 Ha1) as [Hfinal Hout].
  by repeat split.
Qed.

(** A fetch is in flight when the registration is disposed; its result, a
    change event of the provider and a query come afterwards and leave the
    wrapper as it was. *)
Lemma disposed_session_witness :
  let s := Service.run [Service.Register Scenario.slow;
                        Service.GetDecoration Scenario.a false] Service.create in
  let s2 := Service.run [Service.DisposeRegistration 0;
                         Service.PromiseFulfilled 0 0 (Some Scenario.X);
                         Service.ProviderChanged 0 (Some [Scenario.a]);
                         Service.GetDecoration Scenario.a false] s in
  (data <$> heap s2 !! 0) = Some ∅ ∧ (calls <$> heap s2 !! 0) = Some [Scenario.a].
Proof.
  cbv zeta.
  destruct (disposed_session_is_inert
              (Service.run [Service.Register Scenario.slow;
                            Service.GetDecoration Scenario.a false] Service.create)
              0 (Wrapper.getOrRetrieve Scenario.a false (Wrapper.create Scenario.slow)).1.2
              [Service.PromiseFulfilled 0 0 (Some Scenario.X);
               Service.ProviderChanged 0 (Some [Scenario.a]);
               Service.GetDecoration Scenario.a false]
              (ex_intro _ _ eq_refl) eq_refl) as (Hw & _).
  cbv zeta in Hw.
  change (Service.run (Service.DisposeRegistration 0 :: ?xs) ?s)
    with (Service.run xs (Service.step s (Service.DisposeRegistration 0))).
  rewrite Hw. split; reflexivity.
Defined.

(** ** Queries that fetch nothing, and queries that always fetch *)

Section settled_queries.
Implicit Types (s : DecorationsServiceImpl) (w : DecorationProviderWrapper).
Implicit Types (uri : URI) (a : nat).

Lemma getOrRetrieve_settled uri includeChildren w :
  Wrapper.get uri w ≠ Undefined →
  (Wrapper.getOrRetrieve uri includeChildren w).1.2 = w
  ∧ (Wrapper.getOrRetrieve uri includeChildren w).2 = [].
Proof.
  intros Hget. rewrite getOrRetrieve_wrapper, getOrRetrieve_fired.
  by destruct (Wrapper.get uri w).
Qed.

Lemma set_heap_same s : Service.set_heap (heap s) s = s.
Proof. by destruct s. Qed.

Lemma getDecoration_loop_settled uri includeChildren (wrappers : list nat) :
  ∀ acc s,
    (∀ a w, a ∈ wrappers → heap s !! a = Some w → Wrapper.get uri w ≠ Undefined) →
    (Service.getDecoration_loop wrappers uri includeChildren acc s).2 = s.
Proof.
  induction wrappers as [|a wrappers IH]; intros acc s Hsettled; [done |].
  simpl. destruct (heap s !! a) as [w|] eqn:Hw.
  - destruct (getOrRetrieve_settled uri includeChildren w) as [Hsame Hquiet].
    { apply (Hsettled a); [left | done]. }
    destruct (Wrapper.getOrRetrieve uri includeChildren w) as [[cbs w'] ev].
    simpl in Hsame, Hquiet. subst w' ev.
    rewrite list_insert_id by done. simpl. rewrite set_heap_same.
    apply IH. intros b w' Hb. apply Hsettled. by right.
  - apply IH. intros b w' Hb. apply Hsettled. by right.
Qed.

Lemma getOrRetrieve_provider uri includeChildren w :
  provider (Wrapper.getOrRetrieve uri includeChildren w).1.2 = provider w.
Proof.
  rewrite getOrRetrieve_wrapper. destruct (Wrapper.get uri w); [done | done |].
  apply fetchData_provider.
Qed.
End settled_queries.

(** X6: a query of a resource that every live session holds as pending or
    as a present decoration changes nothing at all: no provider is called, no
    cache is written, nothing is fired. *)
Theorem query_of_settled_resource_changes_nothing
    (s : DecorationsServiceImpl) (uri : URI) (includeChildren : bool) :
  (∀ a w, a ∈ _data s → heap s !! a = Some w → Wrapper.get uri w ≠ Undefined) →
  (Service.getDecoration uri includeChildren s).2 = s.
Proof. apply getDecoration_loop_settled. Qed.

(** One session holds a pending request for [a], the other a decoration: a
    second query leaves the service as it is. *)
Lemma query_of_settled_witness :
  let s := Service.run [Service.Register Scenario.slow; Service.Register Scenario.eager;
                        Service.GetDecoration Scenario.a false] Service.create in
  (Service.getDecoration Scenario.a false s).2 = s.
Proof.
  cbv zeta. apply query_of_settled_resource_changes_nothing.
  intros a w Ha Hw.
  apply list_elem_of_In in Ha. vm_compute in Ha.
  destruct Ha as [<- | [<- | []]]; vm_compute in Hw; injection Hw as <-; discriminate.
Defined.

(** X7: an empty answer is not remembered.  When the provider answers a
    resource at once with [undefined], the slot holds the empty value, which
    a query cannot tell from an absent slot: [n] queries in a row make [n]
    [provideDecorations] calls. *)
Theorem empty_answer_is_asked_again
    (w : DecorationProviderWrapper) (uri : URI) (includeChildren : bool) (n : nat) :
  (∀ history, provideDecorations (provider w) history uri = PUndefined) →
  Wrapper.get uri w = Undefined →
  let w' := Session.run (replicate n (Session.Query uri includeChildren)) w in
  calls w' = calls w ++ replicate n uri
  ∧ (0 < n → data w' !! uri = Some Undefined).
Proof.
  intros Hblank. revert w Hblank.
  induction n as [|n IH]; intros w Hblank Hget; cbv zeta.
  { simpl. rewrite app_nil_r. split; [done | lia]. }
  set (w1 := (Wrapper.getOrRetrieve uri includeChildren w).1.2).
  assert (data w1 !! uri = Some Undefined) as Hslot.
  { subst w1. rewrite getOrRetrieve_wrapper, Hget, fetchData_lookup. by rewrite Hblank. }
  assert (calls w1 = calls w ++ [uri]) as Hcalls.
  { subst w1. by rewrite getOrRetrieve_calls, Hget. }
  destruct (IH w1) as [Hrest Hlast].
  { intros history. subst w1. rewrite getOrRetrieve_provider. apply Hblank. }
  { by apply get_lookup. }
  change (Session.run (replicate (S n) ?e) w) with (Session.run (replicate n e) w1).
  split.
  - rewrite Hrest, Hcalls, <- app_assoc. done.
  - intros _. destruct n as [|n]; [done |]. apply Hlast. lia.
Qed.

(** Three queries of [c], which the provider answers with nothing: three
    calls. *)
Lemma empty_answer_witness :
  let w := Session.run (replicate 3 (Session.Query Scenario.c false))
                       (Wrapper.create Scenario.blank) in
  calls w = [Scenario.c; Scenario.c; Scenario.c].
Proof.
  cbv zeta.
  exact (proj1 (empty_answer_is_asked_again (Wrapper.create Scenario.blank)
                  Scenario.c false 3 (λ _, eq_refl) eq_refl)).
Defined.

(** ** The order of the providers *)

Section registration_order.
Implicit Types (s : DecorationsServiceImpl) (a : nat).

(** The array lists the live wrappers by address, which is the order in
    which they were registered. *)
Lemma splice1_sorted start (l : list nat) :
  StronglySorted lt l → StronglySorted lt (Service.splice1 start l).
Proof.
  unfold Service.splice1. set (from := Z.to_nat _). intros Hl.
  rewrite <- (take_drop from l) in Hl.
  apply StronglySorted_app in Hl as (Hcross & Hleft & Hright).
  apply StronglySorted_app. split; [|split; [done |]].
  - intros x y Hx Hy. apply Hcross; [done |].
    replace (S from) with (from + 1) in Hy by lia.
    rewrite <- drop_drop in Hy. apply (elem_of_sublist _ _ _ Hy), sublist_drop.
  - replace (S from) with (from + 1) by lia. rewrite <- drop_drop.
    rewrite <- (take_drop 1 (drop from l)) in Hright.
    by apply StronglySorted_app in Hright as (_ & _ & Hright).
Qed.

Lemma sorted_step s x :
  Service.well_formed s → StronglySorted lt (_data s) →
  StronglySorted lt (_data (Service.step s x)).
Proof.
  intros [_ Hlt] Hs. destruct x as [p | a | uri inc | a uris | a r d | a r err]; simpl.
  - apply StronglySorted_app. split; [|split; [done |]].
    + intros x y Hx ->%list_elem_of_singleton. by apply Hlt.
    + repeat constructor.
  - case_bool_decide; [|done]. rewrite dispose_registration__data.
    by apply splice1_sorted.
  - unfold Service.getDecoration. by rewrite getDecoration__data.
  - by rewrite on_wrapper__data.
  - by rewrite on_wrapper__data.
  - by rewrite on_wrapper__data.
Qed.

Lemma reachable_sorted s : Service.reachable s → StronglySorted lt (_data s).
Proof.
  intros (xs & ->). induction xs as [|x xs IH] using rev_ind; [constructor |].
  unfold Service.run in *. rewrite foldl_app. simpl.
  apply sorted_step; [|done]. apply reachable_well_formed. by exists xs.
Qed.
(** What one session contributes to a result: first its own decoration for
    the resource, then the decorations that bubble up from the resources
    below. *)
Lemma contribution_shape (uri : URI) (includeChildren : bool)
    (w : DecorationProviderWrapper) :
  ∃ below,
    Service.contribution uri includeChildren w = Service.own uri w ++ below
    ∧ ∀ d, d ∈ below ↔
           includeChildren = true ∧ bubble d = Some true
           ∧ ∃ k, isSuperstr uri k = true ∧ data w !! k = Some (Data d).
Proof.
  unfold Service.contribution.
  pose proof (child_callback uri includeChildren w) as Hchild.
  rewrite getOrRetrieve_callbacks in Hchild |- *.
  set (children := if includeChildren then _ else _) in *.
  rewrite filter_app, fmap_app.
  exists (filter (λ cb, Service.pushed cb = true) children).*1. split.
  - f_equal. rewrite getOrRetrieve_wrapper. unfold Service.own, Service.answered_now.
    destruct (Wrapper.get uri w) as [r | d |] eqn:Hget.
    + by rewrite Hget.
    + by rewrite Hget.
    + rewrite get_fetchData_eq. by destruct (provideDecorations _ _ _).
  - assert (∀ cb, cb ∈ children → cb.2 = true) as Hflag.
    { intros cb. unfold children. destruct includeChildren; [|by intros ?%elem_of_nil].
      destruct (TernarySearchTree.findSuperstr _ _); [|by intros ?%elem_of_nil].
      by intros (d' & -> & _)%list_elem_of_fmap. }
    assert (∀ d, (d, true) ∈ children ↔
                 includeChildren = true
                 ∧ ∃ k, isSuperstr uri k = true ∧ data w !! k = Some (Data d)) as Hin.
    { intros d. rewrite <- Hchild, elem_of_app. split; [by right |].
      intros [Hown | Hc]; [|done].
      destruct (Wrapper.get uri _); [by apply elem_of_nil in Hown | | by apply elem_of_nil in Hown].
      by apply list_elem_of_singleton in Hown. }
    intros d. rewrite list_elem_of_fmap. split.
    + intros ([d' flag] & -> & [Hpush Hcb]%list_elem_of_filter). simpl.
      pose proof (Hflag _ Hcb) as Hf. simpl in Hf. subst flag.
      apply Hin in Hcb as [Hinc Hk]. split; [done |]. split; [|done].
      unfold Service.pushed in Hpush. simpl in Hpush.
      by apply bool_decide_eq_true in Hpush.
    + intros (Hinc & Hbubble & Hk). exists (d, true). split; [done |].
      apply list_elem_of_filter. split; [|by apply Hin].
      unfold Service.pushed. simpl. by apply bool_decide_eq_true.
Qed.
End registration_order.

(** X4: in a service reached in any way the array of live wrappers is in
    registration order (a wrapper registered earlier stands before one
    registered later, also after disposals), and [getDecoration] lists,
    session after session in that order, first the session's own decoration
    of the resource (the one in its slot, or the one its provider answers at
    once when the slot has nothing), then the decorations with the bubble
    flag that the session holds for resources strictly below it, these only
    when children are asked for. *)
Theorem providers_are_asked_in_registration_order
    (s : DecorationsServiceImpl) (uri : URI) (includeChildren : bool) :
  Service.reachable s →
  StronglySorted lt (_data s)
  ∧ ∃ below : nat → list IDecorationData,
      (Service.getDecoration uri includeChildren s).1
      = _data s ≫= (λ a, from_option (Service.own uri) [] (heap s !! a) ++ below a)
      ∧ ∀ a w d, heap s !! a = Some w →
          (d ∈ below a ↔
           includeChildren = true ∧ bubble d = Some true
           ∧ ∃ k, isSuperstr uri k = true ∧ data w !! k = Some (Data d)).
Proof.
  intros Hs. split; [by apply reachable_sorted |].
  exists (λ a, from_option
                 (λ w, drop (length (Service.own uri w))
                            (Service.contribution uri includeChildren w))
                 [] (heap s !! a)).
  split.
  - rewrite getDecoration_result by by apply reachable_well_formed.
    apply list_bind_ext; [|done]. intros a.
    destruct (heap s !! a) as [w|]; [|done]. simpl.
    destruct (contribution_shape uri includeChildren w) as (below & -> & _).
    by rewrite drop_app_length.
  - intros a w d ->. simpl.
    destruct (contribution_shape uri includeChildren w) as (below & -> & Hbelow).
    by rewrite drop_app_length.
Qed.

(** Three providers, the second one unregistered: the first and the third
    are left, in that order. *)
Lemma registration_order_witness :
  let s := Service.run [Service.Register Scenario.eager; Service.Register Scenario.slow;
                        Service.Register Scenario.eager; Service.DisposeRegistration 1]
                       Service.create in
  _data s = [0; 2] ∧ StronglySorted lt (_data s)
  ∧ (Service.getDecoration Scenario.a true s).1 = [Scenario.X; Scenario.X].
Proof.
  cbv zeta. split; [vm_compute; reflexivity |].
  split; [|vm_compute; reflexivity].
  exact (proj1 (providers_are_asked_in_registration_order _ Scenario.a true
                  (ex_intro _ _ eq_refl))).
Defined.

(** ** The queue: timers, ids, waiters *)

Section queue_counts.
Implicit Types (q : DecorationRequestsQueue) (x : Queue.action).

Lemma timers_step q x :
  timeouts q = length (batches q) + (if _timer q is Some _ then 1 else 0) →
  (∀ handle, _timer q = Some handle → handle = timeouts q) →
  timeouts (Queue.step q x)
  = length (batches (Queue.step q x)) + (if _timer (Queue.step q x) is Some _ then 1 else 0)
  ∧ (∀ handle, _timer (Queue.step q x) = Some handle → handle = timeouts (Queue.step q x)).
Proof.
  intros Hcount Hhandle. destruct x as [u | k | | i data]; simpl.
  - unfold Queue._processQueue. simpl. destruct (_timer q) as [h|] eqn:Ht; simpl.
    + split; [done |]. intros handle [= <-]. by apply Hhandle.
    + split; [lia |]. by intros handle [= <-].
  - done.
  - unfold Queue.timeout. destruct (_timer q) as [h|] eqn:Ht; simpl.
    + rewrite length_app. simpl. split; [lia | done].
    + by rewrite Ht.
  - unfold Queue.fanOut. destruct (batches q !! i) as [b|]; [|done].
    destruct (completed b); [done |]. simpl. by rewrite length_insert.
Qed.
End queue_counts.

(** X8: at most one flush is scheduled at a time, and every batched call
    comes from a timer of its own: on a queue reached in any way the number
    of [setTimeout] calls is the number of batched calls made, plus one when
    a timer is pending, whose handle is then the one of the latest call. *)
Theorem one_timer_per_batched_call (q : DecorationRequestsQueue) :
  Queue.reachable q →
  timeouts q = length (batches q) + (if _timer q is Some _ then 1 else 0)
  ∧ (∀ handle, _timer q = Some handle → handle = timeouts q).
Proof.
  intros (xs & ->). induction xs as [|x xs IH] using rev_ind; [done |].
  unfold Queue.run in *. rewrite foldl_app. simpl.
  destruct IH as [Hcount Hhandle]. by apply timers_step.
Qed.

(** Two turns and a third one begun: three timers, two batched calls, one
    timer pending. *)
Lemma one_timer_witness :
  let q := Queue.run [Queue.Enqueue Scenario.a; Queue.Enqueue Scenario.c; Queue.Timeout;
                      Queue.Enqueue Scenario.a; Queue.Timeout;
                      Queue.Enqueue Scenario.c; Queue.Enqueue Scenario.a] Queue.create in
  timeouts q = 3 ∧ length (batches q) = 2 ∧ _timer q = Some 3.
Proof.
  cbv zeta.
  pose proof (one_timer_per_batched_call _ (ex_intro _
    [Queue.Enqueue Scenario.a; Queue.Enqueue Scenario.c; Queue.Timeout;
     Queue.Enqueue Scenario.a; Queue.Timeout;
     Queue.Enqueue Scenario.c; Queue.Enqueue Scenario.a] eq_refl)) as [Hcount _].
  split; [|split; reflexivity]. rewrite Hcount. reflexivity.
Defined.

Section queue_ids.
Implicit Types (q : DecorationRequestsQueue) (x : Queue.action).

Lemma delete_keys_sublist {V} k (m : list (nat * V)) :
  (JsMap.delete k m).*1 `sublist_of` m.*1.
Proof. unfold JsMap.delete. apply fmap_sublist, sublist_filter. Qed.

Lemma values_ids (m : list (nat * DecorationRequest)) :
  (∀ k req, (k, req) ∈ m → id req = k) → id <$> JsMap.values m = m.*1.
Proof.
  unfold JsMap.values. induction m as [|[k req] m IH]; intros Hkeys; [done |].
  simpl. rewrite (Hkeys k req) by left. f_equal. apply IH.
  intros k' req' Hin. apply Hkeys. by right.
Qed.

Lemma bind_insert_same {A B} (f : A → list B) (l : list A) i (b b' : A) :
  l !! i = Some b → f b' = f b → <[i := b']> l ≫= f = l ≫= f.
Proof.
  intros Hb Hf. rewrite insert_take_drop by (by apply lookup_lt_Some in Hb).
  rewrite <- (take_drop_middle l i b Hb) at 3.
  rewrite !bind_app. f_equal.
  change ((?y :: ?k) ≫= f) with (f y ++ (k ≫= f)). by rewrite Hf.
Qed.

Lemma sent_ids_fanOut i data q : Queue.sent_ids (Queue.fanOut i data q) = Queue.sent_ids q.
Proof.
  unfold Queue.fanOut, Queue.sent_ids.
  destruct (batches q !! i) as [b|] eqn:Hb; [|done].
  destruct (completed b); [done |]. simpl.
  by apply (bind_insert_same _ _ _ b).
Qed.

Lemma ids_step q x :
  Queue.consistent q →
  NoDup (Queue.sent_ids q ++ (_requests q).*1) → Queue.bounded q →
  NoDup (Queue.sent_ids (Queue.step q x) ++ (_requests (Queue.step q x)).*1)
  ∧ Queue.bounded (Queue.step q x).
Proof.
  intros Hq Hnd Hbound. destruct x as [u | k | | i data].
  - cbn [Queue.step]. rewrite enqueue_unfold by done.
    unfold Queue.bounded, Queue.sent_ids. cbn [_requests _idPool batches].
    fold (Queue.sent_ids q). rewrite fmap_app, app_assoc. simpl. split.
    + apply NoDup_app. split; [done |]. split; [|apply NoDup_singleton].
      intros k Hk ->%list_elem_of_singleton. apply Hbound in Hk. lia.
    + intros k [Hk | ->%list_elem_of_singleton]%elem_of_app; [|lia].
      apply Hbound in Hk. lia.
  - simpl. unfold Queue.bounded, Queue.sent_ids. simpl. fold (Queue.sent_ids q).
    assert (Queue.sent_ids q ++ (JsMap.delete k (_requests q)).*1
            `sublist_of` Queue.sent_ids q ++ (_requests q).*1) as Hsub.
    { apply sublist_app; [done | apply delete_keys_sublist]. }
    split; [by apply (sublist_NoDup _ _ Hnd) |].
    intros k' Hk'. apply Hbound. by apply (elem_of_sublist _ _ _ Hk').
  - simpl. unfold Queue.timeout. destruct (_timer q) as [handle|]; [|done].
    unfold Queue.bounded, Queue.sent_ids. simpl. fold (Queue.sent_ids q).
    rewrite bind_app. simpl. rewrite !app_nil_r.
    destruct Hq as (_ & Hreq & _).
    rewrite values_ids by (intros k req Hin; by apply Hreq). done.
  - simpl. unfold Queue.bounded. rewrite sent_ids_fanOut.
    unfold Queue.fanOut. destruct (batches q !! i) as [b|]; [|done].
    by destruct (completed b).
Qed.

Lemma reachable_ids q :
  Queue.reachable q →
  NoDup (Queue.sent_ids q ++ (_requests q).*1) ∧ Queue.bounded q.
Proof.
  intros (xs & ->). induction xs as [|x xs IH] using rev_ind.
  - split; [constructor | by intros k ?%elem_of_nil].
  - unfold Queue.run in *. rewrite foldl_app. simpl. destruct IH as [Hnd Hbound].
    apply ids_step; [|done..]. apply queue_reachable_consistent. by exists xs.
Qed.
End queue_ids.

(** X9: on a queue reached in any way no request id is ever sent twice,
    neither within one batched call nor in two of them, and no id that was
    sent is still filed for a later batch; ids start at one and never pass
    the pool. *)
Theorem request_ids_are_sent_once (q : DecorationRequestsQueue) :
  Queue.reachable q →
  NoDup (Queue.sent_ids q ++ (_requests q).*1)
  ∧ (∀ b, b ∈ batches q → NoDup (id <$> sent b))
  ∧ (∀ k, k ∈ Queue.sent_ids q ++ (_requests q).*1 → 1 ≤ k ≤ _idPool q).
Proof.
  intros Hq. destruct (reachable_ids q Hq) as [Hnd Hbound].
  split; [done |]. split; [|done].
  intros b (i & Hb)%list_elem_of_lookup.
  apply NoDup_app in Hnd as (Hsent & _).
  unfold Queue.sent_ids in Hsent. rewrite <- (take_drop_middle _ i b Hb) in Hsent.
  rewrite bind_app in Hsent. apply NoDup_app in Hsent as (_ & _ & Hsent).
  change ((b :: ?k) ≫= ?f) with (f b ++ (k ≫= f)) in Hsent.
  by apply NoDup_app in Hsent as (Hsent & _).
Qed.

(** Two batches and a request filed for the third: the ids are 1, 2, 3 and
    4. *)
Lemma request_ids_witness :
  let q := Queue.run [Queue.Enqueue Scenario.a; Queue.Enqueue Scenario.a; Queue.Timeout;
                      Queue.Enqueue Scenario.a; Queue.Timeout;
                      Queue.Enqueue Scenario.a] Queue.create in
  Queue.sent_ids q = [1; 2; 3] ∧ (_requests q).*1 = [4]
  ∧ NoDup (Queue.sent_ids q ++ (_requests q).*1).
Proof.
  cbv zeta. do 2 (split; [reflexivity |]).
  exact (proj1 (request_ids_are_sent_once _ (ex_intro _
    [Queue.Enqueue Scenario.a; Queue.Enqueue Scenario.a; Queue.Timeout;
     Queue.Enqueue Scenario.a; Queue.Timeout; Queue.Enqueue Scenario.a] eq_refl))).
Defined.

Section queue_waiters.
Implicit Types (q : DecorationRequestsQueue) (x : Queue.action).

Lemma keys_are_promises (m : list (nat * nat)) :
  (∀ k p, (k, p) ∈ m → p = k) → m.*2 = m.*1.
Proof.
  induction m as [|[k p] m IH]; intros Hm; [done |].
  simpl. rewrite (Hm k p) by left. f_equal. apply IH.
  intros k' p' Hin. apply Hm. by right.
Qed.

Lemma fanned_promises (data : nat → option DecorationData) (m : list (nat * nat)) :
  ((λ kv : nat * nat, (kv.2, data kv.1)) <$> m).*1 = m.*2.
Proof. induction m as [|[k p] m IH]; [done |]. cbn. by f_equal. Qed.

Lemma awaited_open i b q :
  batches q !! i = Some b → completed b = false →
  Queue.awaited q
  = (take i (batches q) ≫= λ b, if completed b then [] else (waiting b).*1)
    ++ (waiting b).*1
    ++ (drop (S i) (batches q) ≫= λ b, if completed b then [] else (waiting b).*1).
Proof.
  intros Hb Hopen. unfold Queue.awaited.
  rewrite <- (take_drop_middle _ i b Hb) at 1. rewrite bind_app.
  change ((b :: ?k) ≫= ?f) with (f b ++ (k ≫= f)). cbv beta. by rewrite Hopen.
Qed.

Lemma awaited_closed i b b' q :
  batches q !! i = Some b → completed b' = true →
  (<[i := b']> (batches q) ≫= λ b, if completed b then [] else (waiting b).*1)
  = (take i (batches q) ≫= λ b, if completed b then [] else (waiting b).*1)
    ++ (drop (S i) (batches q) ≫= λ b, if completed b then [] else (waiting b).*1).
Proof.
  intros Hb Hclosed. rewrite insert_take_drop by (by apply lookup_lt_Some in Hb).
  rewrite bind_app. change ((b' :: ?k) ≫= ?f) with (f b' ++ (k ≫= f)).
  cbv beta. by rewrite Hclosed.
Qed.

Lemma elem_of_awaited k q :
  k ∈ Queue.awaited q → ∃ b p, b ∈ batches q ∧ (k, p) ∈ waiting b.
Proof.
  unfold Queue.awaited. intros (b & Hk & Hb)%list_elem_of_bind.
  destruct (completed b); [by apply elem_of_nil in Hk |].
  apply list_elem_of_fmap in Hk as ([k' p] & -> & Hin). eauto.
Qed.

Lemma NoDup_snoc3 {A} (l1 l2 l3 : list A) (x : A) :
  NoDup (l1 ++ l2 ++ l3) → x ∉ l1 ++ l2 ++ l3 → NoDup (l1 ++ l2 ++ l3 ++ [x]).
Proof.
  intros Hnd Hx. rewrite (app_assoc l2), (app_assoc l1).
  apply NoDup_app. split; [done |]. split; [|apply NoDup_singleton].
  by intros y Hy ->%list_elem_of_singleton.
Qed.

Lemma waiters_step q x :
  Queue.consistent q →
  NoDup ((resolved q).*1 ++ Queue.awaited q ++ (_resolver q).*1) →
  NoDup ((resolved (Queue.step q x)).*1 ++ Queue.awaited (Queue.step q x)
         ++ (_resolver (Queue.step q x)).*1).
Proof.
  intros Hq Hnd. destruct x as [u | k | | i data].
  - cbn [Queue.step]. rewrite enqueue_unfold by done.
    unfold Queue.awaited. cbn [_resolver batches resolved]. fold (Queue.awaited q).
    rewrite fmap_app. simpl. apply NoDup_snoc3; [done |].
    destruct Hq as (_ & _ & Hres & Hbatch & Hdone).
    intros Hk.
    apply elem_of_app in Hk as [Hk | [Hk | Hk]%elem_of_app].
    + apply list_elem_of_fmap in Hk as ([p v] & Heq & Hin).
      apply Hdone in Hin as [Hle _]. simpl in Heq. lia.
    + apply elem_of_awaited in Hk as (b & p & Hb & Hin).
      destruct (Hbatch _ _ _ Hb Hin) as (_ & Hle & _). lia.
    + apply list_elem_of_fmap in Hk as ([k' p] & Heq & Hin).
      apply Hres in Hin as [_ Hle]. simpl in Heq. lia.
  - simpl. unfold Queue.awaited. simpl. fold (Queue.awaited q).
    apply (sublist_NoDup _ _ Hnd).
    apply sublist_app; [done |]. apply sublist_app; [done | apply delete_keys_sublist].
  - simpl. unfold Queue.timeout. destruct (_timer q) as [handle|]; [|done].
    unfold Queue.awaited. simpl. fold (Queue.awaited q).
    rewrite bind_app. simpl. rewrite !app_nil_r. exact Hnd.
  - simpl. unfold Queue.fanOut.
    destruct (batches q !! i) as [b|] eqn:Hb; [|done].
    destruct (completed b) eqn:Hopen; [done |].
    unfold Queue.awaited at 1. cbn [_resolver batches resolved].
    rewrite (awaited_closed i b (mkBatch (sent b) (waiting b) true) q Hb eq_refl).
    rewrite (awaited_open i b q Hb Hopen) in Hnd.
    rewrite fmap_app, fanned_promises.
    destruct Hq as (_ & _ & _ & Hbatch & _).
    assert (b ∈ batches q) as Hin by (apply list_elem_of_lookup; eauto).
    rewrite keys_are_promises
      by (intros k p Hkp; by destruct (Hbatch _ _ _ Hin Hkp)).
    revert Hnd. apply NoDup_Permutation_proper.
    rewrite <- !app_assoc. apply Permutation_app_head.
    rewrite !app_assoc. apply Permutation_app_tail.
    rewrite <- !app_assoc. apply Permutation_app_swap_app.
Qed.

Lemma reachable_waiters q :
  Queue.reachable q → NoDup ((resolved q).*1 ++ Queue.awaited q ++ (_resolver q).*1).
Proof.
  intros (xs & ->). induction xs as [|x xs IH] using rev_ind; [constructor |].
  unfold Queue.run in *. rewrite foldl_app. simpl.
  apply waiters_step; [|done]. apply queue_reachable_consistent. by exists xs.
Qed.

(** *** The two maps stay aligned *)

Lemma delete_aligned k (m : list (nat * DecorationRequest)) :
  JsMap.delete k ((λ kv : nat * DecorationRequest, (kv.1, kv.1)) <$> m)
  = (λ kv : nat * DecorationRequest, (kv.1, kv.1)) <$> JsMap.delete k m.
Proof.
  unfold JsMap.delete. induction m as [|[k' req] m IH]; [done |].
  rewrite fmap_cons, !filter_cons. cbn [fst].
  destruct (decide (k' ≠ k)); [rewrite fmap_cons; cbn [fst]|]; by rewrite IH.
Qed.

Lemma flushed_aligned (m : list (nat * DecorationRequest)) :
  (∀ k req, (k, req) ∈ m → id req = k) →
  (λ kv : nat * DecorationRequest, (kv.1, kv.1)) <$> m
  = (λ req, (id req, id req)) <$> JsMap.values m.
Proof.
  unfold JsMap.values. induction m as [|[k req] m IH]; intros Hkeys; [done |].
  simpl. rewrite (Hkeys k req) by left. f_equal. apply IH.
  intros k' req' Hin. apply Hkeys. by right.
Qed.

Lemma aligned_step q x :
  Queue.consistent q → Queue.aligned q → Queue.aligned (Queue.step q x).
Proof.
  intros Hq [Hmaps Hbatches]. destruct x as [u | k | | i data].
  - cbn [Queue.step]. rewrite enqueue_unfold by done. split; [|done].
    cbn [_resolver _requests]. by rewrite fmap_app, Hmaps.
  - split; [|done]. simpl. rewrite Hmaps. apply delete_aligned.
  - simpl. unfold Queue.timeout. destruct (_timer q) as [handle|]; [|done].
    split; [done |]. simpl.
    intros b [Hb | ->%list_elem_of_singleton]%elem_of_app; [by apply Hbatches |].
    simpl. rewrite Hmaps. apply flushed_aligned.
    destruct Hq as (_ & Hreq & _). intros k req Hin. by apply Hreq.
  - simpl. unfold Queue.fanOut.
    destruct (batches q !! i) as [b|] eqn:Hb; [|done].
    destruct (completed b); [done |]. split; [done |]. simpl.
    assert (b ∈ batches q) as Hin by (apply list_elem_of_lookup; eauto).
    intros b' [-> | Hb']%elem_of_insert_inv; simpl; eauto.
Qed.

Lemma reachable_aligned q : Queue.reachable q → Queue.aligned q.
Proof.
  intros (xs & ->). induction xs as [|x xs IH] using rev_ind.
  - split; [done | by intros b ?%elem_of_nil].
  - unfold Queue.run in *. rewrite foldl_app. simpl.
    apply aligned_step; [|done]. apply queue_reachable_consistent. by exists xs.
Qed.
End queue_waiters.

(** X10: on a queue reached in any way every promise is resolved at most
    once: no promise occurs twice among the [resolve] calls made, a promise
    that was resolved is awaited by no batch in flight and filed in no map,
    and no promise is awaited by two batches. *)
Theorem promises_are_resolved_once (q : DecorationRequestsQueue) :
  Queue.reachable q →
  NoDup (resolved q).*1
  ∧ NoDup ((resolved q).*1 ++ Queue.awaited q ++ (_resolver q).*1).
Proof.
  intros Hnd%reachable_waiters. split; [|done].
  by apply NoDup_app in Hnd as (Hnd & _).
Qed.

(** Three requests in two batches, which complete in the other order: each
    promise is resolved once. *)
Lemma promises_resolved_witness :
  let q := Queue.run [Queue.Enqueue Scenario.a; Queue.Enqueue Scenario.c; Queue.Timeout;
                      Queue.Enqueue Scenario.a; Queue.Timeout;
                      Queue.Completed 1 (λ _, None);
                      Queue.Completed 0 (λ _, Some Scenario.M);
                      Queue.Completed 1 (λ _, Some Scenario.M)] Queue.create in
  (resolved q).*1 = [3; 1; 2] ∧ NoDup (resolved q).*1.
Proof.
  cbv zeta. split; [reflexivity |].
  exact (proj1 (promises_are_resolved_once _ (ex_intro _
    [Queue.Enqueue Scenario.a; Queue.Enqueue Scenario.c; Queue.Timeout;
     Queue.Enqueue Scenario.a; Queue.Timeout;
     Queue.Completed 1 (λ _, None);
     Queue.Completed 0 (λ _, Some Scenario.M);
     Queue.Completed 1 (λ _, Some Scenario.M)] eq_refl))).
Defined.

(** X11: when a batched call completes, the promise of every request it
    carried is resolved with the entry of the result filed under the id of
    that request, in the order the requests were sent, and no other promise
    is touched. *)
Theorem batch_fans_out_by_request_id
    (q : DecorationRequestsQueue) (i : nat) (b : Batch)
    (data : nat → option DecorationData) :
  Queue.reachable q →
  batches q !! i = Some b → completed b = false →
  resolved (Queue.fanOut i data q)
  = resolved q ++ ((λ req, (id req, data (id req))) <$> sent b).
Proof.
  intros [_ Hbatches]%reachable_aligned Hb Hopen.
  unfold Queue.fanOut. rewrite Hb, Hopen. simpl. f_equal.
  rewrite (Hbatches b) by (apply list_elem_of_lookup; eauto).
  by rewrite <- list_fmap_compose.
Qed.

(** Requests 1 and 3 go out (the token of 2 fired); the result has an entry
    for 1 only: promise 1 gets it, promise 3 gets [undefined]. *)
Lemma batch_fans_out_witness :
  let q := Queue.run [Queue.Enqueue Scenario.a; Queue.Enqueue Scenario.a_b;
                      Queue.Enqueue Scenario.c; Queue.Cancel 2; Queue.Timeout]
                     Queue.create in
  resolved (Queue.fanOut 0 (λ k, if Nat.eqb k 1 then Some Scenario.M else None) q)
  = [(1, Some Scenario.M); (3, None)].
Proof.
  cbv zeta.
  rewrite (batch_fans_out_by_request_id _ 0
             (mkBatch [mkRequest 1 Scenario.a; mkRequest 3 Scenario.c] [(1, 1); (3, 3)] false)
             _ (ex_intro _ [Queue.Enqueue Scenario.a; Queue.Enqueue Scenario.a_b;
                            Queue.Enqueue Scenario.c; Queue.Cancel 2; Queue.Timeout] eq_refl)
             eq_refl eq_refl).
  reflexivity.
Defined.

(** ** The bridge to the plugin host *)

Section jsmap_lookup.
Context {V : Type}.
Implicit Types (m : list (nat * V)) (k : nat) (v : V).

Lemma jsmap_get_elem_of k v m : JsMap.get k m = Some v → (k, v) ∈ m.
Proof.
  induction m as [|[k' v'] m IH]; [done |]. simpl.
  destruct (Nat.eqb_spec k' k) as [->|Hne].
  - intros [= ->]. left.
  - intros Hget. right. by apply IH.
Qed.

Lemma jsmap_get_None k m : JsMap.get k m = None ↔ k ∉ m.*1.
Proof.
  induction m as [|[k' v'] m IH]; [split; [intros _; apply not_elem_of_nil | done] |].
  simpl. rewrite not_elem_of_cons. destruct (Nat.eqb_spec k' k) as [->|Hne].
  - split; [done | by intros [? _]].
  - rewrite IH. split; [by intros ? | by intros [_ ?]]; by split || done.
Qed.

Lemma jsmap_get_delete k k' m :
  JsMap.get k' (JsMap.delete k m) = if decide (k' = k) then None else JsMap.get k' m.
Proof.
  unfold JsMap.delete. induction m as [|[k0 v0] m IH].
  { by case_decide. }
  rewrite filter_cons. cbn [fst].
  destruct (decide (k0 ≠ k)) as [Hne|Heq]; simpl.
  - rewrite IH. destruct (Nat.eqb_spec k0 k') as [->|Hne'].
    + by rewrite decide_False.
    + done.
  - rewrite IH. apply dec_stable in Heq. subst k0.
    case_decide; [done |]. by rewrite (proj2 (Nat.eqb_neq k k')).
Qed.

Lemma jsmap_elem_of_set k v m (kv : nat * V) :
  kv ∈ JsMap.set k v m → kv = (k, v) ∨ (kv ∈ m ∧ kv.1 ≠ k).
Proof.
  unfold JsMap.set. destruct (JsMap.has k m) eqn:Hhas.
  - intros ([k0 v0] & -> & Hin)%list_elem_of_fmap. simpl.
    destruct (Nat.eqb_spec k0 k) as [->|Hne]; [by left | by right].
  - rewrite elem_of_app, list_elem_of_singleton. intros [Hin | ->]; [|by left].
    right. split; [done |]. intros Heq. apply has_false in Hhas. apply Hhas.
    apply list_elem_of_fmap. by exists kv.
Qed.

Lemma jsmap_set_keys k v m :
  (JsMap.set k v m).*1 = if JsMap.has k m then m.*1 else m.*1 ++ [k].
Proof.
  unfold JsMap.set. destruct (JsMap.has k m); [|by rewrite fmap_app].
  induction m as [|[k0 v0] m IH]; [done |]. rewrite !fmap_cons, IH. f_equal.
  cbn [fst]. by destruct (Nat.eqb_spec k0 k) as [->|Hne].
Qed.

Lemma jsmap_set_keys_NoDup k v m : NoDup m.*1 → NoDup (JsMap.set k v m).*1.
Proof.
  intros Hnd. rewrite jsmap_set_keys. destruct (JsMap.has k m) eqn:Hhas; [done |].
  apply NoDup_app. split; [done |]. split; [|apply NoDup_singleton].
  intros k' Hk' ->%list_elem_of_singleton. by apply has_false in Hhas.
Qed.

Lemma jsmap_get_set_same k v m : NoDup m.*1 → JsMap.get k (JsMap.set k v m) = Some v.
Proof.
  intros Hnd. unfold JsMap.set. destruct (JsMap.has k m) eqn:Hhas.
  - induction m as [|[k0 v0] m IH]; [done |]. simpl in *.
    destruct (Nat.eqb_spec k0 k) as [->|Hne]; simpl.
    + by rewrite Nat.eqb_refl.
    + rewrite (proj2 (Nat.eqb_neq k0 k)) by done.
      apply IH; [by apply NoDup_cons in Hnd as [_ ?] | done].
  - clear Hnd. induction m as [|[k0 v0] m IH]; simpl in *.
    + by rewrite Nat.eqb_refl.
    + apply orb_false_iff in Hhas as [Hne Hhas]. rewrite Hne. by apply IH.
Qed.
End jsmap_lookup.

Section bridge_sessions.
Implicit Types (s : DecorationsServiceImpl) (w : DecorationProviderWrapper).
Implicit Types (m : DecorationsMainImpl) (a : nat).

(** What an action of the service does to one wrapper: nothing, one step of
    the session, or, for a registration, its creation. *)
Lemma heap_step_cases s x a w' :
  Service.well_formed s →
  heap (Service.step s x) !! a = Some w' →
  heap s !! a = Some w'
  ∨ (∃ w, heap s !! a = Some w
          ∧ w' = Session.step w
                   match x with
                   | Service.GetDecoration uri includeChildren =>
                       Session.Query uri includeChildren
                   | Service.ProviderChanged _ uris => Session.Changed uris
                   | Service.PromiseFulfilled _ r d => Session.Fulfilled r d
                   | Service.PromiseRejected _ r err => Session.Rejected r err
                   | _ => Session.Disposed
                   end
          ∧ ∀ p, x ≠ Service.Register p)
  ∨ (∃ p, x = Service.Register p ∧ w' = Wrapper.create p).
Proof.
  intros Hwf. destruct x as [p | b | uri inc | b uris | b r d | b r err]; simpl.
  - intros [Hold | (_ & Hnew)]%lookup_app_Some; [by left |].
    apply list_lookup_singleton_Some in Hnew as [_ <-]. right. right. by exists p.
  - case_bool_decide; [|by left].
    unfold Service.dispose_registration. rewrite on_wrapper_heap, dispose_fire_heap.
    destruct (heap s !! b) as [w|] eqn:Hb; [|by left].
    intros [(-> & <- & _) | (_ & Hold)]%list_lookup_insert_Some; [|by left].
    right. left. exists w. by repeat split.
  - rewrite getDecoration_heap by done. case_decide; [|by left].
    destruct (heap s !! a) as [w|] eqn:Ha; [|done].
    intros [= <-]. right. left. exists w. by repeat split.
  - rewrite on_wrapper_heap. destruct (heap s !! b) as [w|] eqn:Hb; [|by left].
    intros [(-> & <- & _) | (_ & Hold)]%list_lookup_insert_Some; [|by left].
    right. left. exists w. split; [done |]. split; [|done].
    simpl. by destruct (subscribed w).
  - rewrite on_wrapper_heap. destruct (heap s !! b) as [w|] eqn:Hb; [|by left].
    intros [(-> & <- & _) | (_ & Hold)]%list_lookup_insert_Some; [|by left].
    right. left. exists w. by repeat split.
  - rewrite on_wrapper_heap. destruct (heap s !! b) as [w|] eqn:Hb; [|by left].
    intros [(-> & <- & _) | (_ & Hold)]%list_lookup_insert_Some; [|by left].
    right. left. exists w. by repeat split.
Qed.

Lemma onDidChange_provider uris :
  ∀ w, provider (Wrapper.onDidChange (Some uris) w).1 = provider w.
Proof.
  induction uris as [|u uris IH]; intros w; [done |].
  by rewrite onDidChange_cons, IH, fetchData_provider.
Qed.

(** No step of a session changes its provider. *)
Lemma session_step_provider w e : provider (Session.step w e) = provider w.
Proof.
  destruct e as [uri inc | [uris|] | r d | r err |]; simpl.
  - apply getOrRetrieve_provider.
  - destruct (subscribed w); [apply onDidChange_provider | done].
  - by destruct (subscribed w).
  - unfold Wrapper.fulfilled. destruct (calls w !! r) as [uri|]; [|done].
    by destruct (is_request r (Wrapper.get uri w)).
  - unfold Wrapper.rejected. destruct (calls w !! r) as [uri|]; [|done].
    by destruct (negb (isCanceled err) && is_request r (Wrapper.get uri w)).
  - done.
Qed.

(** Every provider of the service answers with a promise. *)
Lemma async_step s x :
  Service.well_formed s →
  (∀ p, x = Service.Register p → ∀ history uri, provideDecorations p history uri = PThenable) →
  (∀ a w history uri, heap s !! a = Some w →
     provideDecorations (provider w) history uri = PThenable) →
  ∀ a w history uri, heap (Service.step s x) !! a = Some w →
     provideDecorations (provider w) history uri = PThenable.
Proof.
  intros Hwf Hnew Hold a w' history uri Hw'.
  destruct (heap_step_cases s x a w' Hwf Hw') as [Hw | [(w & Hw & -> & _) | (p & -> & ->)]].
  - by apply (Hold a).
  - rewrite session_step_provider. by apply (Hold a).
  - by apply (Hnew p).
Qed.

Lemma dispose_registration_as_step a s :
  a < length (heap s) →
  Service.dispose_registration a s = Service.step s (Service.DisposeRegistration a).
Proof. intros Hlt. simpl. by rewrite bool_decide_eq_true_2. Qed.

(** Disposing the entries of the map one after the other takes exactly
    their wrappers out of the array. *)
Lemma dispose_entries (entries : list (nat * (nat * nat))) :
  ∀ s, Service.well_formed s →
       NoDup entries.*1 →
       (∀ h1 h2 e1 e2 reg, (h1, (e1, reg)) ∈ entries → (h2, (e2, reg)) ∈ entries → h1 = h2) →
       (∀ h e reg, (h, (e, reg)) ∈ entries → reg ∈ _data s) →
       Service.well_formed (foldl Main.dispose_entry s entries)
       ∧ (∀ b, b ∈ _data (foldl Main.dispose_entry s entries) ↔
               b ∈ _data s ∧ b ∉ entries.*2.*2)
       ∧ ((∀ a w history uri, heap s !! a = Some w →
             provideDecorations (provider w) history uri = PThenable) →
          ∀ a w history uri,
            heap (foldl Main.dispose_entry s entries) !! a = Some w →
            provideDecorations (provider w) history uri = PThenable).
Proof.
  induction entries as [|[h [e reg]] entries IH]; intros s Hwf Hkeys Hinj Hlive.
  { split; [done |]. split; [|by eauto]. intros b. split; [|by intros [? _]].
    intros Hb. split; [done | apply not_elem_of_nil]. }
  simpl. unfold Main.dispose_entry at 2 4 6. simpl.
  apply NoDup_cons in Hkeys as [Hfresh Hkeys].
  assert (reg ∈ _data s) as Hreg by (apply (Hlive h e); left).
  assert (reg < length (heap s)) as Hlt by (destruct Hwf as [_ Hlt]; by apply Hlt).
  assert (∀ b, b ∈ _data (Service.dispose_registration reg s) ↔ b ∈ _data s ∧ b ≠ reg)
    as Hout.
  { intros b. rewrite dispose_registration__data. apply splice1_live; [by destruct Hwf | done]. }
  assert (∀ h' e' reg', (h', (e', reg')) ∈ entries → reg' ≠ reg) as Hdistinct.
  { intros h' e' reg' Hin ->. apply Hfresh.
    assert (h = h') as -> by (apply (Hinj h h' e e' reg); [left | by right]).
    apply list_elem_of_fmap. by exists (h', (e', reg)). }
  destruct (IH (Service.dispose_registration reg s)) as (Hwf' & Hdata & Hasync).
  - by apply well_formed_dispose.
  - done.
  - intros h1 h2 e1 e2 reg' H1 H2. apply (Hinj h1 h2 e1 e2 reg'); by right.
  - intros h' e' reg' Hin. apply Hout. split; [apply (Hlive h' e'); by right |].
    by apply (Hdistinct h' e').
  - split; [done |]. split.
    + intros b. rewrite Hdata, Hout, not_elem_of_cons. simpl. tauto.
    + intros Hold. apply Hasync.
      rewrite dispose_registration_as_step by done.
      by apply async_step.
Qed.
End bridge_sessions.

Section bridge_facts.
Implicit Types (s : DecorationsServiceImpl) (w : DecorationProviderWrapper).
Implicit Types (m : DecorationsMainImpl) (a : nat).

Lemma bridge_consistent_create : Main.consistent Main.create.
Proof.
  split; [apply well_formed_create |]. split; [constructor |].
  split; [by intros ????? ?%elem_of_nil |].
  split; [by intros ??? ?%elem_of_nil | by intros ????].
Qed.

Lemma bridge_consistent_service m x :
  (∀ p, x ≠ Service.Register p) →
  _data (Service.step (decorationsService m) x) = _data (decorationsService m) →
  Main.consistent m →
  Main.consistent (mkMain (Service.step (decorationsService m) x) (providers m)).
Proof.
  intros Hx Hdata (Hwf & Hkeys & Hinj & Hlive & Hasync).
  split; [by apply well_formed_step |]. split; [done |]. split; [done |].
  split; simpl.
  - intros h e reg Hin. rewrite Hdata. by apply (Hlive h).
  - apply async_step; [done | | done]. intros p ->. by destruct (Hx p).
Qed.

Lemma bridge_consistent_register handle label m :
  Main.consistent m → Main.consistent (Main._registerDecorationProvider handle label m).
Proof.
  intros (Hwf & Hkeys & Hinj & Hlive & Hasync).
  unfold Main._registerDecorationProvider.
  set (s := decorationsService m) in *.
  change (Service.registerDecorationsProvider (pluginProvider label) s)
    with (length (heap s), Service.step s (Service.Register (pluginProvider label))).
  cbv beta iota.
  assert (∀ h e reg, (h, (e, reg)) ∈ providers m → reg < length (heap s)) as Hbound.
  { intros h e reg Hin. destruct Hwf as [_ Hlt]. apply Hlt. by apply (Hlive h e). }
  split; [by apply well_formed_step |]. split; [by apply jsmap_set_keys_NoDup |].
  split; [|split]; simpl.
  - intros h1 h2 e1 e2 reg
      [Heq1 | [H1 Hne1]]%jsmap_elem_of_set [Heq2 | [H2 Hne2]]%jsmap_elem_of_set.
    + congruence.
    + apply Hbound in H2. assert (reg = length (heap s)) by congruence. lia.
    + apply Hbound in H1. assert (reg = length (heap s)) by congruence. lia.
    + by apply (Hinj h1 h2 e1 e2 reg).
  - intros h e reg [Heq | [Hin _]]%jsmap_elem_of_set.
    + assert (e = length (heap s)) as -> by congruence.
      assert (reg = length (heap s)) as -> by congruence.
      split; [done |]. apply elem_of_app. right. left.
    + destruct (Hlive _ _ _ Hin) as [-> Hreg]. split; [done |].
      apply elem_of_app. by left.
  - refine (async_step s (Service.Register (pluginProvider label)) Hwf _ Hasync).
    by intros p [= <-] history uri.
Qed.

Lemma bridge_consistent_unregister handle m :
  Main.consistent m → Main.consistent (Main._unregisterDecorationProvider handle m).
Proof.
  intros (Hwf & Hkeys & Hinj & Hlive & Hasync).
  unfold Main._unregisterDecorationProvider.
  destruct (JsMap.get handle (providers m)) as [[e reg]|] eqn:Hget; [|done].
  apply jsmap_get_elem_of in Hget.
  destruct (Hlive _ _ _ Hget) as [-> Hreg].
  assert (reg < length (heap (decorationsService m))) as Hlt
    by (destruct Hwf as [_ Hlt]; by apply Hlt).
  unfold Main.dispose_entry. simpl.
  split; [by apply well_formed_dispose |].
  split; [apply (sublist_NoDup _ _ Hkeys), delete_keys_sublist |].
  split; [|split]; simpl.
  - intros h1 h2 e1 e2 reg' [H1 _]%elem_of_delete [H2 _]%elem_of_delete.
    by apply (Hinj h1 h2 e1 e2 reg').
  - intros h e reg' [Hin Hne]%elem_of_delete. simpl in Hne.
    destruct (Hlive _ _ _ Hin) as [-> Hreg']. split; [done |].
    rewrite dispose_registration__data.
    apply splice1_live; [by destruct Hwf | done |]. split; [done |].
    intros ->. apply Hne. by apply (Hinj h handle reg reg reg).
  - rewrite dispose_registration_as_step by done. by apply async_step.
Qed.

Lemma bridge_consistent_dispose m : Main.consistent m → Main.consistent (Main.dispose m).
Proof.
  intros (Hwf & Hkeys & Hinj & Hlive & Hasync).
  destruct (dispose_entries (providers m) (decorationsService m) Hwf Hkeys Hinj)
    as (Hwf' & _ & Hasync').
  { intros h e reg Hin. by apply (Hlive h e). }
  split; [done |]. split; [constructor |].
  split; [by intros ????? ?%elem_of_nil |].
  split; [by intros ??? ?%elem_of_nil | by apply Hasync'].
Qed.

Lemma bridge_consistent_step m x : Main.consistent m → Main.consistent (Main.step m x).
Proof.
  intros Hm. destruct x as [h label | h resources | h | | uri inc | a r data]; simpl.
  - by apply bridge_consistent_register.
  - unfold Main._onDidChange.
    destruct (JsMap.get h (providers m)) as [[e reg]|]; [|done].
    apply bridge_consistent_service; [done | apply on_wrapper__data | done].
  - by apply bridge_consistent_unregister.
  - by apply bridge_consistent_dispose.
  - apply (bridge_consistent_service m (Service.GetDecoration uri inc)); [done | | done].
    apply getDecoration__data.
  - apply (bridge_consistent_service m (Service.PromiseFulfilled a r (toDecoration data)));
      [done | apply on_wrapper__data | done].
Qed.

Lemma bridge_reachable_consistent m : Main.reachable m → Main.consistent m.
Proof.
  intros (xs & ->). induction xs as [|x xs IH] using rev_ind.
  - apply bridge_consistent_create.
  - unfold Main.run in *. rewrite foldl_app. simpl. by apply bridge_consistent_step.
Qed.
End bridge_facts.

Section bridge_registrations.
Implicit Types (s : DecorationsServiceImpl) (m : DecorationsMainImpl) (a reg : nat).

Lemma elem_of_registrations reg m :
  reg ∈ Main.registrations m ↔ ∃ h e, (h, (e, reg)) ∈ providers m.
Proof.
  unfold Main.registrations. rewrite list_elem_of_fmap. split.
  - intros ([e reg'] & -> & ([h [e' reg'']] & [= -> ->] & Hin)%list_elem_of_fmap). eauto.
  - intros (h & e & Hin). exists (e, reg). split; [done |].
    apply list_elem_of_fmap. by exists (h, (e, reg)).
Qed.

Lemma dispose_entries_public (entries : list (nat * (nat * nat))) :
  ∀ s, onDidChangeDecorationsEmitter (foldl Main.dispose_entry s entries)
       = onDidChangeDecorationsEmitter s
         ++ ((λ entry : nat * (nat * nat), AffectsKnown entry.2.2) <$> entries).
Proof.
  induction entries as [|entry entries IH]; intros s; simpl; [by rewrite app_nil_r |].
  rewrite IH. unfold Main.dispose_entry.
  by rewrite dispose_registration_public, <- app_assoc.
Qed.
End bridge_registrations.

(** X12: unregistering a plugin provider takes its own session, and no
    other, out of the live set: in a bridge reached in any way the handle is
    filed with a live wrapper, so the disposal finds it in the array; one
    event is fired, the handle is forgotten, the other handles are filed as
    before and their sessions stay live. *)
Theorem unregister_removes_its_own_session
    (m : DecorationsMainImpl) (handle emitter registration : nat) :
  Main.reachable m →
  JsMap.get handle (providers m) = Some (emitter, registration) →
  let s := decorationsService m in
  let m' := Main._unregisterDecorationProvider handle m in
  let s' := decorationsService m' in
  registration ∈ _data s
  ∧ (∀ b, b ∈ _data s' ↔ b ∈ _data s ∧ b ≠ registration)
  ∧ Service.onDidChangeDecorations s'
    = Service.onDidChangeDecorations s ++ [AffectsKnown registration]
  ∧ JsMap.get handle (providers m') = None
  ∧ (∀ h, h ≠ handle → JsMap.get h (providers m') = JsMap.get h (providers m))
  ∧ (∀ h e reg, (h, (e, reg)) ∈ providers m' → reg ∈ _data s').
Proof.
  intros Hm%bridge_reachable_consistent Hget s m' s'.
  pose proof (bridge_consistent_unregister handle m Hm) as (_ & _ & _ & Hlive' & _).
  destruct Hm as (Hwf & Hkeys & Hinj & Hlive & Hasync).
  destruct (Hlive _ _ _ (jsmap_get_elem_of _ _ _ Hget)) as [-> Hreg].
  subst m' s'. unfold Main._unregisterDecorationProvider in *. rewrite Hget in *.
  unfold Main.dispose_entry in *. simpl in *.
  split; [done |]. split.
  { intros b. rewrite dispose_registration__data. apply splice1_live; [by destruct Hwf | done]. }
  split; [apply dispose_registration_public |].
  split; [by rewrite jsmap_get_delete, decide_True |].
  split; [intros h Hne; by rewrite jsmap_get_delete, decide_False |].
  intros h e reg Hin. by apply (Hlive' h e).
Qed.

(** Two plugin providers; the first is unregistered: the second session is
    the one left. *)
Lemma unregister_witness :
  let m := Main.run [Main.RegisterDecorationProvider 7 "git";
                     Main.RegisterDecorationProvider 8 "lint"] Main.create in
  let m' := Main._unregisterDecorationProvider 7 m in
  _data (decorationsService m) = [0; 1]
  ∧ _data (decorationsService m') = [1]
  ∧ 1 ∈ _data (decorationsService m').
Proof.
  cbv zeta. do 2 (split; [reflexivity |]).
  destruct (unregister_removes_its_own_session
              (Main.run [Main.RegisterDecorationProvider 7 "git";
                         Main.RegisterDecorationProvider 8 "lint"] Main.create)
              7 0 0 (ex_intro _ _ eq_refl) eq_refl) as (_ & Hdata & _).
  apply Hdata. split; [|done]. right. left.
Defined.

(** X13: [dispose] of the bridge unregisters every plugin provider that is
    filed: their sessions, and no others, leave the live set, one event is
    fired for each in the order of the map, and the map is empty. *)
Theorem dispose_unregisters_every_provider (m : DecorationsMainImpl) :
  Main.reachable m →
  let s := decorationsService m in
  let s' := decorationsService (Main.dispose m) in
  providers (Main.dispose m) = []
  ∧ (∀ b, b ∈ _data s' ↔ b ∈ _data s ∧ b ∉ Main.registrations m)
  ∧ Service.onDidChangeDecorations s'
    = Service.onDidChangeDecorations s
      ++ ((λ entry : nat * (nat * nat), AffectsKnown entry.2.2) <$> providers m).
Proof.
  intros (Hwf & Hkeys & Hinj & Hlive & Hasync)%bridge_reachable_consistent s s'.
  destruct (dispose_entries (providers m) s Hwf Hkeys Hinj) as (_ & Hdata & _).
  { intros h e reg Hin. by apply (Hlive h e). }
  split; [done |]. split; [done |]. apply dispose_entries_public.
Qed.

(** Three plugin providers, one of them unregistered before: [dispose] takes
    out the other two. *)
Lemma dispose_bridge_witness :
  let m := Main.run [Main.RegisterDecorationProvider 7 "git";
                     Main.RegisterDecorationProvider 8 "lint";
                     Main.RegisterDecorationProvider 9 "scm";
                     Main.UnregisterDecorationProvider 8] Main.create in
  _data (decorationsService m) = [0; 2]
  ∧ _data (decorationsService (Main.dispose m)) = []
  ∧ Service.onDidChangeDecorations (decorationsService (Main.dispose m))
    = [AffectsAll; AffectsAll; AffectsAll; AffectsKnown 1; AffectsKnown 0; AffectsKnown 2].
Proof.
  cbv zeta. do 2 (split; [reflexivity |]).
  destruct (dispose_unregisters_every_provider
              (Main.run [Main.RegisterDecorationProvider 7 "git";
                         Main.RegisterDecorationProvider 8 "lint";
                         Main.RegisterDecorationProvider 9 "scm";
                         Main.UnregisterDecorationProvider 8] Main.create)
              (ex_intro _ _ eq_refl)) as (_ & _ & Hlog).
  cbv zeta in Hlog. rewrite Hlog. reflexivity.
Defined.

Section overwritten_handles.
Implicit Types (s : DecorationsServiceImpl) (m : DecorationsMainImpl) (reg : nat).

(** A live wrapper that no handle is filed with stays so. *)
Lemma unfiled_step reg m x :
  Main.consistent m →
  reg ∈ _data (decorationsService m) → reg ∉ Main.registrations m →
  reg ∈ _data (decorationsService (Main.step m x)) ∧ reg ∉ Main.registrations (Main.step m x).
Proof.
  intros (Hwf & Hkeys & Hinj & Hlive & Hasync) Hreg Hunfiled.
  assert (∀ h e, (h, (e, reg)) ∉ providers m) as Hno.
  { intros h e Hin. apply Hunfiled, elem_of_registrations. eauto. }
  destruct x as [h label | h resources | h | | uri inc | a r data]; simpl.
  - unfold Main._registerDecorationProvider. simpl. split.
    + apply elem_of_app. by left.
    + intros (h' & e' & [Heq | [Hin _]]%jsmap_elem_of_set)%elem_of_registrations.
      * destruct Hwf as [_ Hlt]. apply Hlt in Hreg.
        assert (reg = length (heap (decorationsService m))) by congruence. lia.
      * by apply (Hno h' e').
  - unfold Main._onDidChange.
    destruct (JsMap.get h (providers m)) as [[e reg']|]; [|done].
    simpl. by rewrite on_wrapper__data.
  - unfold Main._unregisterDecorationProvider.
    destruct (JsMap.get h (providers m)) as [[e reg']|] eqn:Hget; [|done].
    apply jsmap_get_elem_of in Hget. destruct (Hlive _ _ _ Hget) as [-> Hreg'].
    unfold Main.dispose_entry. simpl. split.
    + rewrite dispose_registration__data.
      apply splice1_live; [by destruct Hwf | done |]. split; [done |].
      intros ->. by apply (Hno h reg').
    + intros (h' & e' & [Hin _]%elem_of_delete)%elem_of_registrations.
      by apply (Hno h' e').
  - destruct (dispose_entries (providers m) (decorationsService m) Hwf Hkeys Hinj)
      as (_ & Hdata & _).
    { intros h e reg' Hin. by apply (Hlive h e). }
    split; [by apply Hdata | apply not_elem_of_nil].
  - split; [|done]. unfold Service.getDecoration. by rewrite getDecoration__data.
  - split; [|done]. by rewrite on_wrapper__data.
Qed.

Lemma unfiled_run reg xs :
  ∀ m, Main.consistent m →
       reg ∈ _data (decorationsService m) → reg ∉ Main.registrations m →
       reg ∈ _data (decorationsService (Main.run xs m))
       ∧ reg ∉ Main.registrations (Main.run xs m).
Proof.
  induction xs as [|x xs IH]; intros m Hm Hreg Hunfiled; [done |].
  destruct (unfiled_step reg m x Hm Hreg Hunfiled) as [Hreg' Hunfiled'].
  simpl. apply IH; [by apply bridge_consistent_step | done | done].
Qed.
End overwritten_handles.

(** X14: [$registerDecorationProvider] with a handle that is already filed
    overwrites the entry without disposing what it held.  The session that
    was filed under the handle is then filed under no handle, and whatever
    the plugin host calls afterwards ([$unregisterDecorationProvider] with
    any handle, [dispose]) it stays in the live set. *)
Theorem overwritten_registration_stays_live
    (m : DecorationsMainImpl) (handle emitter registration : nat)
    (label : string) (xs : list Main.action) :
  Main.reachable m →
  JsMap.get handle (providers m) = Some (emitter, registration) →
  let m1 := Main.step m (Main.RegisterDecorationProvider handle label) in
  JsMap.get handle (providers m1)
  = Some (length (heap (decorationsService m)), length (heap (decorationsService m)))
  ∧ (registration ∉ Main.registrations (Main.run xs m1))
  ∧ registration ∈ _data (decorationsService (Main.run xs m1)).
Proof.
  intros Hm%bridge_reachable_consistent Hget m1.
  pose proof (bridge_consistent_step m (Main.RegisterDecorationProvider handle label) Hm)
    as Hm1.
  destruct Hm as (Hwf & Hkeys & Hinj & Hlive & Hasync).
  apply jsmap_get_elem_of in Hget. destruct (Hlive _ _ _ Hget) as [-> Hreg].
  split; [by apply jsmap_get_set_same |].
  destruct (unfiled_run registration xs m1 Hm1) as [Hstays Hunfiled]; [..|done].
  - subst m1. simpl. apply elem_of_app. by left.
  - subst m1. simpl.
    intros (h' & e' & [Heq | [Hin Hne]]%jsmap_elem_of_set)%elem_of_registrations.
    + destruct Hwf as [_ Hlt]. apply Hlt in Hreg.
      assert (registration = length (heap (decorationsService m))) by congruence. lia.
    + apply Hne. simpl. by apply (Hinj h' handle e' registration registration).
Qed.

(** Handle 7 is registered twice; unregistering it and disposing the bridge
    leaves the first session live. *)
Lemma overwritten_registration_witness :
  let m := Main.run [Main.RegisterDecorationProvider 7 "git"] Main.create in
  let m2 := Main.run [Main.RegisterDecorationProvider 7 "git";
                      Main.UnregisterDecorationProvider 7; Main.Dispose] m in
  _data (decorationsService m2) = [0] ∧ 0 ∈ _data (decorationsService m2).
Proof.
  cbv zeta. split; [reflexivity |].
  exact (proj2 (proj2 (overwritten_registration_stays_live
    (Main.run [Main.RegisterDecorationProvider 7 "git"] Main.create) 7 0 0 "git"
    [Main.UnregisterDecorationProvider 7; Main.Dispose]
    (ex_intro _ _ eq_refl) eq_refl))).
Defined.

(** X15: a plugin provider answers every call with a promise.  So in a
    bridge reached in any way, the first query of a resource that no live
    session has a value for hands back the empty list, and leaves a pending
    request for the resource in every live session. *)
Theorem plugin_providers_answer_later (m : DecorationsMainImpl) (uri : URI) :
  Main.reachable m →
  (∀ a w, a ∈ _data (decorationsService m) → heap (decorationsService m) !! a = Some w →
          Wrapper.get uri w = Undefined) →
  let out := Service.getDecoration uri false (decorationsService m) in
  out.1 = []
  ∧ ∀ a, a ∈ _data (decorationsService m) →
         ∃ w w', heap (decorationsService m) !! a = Some w ∧ heap out.2 !! a = Some w'
                 ∧ Wrapper.get uri w' = Request (length (calls w)).
Proof.
  intros (Hwf & _ & _ & _ & Hasync)%bridge_reachable_consistent Hunknown out. subst out.
  set (s := decorationsService m) in *. split.
  - rewrite getDecoration_result by done.
    rewrite (bind_omap _ (λ a, heap s !! a ≫= Service.answered_now uri)).
    + apply omap_all_None. intros a Ha.
      destruct (heap s !! a) as [w|] eqn:Hw; [|done]. simpl.
      unfold Service.answered_now. by rewrite (Hasync a w).
    + apply Forall_forall. intros a Ha.
      destruct (heap s !! a) as [w|] eqn:Hw; [|done]. simpl.
      apply contribution_unknown. by apply (Hunknown a).
  - intros a Ha. destruct Hwf as [Hnd Hlt].
    destruct (lookup_lt_is_Some_2 (heap s) a (Hlt a Ha)) as [w Hw].
    exists w, (Wrapper.getOrRetrieve uri false w).1.2.
    split; [done |]. split.
    + rewrite getDecoration_heap by done. rewrite decide_True by done. by rewrite Hw.
    + rewrite getOrRetrieve_wrapper, (Hunknown a w Ha Hw), get_fetchData_eq.
      by rewrite (Hasync a w).
Qed.

(** Two plugin providers and a first query of [a]. *)
Lemma plugin_providers_witness :
  let m := Main.run [Main.RegisterDecorationProvider 7 "git";
                     Main.RegisterDecorationProvider 8 "lint"] Main.create in
  (Service.getDecoration Scenario.a false (decorationsService m)).1 = [].
Proof.
  cbv zeta.
  refine (proj1 (plugin_providers_answer_later
    (Main.run [Main.RegisterDecorationProvider 7 "git";
               Main.RegisterDecorationProvider 8 "lint"] Main.create)
    Scenario.a (ex_intro _ _ eq_refl) _)).
  intros a w Ha Hw. apply list_elem_of_In in Ha. vm_compute in Ha.
  destruct Ha as [<- | [<- | []]]; vm_compute in Hw; injection Hw as <-; reflexivity.
Defined.

Section converted_decorations.
Implicit Types (s : DecorationsServiceImpl) (w : DecorationProviderWrapper).
Implicit Types (m : DecorationsMainImpl) (uri : URI) (d : IDecorationData).

Lemma toDecoration_shape data d :
  toDecoration data = Some d → weight d = Some 10%Z ∧ is_Some (bubble d).
Proof.
  destruct data as [[[[b t] l] c]|]; [|done]. intros [= <-]. simpl. eauto.
Qed.

(** With a provider that answers with a promise, a fetch puts no decoration
    into the cache. *)
Lemma fetchData_async_no_data uri w k d :
  (∀ history u, provideDecorations (provider w) history u = PThenable) →
  data (Wrapper._fetchData uri w).1.2 !! k = Some (Data d) → data w !! k = Some (Data d).
Proof.
  intros Hasync. destruct (decide (k = uri)) as [->|Hne].
  - rewrite fetchData_lookup, Hasync. discriminate.
  - by rewrite fetchData_lookup_ne.
Qed.

Lemma onDidChange_async_no_data uris :
  ∀ w k d,
    (∀ history u, provideDecorations (provider w) history u = PThenable) →
    data (Wrapper.onDidChange (Some uris) w).1 !! k = Some (Data d) →
    data w !! k = Some (Data d).
Proof.
  induction uris as [|u uris IH]; intros w k d Hasync; [done |].
  rewrite onDidChange_cons. intros Hk.
  apply (fetchData_async_no_data u w k d Hasync), IH; [|done].
  intros history u'. rewrite fetchData_provider. apply Hasync.
Qed.

Lemma session_step_converted w e :
  (∀ history u, provideDecorations (provider w) history u = PThenable) →
  match e with
  | Session.Fulfilled _ result => ∃ data, result = toDecoration data
  | Session.Rejected _ _ => False
  | _ => True
  end →
  (∀ k d, data w !! k = Some (Data d) → weight d = Some 10%Z ∧ is_Some (bubble d)) →
  ∀ k d, data (Session.step w e) !! k = Some (Data d) →
         weight d = Some 10%Z ∧ is_Some (bubble d).
Proof.
  intros Hasync He Hw k d.
  destruct e as [uri inc | [uris|] | r result | r err |]; simpl.
  - rewrite getOrRetrieve_wrapper. destruct (Wrapper.get uri w); [apply Hw.. |].
    intros Hk. by apply (Hw k), (fetchData_async_no_data uri).
  - destruct (subscribed w); [|apply Hw].
    intros Hk. by apply (Hw k), (onDidChange_async_no_data uris).
  - destruct (subscribed w); [done | apply Hw].
  - destruct He as [data ->]. unfold Wrapper.fulfilled.
    destruct (calls w !! r) as [uri|]; [|apply Hw].
    destruct (is_request r (Wrapper.get uri w)); [|apply Hw].
    rewrite (surjective_pairing (Wrapper._keepItem uri (toDecoration data) w)).
    rewrite (surjective_pairing (Wrapper._keepItem uri (toDecoration data) w).1).
    simpl. destruct (decide (k = uri)) as [->|Hne].
    + rewrite lookup_insert_eq. destruct (toDecoration data) as [d'|] eqn:Hd; [|done].
      intros [= <-]. by apply (toDecoration_shape data).
    + rewrite lookup_insert_ne by done. apply Hw.
  - done.
  - done.
Qed.

Lemma converted_service_step m x :
  Main.consistent m → Main.converted m →
  match x with
  | Service.GetDecoration _ _ | Service.ProviderChanged _ _ => True
  | Service.PromiseFulfilled _ _ result => ∃ data, result = toDecoration data
  | _ => False
  end →
  Main.converted (mkMain (Service.step (decorationsService m) x) (providers m)).
Proof.
  intros (Hwf & _ & _ & _ & Hasync) Hm Hx a w' uri d Hw'. simpl in Hw'.
  destruct (heap_step_cases _ x a w' Hwf Hw') as [Hw | [(w & Hw & -> & _) | (p & -> & _)]].
  - by apply (Hm a).
  - apply session_step_converted.
    + intros history u. by apply (Hasync a).
    + by destruct x.
    + intros k d'. by apply (Hm a).
  - done.
Qed.

Lemma converted_dispose_registration a s :
  (∀ b w uri d, heap s !! b = Some w → data w !! uri = Some (Data d) →
                weight d = Some 10%Z ∧ is_Some (bubble d)) →
  ∀ b w uri d, heap (Service.dispose_registration a s) !! b = Some w →
               data w !! uri = Some (Data d) →
               weight d = Some 10%Z ∧ is_Some (bubble d).
Proof.
  intros Hs b w uri d. unfold Service.dispose_registration.
  rewrite on_wrapper_heap, dispose_fire_heap.
  destruct (heap s !! a) as [w0|]; [|apply Hs].
  intros [(-> & <- & _) | (_ & Hold)]%list_lookup_insert_Some; [done | by apply (Hs b)].
Qed.

Lemma converted_step m x :
  Main.consistent m → Main.converted m → Main.converted (Main.step m x).
Proof.
  intros Hm Hconv.
  destruct x as [h label | h resources | h | | uri inc | a r data]; simpl.
  - intros a w uri d. unfold Main._registerDecorationProvider. simpl.
    intros [Hold | (_ & Hnew)]%lookup_app_Some; [by apply (Hconv a) |].
    apply list_lookup_singleton_Some in Hnew as [_ <-]. done.
  - unfold Main._onDidChange.
    destruct (JsMap.get h (providers m)) as [[e reg]|]; [|done].
    by apply converted_service_step.
  - unfold Main._unregisterDecorationProvider.
    destruct (JsMap.get h (providers m)) as [[e reg]|]; [|done].
    unfold Main.converted, Main.dispose_entry. simpl.
    by apply converted_dispose_registration.
  - unfold Main.converted, Main.dispose. simpl.
    generalize (providers m). intros entries.
    revert Hconv. unfold Main.converted. generalize (decorationsService m).
    induction entries as [|entry entries IH]; intros s Hs; [done |].
    simpl. apply IH. unfold Main.dispose_entry. by apply converted_dispose_registration.
  - by apply (converted_service_step m (Service.GetDecoration uri inc)).
  - apply (converted_service_step m (Service.PromiseFulfilled a r (toDecoration data)));
      [done | done | by exists data].
Qed.
End converted_decorations.

(** X16: every decoration that a bridge reached in any way holds in a cache
    came through the conversion in [provideDecorations]: its weight is 10 and
    its bubble flag is set to a boolean, never left undefined. *)
Theorem plugin_decorations_are_converted
    (m : DecorationsMainImpl) (a : nat) (w : DecorationProviderWrapper)
    (uri : URI) (d : IDecorationData) :
  Main.reachable m →
  heap (decorationsService m) !! a = Some w →
  data w !! uri = Some (Data d) →
  weight d = Some 10%Z ∧ is_Some (bubble d).
Proof.
  intros (xs & ->). revert a w uri d.
  change (Main.converted (Main.run xs Main.create)).
  induction xs as [|x xs IH] using rev_ind; [done |].
  unfold Main.run in *. rewrite foldl_app. simpl.
  apply converted_step; [|done]. apply bridge_reachable_consistent. by exists xs.
Qed.

(** The plugin answers [a] with a tuple that leaves the bubble flag out. *)
Lemma plugin_decorations_witness :
  let m := Main.run [Main.RegisterDecorationProvider 7 "git";
                     Main.GetDecoration Scenario.a false;
                     Main.Resolved 0 0 (Some (None, None, Some "M"%string, None))]
                    Main.create in
  (Service.getDecoration Scenario.a false (decorationsService m)).1
  = [mkDecoration (Some 10%Z) None (Some "M"%string) None (Some false)]
  ∧ weight (mkDecoration (Some 10%Z) None (Some "M"%string) None (Some false)) = Some 10%Z.
Proof.
  cbv zeta. split; [reflexivity |].
  exact (proj1 (plugin_decorations_are_converted
    (Main.run [Main.RegisterDecorationProvider 7 "git";
               Main.GetDecoration Scenario.a false;
               Main.Resolved 0 0 (Some (None, None, Some "M"%string, None))] Main.create)
    0 (Wrapper.set_data {[ Scenario.a :=
         Data (mkDecoration (Some 10%Z) None (Some "M"%string) None (Some false)) ]}
         (Wrapper.getOrRetrieve Scenario.a false (Wrapper.create (pluginProvider "git"))).1.2)
    Scenario.a _ (ex_intro _ _ eq_refl) eq_refl eq_refl)).
Defined.

(** * Resources nobody asked about *)

Section never_asked.
Implicit Types (s : DecorationsServiceImpl) (w : DecorationProviderWrapper).
Implicit Types (uri : URI) (a : nat).

(** A session that has no slot for [uri] and never called its provider for
    it stays so, as long as [uri] is neither queried nor listed in a
    selective change event. *)
Lemma unasked_session_step uri w e :
  data w !! uri = None → uri ∉ calls w →
  match e with
  | Session.Query k _ => k ≠ uri
  | Session.Changed (Some uris) => uri ∉ uris
  | _ => True
  end →
  data (Session.step w e) !! uri = None ∧ uri ∉ calls (Session.step w e).
Proof.
  intros Hd Hc He. destruct e as [k inc | [uris|] | r d | r err | ]; cbn [Session.step].
  - rewrite getOrRetrieve_lookup_ne by done. split; [done |].
    rewrite getOrRetrieve_calls. destruct (Wrapper.get k w); [done | done |].
    intros [Hin | Hin%list_elem_of_singleton]%elem_of_app; [done | by apply He].
  - destruct (subscribed w); [|done].
    rewrite onDidChange_lookup_other by done. split; [done |].
    rewrite onDidChange_calls. by intros [Hin | Hin]%elem_of_app.
  - by destruct (subscribed w).
  - unfold Wrapper.fulfilled. destruct (calls w !! r) as [k|] eqn:Hr; [|done].
    destruct (is_request r (Wrapper.get k w)); [|done]. simpl.
    split; [|done]. apply lookup_insert_None. split; [done |].
    intros ->. apply Hc. by apply list_elem_of_lookup_2 in Hr.
  - unfold Wrapper.rejected. destruct (calls w !! r) as [k|] eqn:Hr; [|done].
    destruct (negb (isCanceled err) && is_request r (Wrapper.get k w)); [|done]. simpl.
    split; [|done]. unfold TernarySearchTree.delete. apply lookup_delete_None. by right.
  - done.
Qed.

Lemma unasked_step uri s x :
  Service.well_formed s →
  Service.queries uri x = false → Service.lists uri x = false →
  (∀ a w, heap s !! a = Some w → data w !! uri = None ∧ uri ∉ calls w) →
  ∀ a w, heap (Service.step s x) !! a = Some w → data w !! uri = None ∧ uri ∉ calls w.
Proof.
  intros Hwf Hq Hl Hinv a w Hw.
  destruct (heap_step_cases s x a w Hwf Hw) as [Hold | [(w0 & Hw0 & -> & _) | (p & _ & ->)]].
  - by apply (Hinv a).
  - destruct (Hinv a w0 Hw0) as [Hd Hc]. apply unasked_session_step; [done | done |].
    destruct x as [p | b | k inc | b [uris|] | b r d | b r err]; simpl in *; try done.
    + by apply bool_decide_eq_false in Hq.
    + by apply bool_decide_eq_false in Hl.
  - split; [done |]. apply not_elem_of_nil.
Qed.

Lemma unasked_run uri xs :
  Forall (λ x, Service.queries uri x = false) xs →
  Forall (λ x, Service.lists uri x = false) xs →
  ∀ a w, heap (Service.run xs Service.create) !! a = Some w →
         data w !! uri = None ∧ uri ∉ calls w.
Proof.
  induction xs as [|x xs IH] using rev_ind; intros Hq Hl a w;
    [intros Hw; change (@nil DecorationProviderWrapper !! a = Some w) in Hw;
     by rewrite lookup_nil in Hw |].
  apply Forall_app in Hq as [Hq Hx]. apply Forall_app in Hl as [Hl Hx'].
  rewrite Forall_singleton in Hx. rewrite Forall_singleton in Hx'.
  unfold Service.run. rewrite foldl_app. simpl.
  apply unasked_step; [| done | done | by apply IH].
  apply reachable_well_formed. by exists xs.
Qed.
End never_asked.

(** C8, as stated, fails, and in two ways.  A provider that answers at once
    is registered and nothing was ever queried: the first [getDecoration]
    for [a] hands back the decoration of [a], not the empty list.  And a
    provider that answers with promises announces a change of [a], which
    nobody has queried: the wrapper fetches [a] for the event, the promise
    fulfils with [X], and the first [getDecoration] for [a] finds [X] in the
    cache, hands it back and calls no provider. *)
Lemma first_query_of_never_queried_resource :
  let xs1 := [Service.Register Scenario.eager] in
  let xs2 := [Service.Register Scenario.slow;
              Service.ProviderChanged 0 (Some [Scenario.a]);
              Service.PromiseFulfilled 0 0 (Some Scenario.X)] in
  let s1 := Service.run xs1 Service.create in
  let s2 := Service.run xs2 Service.create in
  (forallb (λ x, negb (Service.queries Scenario.a x)) (xs1 ++ xs2) = true
   ∧ _data s1 = [0] ∧ _data s2 = [0])
  ∧ (Service.getDecoration Scenario.a false s1).1 = [Scenario.X]
  ∧ (Service.getDecoration Scenario.a false s2).1 = [Scenario.X]
  ∧ (Service.getDecoration Scenario.a false s2).2 = s2.
Proof. vm_compute. done. Qed.

(** C8, amended: let a resource never have been queried and never have been
    listed in a selective change event of a provider.  Then no session holds
    a slot for it and no provider was ever called for it; a call of
    [getDecoration] for it makes exactly one [provideDecorations] call for
    that resource on every live provider and none on the others; without
    children, the list handed back holds the decorations the providers
    answered at once, in registration order, so it is empty when no provider
    answers at once with a decoration. *)
Theorem first_query_fetches_once
    (xs : list Service.action) (uri : URI) (includeChildren : bool) :
  Forall (λ x, Service.queries uri x = false) xs →
  Forall (λ x, Service.lists uri x = false) xs →
  let s := Service.run xs Service.create in
  let result := (Service.getDecoration uri includeChildren s).1 in
  let s' := (Service.getDecoration uri includeChildren s).2 in
  (∀ a w, heap s !! a = Some w → data w !! uri = None ∧ uri ∉ calls w)
  ∧ (∀ a, a ∈ _data s →
       ∃ w w', heap s !! a = Some w ∧ heap s' !! a = Some w'
               ∧ calls w' = calls w ++ [uri])
  ∧ (∀ a, a ∉ _data s → heap s' !! a = heap s !! a)
  ∧ (includeChildren = false →
       result = omap (λ a, heap s !! a ≫= Service.answered_now uri) (_data s))
  ∧ (includeChildren = false →
       (∀ a w, a ∈ _data s → heap s !! a = Some w → Service.answered_now uri w = None) →
       result = []).
Proof.
  intros Hq Hl s result s'. subst result s'.
  pose proof (unasked_run uri xs Hq Hl) as Hfresh. fold s in Hfresh.
  split; [done |].
  apply unknown_resource_fetches_once.
  - apply reachable_well_formed. by exists xs.
  - intros a w _ Hw. by destruct (Hfresh a w Hw).
Qed.

(** Two providers, neither of which answers at once with a decoration, and
    nothing asked so far: the first query of [a] hands back nothing and asks
    each of them once. *)
Lemma first_query_witness :
  let s := Service.run [Service.Register Scenario.slow; Service.Register Scenario.blank]
                       Service.create in
  let s' := (Service.getDecoration Scenario.a false s).2 in
  (Service.getDecoration Scenario.a false s).1 = []
  ∧ ∃ w w', heap s !! 1 = Some w ∧ heap s' !! 1 = Some w'
            ∧ calls w' = calls w ++ [Scenario.a].
Proof.
  cbv zeta.
  pose proof (first_query_fetches_once
                [Service.Register Scenario.slow; Service.Register Scenario.blank]
                Scenario.a false
                ltac:(by repeat constructor) ltac:(by repeat constructor))
    as (_ & Hcalls & _ & _ & Hempty).
  set (s := Service.run _ _) in *.
  assert (_data s = [0; 1]) as Hdata by (vm_compute; reflexivity).
  split.
  - apply Hempty; [done |]. intros a w Ha Hw. rewrite Hdata in Ha.
    apply elem_of_cons in Ha as [-> | Ha]; [|apply list_elem_of_singleton in Ha as ->];
      vm_compute in Hw; injection Hw as <-; reflexivity.
  - apply Hcalls. rewrite Hdata. right. left.
Defined.
